(** * Syntax toolkit: LL(1) engine, tokenizer runtime and TypeScript emission

    Shallow embedding of
    - [src/ll/ll-parser.js] (class [LLParser]),
    - the TypeScript tokenizer template (classes [Token] and [Tokenizer]),
    - the TypeScript generator trait ([_dictKey], [_dictValue]).

    The parser is embedded twice where it reads its table: module [LL] has
    the whole engine over a table of integer cells read by their own
    properties, and module [Objects] has the lookup of [_getDerivedRHS]
    over plain objects, with the properties inherited from
    [Object.prototype] and cells of any value.

    JavaScript arrays are lists in index order: [push] appends at the end,
    [pop] removes the last element, [shift]/[unshift] work at the front.
    Objects used as dictionaries are [gmap]s with string keys; a missing
    property ([undefined]) is [None].  Exceptions are results of type
    [outcome]; loops the source does not bound take a fuel argument. *)

From stdpp Require Import base option list gmap strings pretty.
From Stdlib Require Import ZArith Lia Ascii.

Open Scope string_scope.
Open Scope Z_scope.
Open Scope list_scope.

(** ** Shared runtime values *)

(** Modelled from the spec: the module [special-symbols] is not among the
    sources.  The comments of [LLParser.parse] name the end marker: the stack
    is initialised "with the `$` at the bottom" and the last token must be
    "the `$` marker". *)
Definition EOF : string := "$".

(** Modelled from the spec: the Epsilon symbol of [special-symbols]; the
    two bytes are the UTF-8 encoding of the Greek letter epsilon. *)
Definition EPSILON : string :=
  String (Ascii.ascii_of_nat 206) (String (Ascii.ascii_of_nat 181) EmptyString).

(** What a JavaScript [throw] carries. *)
Inductive exn : Type :=
| Error (message : string)
| SyntaxError (message : string)
| TypeError
| RangeError.

(** Result of running a piece of the program: a value, an exception, or
    the fuel given to an unbounded loop ran out. *)
Inductive outcome (A : Type) : Type :=
| Done (a : A)
| Throw (e : exn)
| OutOfFuel.
Arguments Done {A} a.
Arguments Throw {A} e.
Arguments OutOfFuel {A}.

(** [Array.prototype.pop]: the array without its last element, and that
    element; [None] stands for the [undefined] an empty array gives. *)
Fixpoint pop {A : Type} (l : list A) : option (list A * A) :=
  match l with
  | [] => None
  | x :: r =>
      match pop r with
      | None => Some ([], x)
      | Some (r', y) => Some (x :: r', y)
      end
  end.

(** [Array.prototype.join]. *)
Fixpoint join (sep : string) (l : list string) : string :=
  match l with
  | [] => ""
  | [x] => x
  | x :: r => x +:+ sep +:+ join sep r
  end.

(** ** The LL(1) parser, [src/ll/ll-parser.js] *)
Module LL.

(** Modelled from the spec: the class [GrammarSymbol] ([grammar-symbol.js])
    is not among the sources.  It wraps the raw symbol text; the EOF and
    Epsilon variants of the spec are the symbols whose text is the reserved
    marker. *)
Record GrammarSymbol : Type := { getSymbol : string }.

#[global] Instance GrammarSymbol_eq_dec : EqDecision GrammarSymbol.
Proof. solve_decision. Defined.

Definition isEOF (s : GrammarSymbol) : bool := bool_decide (getSymbol s = EOF).
Definition isEpsilon (s : GrammarSymbol) : bool :=
  bool_decide (getSymbol s = EPSILON).

(** A production as the parser reads it: only [getRHS] is used. *)
Record Production : Type := { getRHS : list GrammarSymbol }.

(** A token as the parser reads it: [token.type] and [token.value]. *)
Record Token : Type := { type : string; value : string }.

(** The grammar collaborator ([this._grammar]); [getProduction] gives
    [None] where the JavaScript gives [undefined]. *)
Class Grammar : Type := {
  getStartSymbol : string;
  getProduction : Z → option Production;
  isTokenSymbol : GrammarSymbol → bool
}.

(** The tokenizer collaborator ([this._tokenizer]) over its state [T]. *)
Class Tokenizer (T : Type) : Type := {
  initString : string → T → T;
  getNextToken : T → outcome (Token * T);
  hasMoreTokens : T → bool
}.

(** The mutable fields of an [LLParser] instance. *)
Record LLParser (T : Type) : Type := {
  _stack : list GrammarSymbol;
  _productionNumbers : list Z;
  _tokenizer : T
}.
Arguments _stack {T} _.
Arguments _productionNumbers {T} _.
Arguments _tokenizer {T} _.

(** The value [parse] returns. *)
Record ParseResult : Type := { status : string; semanticValue : bool }.

Definition accept : ParseResult := {| status := "accept"; semanticValue := true |}.

Section Parser.
Context `{G : Grammar} {T : Type} `{Tk : !Tokenizer T}.
(** [this._table.get()]: non-terminal, then token type, to production number. *)
Variable table : gmap string (gmap string Z).

(** Methods are state transformers that may throw. *)
Definition M (A : Type) : Type := LLParser T → outcome (A * LLParser T).

Definition ret {A} (a : A) : M A := λ p, Done (a, p).
Definition bind {A B} (m : M A) (k : A → M B) : M B :=
  λ p, match m p with
       | Done (a, p') => k a p'
       | Throw e => Throw e
       | OutOfFuel => OutOfFuel
       end.
Definition throw {A} (e : exn) : M A := λ _, Throw e.
Definition timeout {A} : M A := λ _, OutOfFuel.
Definition get : M (LLParser T) := λ p, Done (p, p).
Definition put (p : LLParser T) : M unit := λ _, Done (tt, p).

Notation "'let*' x ':=' m 'in' k" := (bind m (λ x, k))
  (at level 10, x name, m at level 100, k at level 200).
Notation "'run' m 'in' k" := (bind m (λ _, k))
  (at level 10, m at level 100, k at level 200).

Definition setStack (stack : list GrammarSymbol) (p : LLParser T) : LLParser T :=
  {| _stack := stack;
     _productionNumbers := _productionNumbers p;
     _tokenizer := _tokenizer p |}.

Definition setProductionNumbers (numbers : list Z) (p : LLParser T) : LLParser T :=
  {| _stack := _stack p;
     _productionNumbers := numbers;
     _tokenizer := _tokenizer p |}.

Definition setTokenizer (t : T) (p : LLParser T) : LLParser T :=
  {| _stack := _stack p;
     _productionNumbers := _productionNumbers p;
     _tokenizer := t |}.

(** [this._stack.pop()]. *)
Definition stackPop : M (option GrammarSymbol) :=
  let* p := get in
  match pop (_stack p) with
  | None => ret None
  | Some (rest, top) => run put (setStack rest p) in ret (Some top)
  end.

(** [this._stack.push(...symbols)]. *)
Definition stackPush (symbols : list GrammarSymbol) : M unit :=
  let* p := get in
  put (setStack (_stack p ++ symbols) p).

(** [this._productionNumbers.push(n)]. *)
Definition recordProduction (n : Z) : M unit :=
  let* p := get in
  put (setProductionNumbers (_productionNumbers p ++ [n]) p).

(** [this._tokenizer.getNextToken()]. *)
Definition nextToken : M Token :=
  λ p, match getNextToken (_tokenizer p) with
       | Done (tok, t') =>
           Done (tok, setTokenizer t' p)
       | Throw e => Throw e
       | OutOfFuel => OutOfFuel
       end.

Definition _parseError {A} (message : string) : M A :=
  throw (Error ("Parse error: " +:+ message)).

Definition _unexpectedEndOfInput {A} : M A :=
  _parseError "Unexpected end of input.".

Definition _unexpectedToken {A} (token : Token) : M A :=
  if bool_decide (value token = EOF) then _unexpectedEndOfInput
  else _parseError ("Unexpected token: " +:+ value token +:+ ".").

(** [!nextProductionNumber] for a cell that holds an integer or is not
    there: an absent cell is [undefined], and among the integers only 0 is
    falsy.  The other values a cell can hold are in [Objects.truthy]. *)
Definition falsy (cell : option Z) : bool :=
  match cell with
  | None => true
  | Some n => bool_decide (n = 0)
  end.

(** [_getDerivedRHS(top, token)].  [top] is [None] when the caller popped
    an empty stack; [top.getSymbol()] then throws a [TypeError], and so
    does indexing a row the table does not have.  The table is read here
    as a map to integers, by its own properties; the lookup through
    [Object.prototype] and cells of any value are in
    [Objects._getDerivedRHS], which agrees with this one on tables of
    integers and token types that [Object.prototype] has no property for
    ([ObjectsFacts.getDerivedRHS_agrees]). *)
Definition _getDerivedRHS (top : option GrammarSymbol) (token : Token)
  : M (list GrammarSymbol) :=
  match top with
  | None => throw TypeError
  | Some top =>
      match table !! getSymbol top with
      | None => throw TypeError
      | Some row =>
          let nextProductionNumber := row !! type token in
          match nextProductionNumber with
          | Some n =>
              if falsy nextProductionNumber then _unexpectedToken token
              else
                let nextProduction := getProduction n in
                run recordProduction n in
                match nextProduction with
                | None => throw TypeError
                | Some production => ret (rev (getRHS production))
                end
          | None => _unexpectedToken token
          end
      end
  end.

(** [_doDerivation(top, token)]; [derivedRHS[0]] of an empty array is
    [undefined], whose [isEpsilon()] call throws. *)
Definition _doDerivation (top : option GrammarSymbol) (token : Token) : M unit :=
  let* derivedRHS := _getDerivedRHS top token in
  match derivedRHS with
  | [] => throw TypeError
  | first :: _ =>
      if negb (isEpsilon first) then stackPush derivedRHS else ret tt
  end.

(** One pass through the body of the [do ... while] of [parse]; the
    result is the current token after the pass. *)
Definition loopBody (token : Token) : M Token :=
  let* top := stackPop in
  match top with
  | None => throw TypeError
  | Some s =>
      if isTokenSymbol s && bool_decide (getSymbol s = type token)
      then nextToken
      else run _doDerivation top token in ret token
  end.

(** [this._tokenizer.hasMoreTokens() || this._stack.length > 1]. *)
Definition loopCondition (p : LLParser T) : bool :=
  hasMoreTokens (_tokenizer p) || bool_decide (1 < length (_stack p))%nat.

(** The [do ... while] loop. *)
Fixpoint mainLoop (fuel : nat) (token : Token) : M Token :=
  match fuel with
  | O => timeout
  | S fuel' =>
      let* token' := loopBody token in
      let* p := get in
      if loopCondition p then mainLoop fuel' token' else ret token'
  end.

(** The trailing [while (this._stack.length !== 1)] loop. *)
Fixpoint cleanupLoop (fuel : nat) (token : Token) : M unit :=
  let* p := get in
  if bool_decide (length (_stack p) ≠ 1%nat) then
    match fuel with
    | O => timeout
    | S fuel' =>
        let* top := stackPop in
        run _doDerivation top token in
        cleanupLoop fuel' token
    end
  else ret tt.

(** The statements of [parse] before the loops. *)
Definition parseInit (string : string) : M Token :=
  let* p := get in
  run put {| _stack := [ {| getSymbol := EOF |};
                         {| getSymbol := getStartSymbol |} ];
             _productionNumbers := [];
             _tokenizer := initString string (_tokenizer p) |} in
  nextToken.

(** Both loops of [parse]: the state they leave and the current token. *)
Definition parseLoops (fuel : nat) (string : string) : M Token :=
  let* token := parseInit string in
  let* token := mainLoop fuel token in
  run cleanupLoop fuel token in
  ret token.

(** The final test of [parse] and its [return]. *)
Definition parseFinish (token : Token) : M ParseResult :=
  let* p := get in
  match _stack p !! 0%nat with
  | None => throw TypeError
  | Some bottom =>
      if negb (isEOF bottom) || negb (bool_decide (value token = EOF)) then
        _parseError ("stack is not empty: " +:+
                     join "," (getSymbol <$> _stack p) +:+
                     ", " +:+ value token)
      else ret accept
  end.

Definition parse (fuel : nat) (string : string) : M ParseResult :=
  let* token := parseLoops fuel string in
  parseFinish token.

(** The state a successful derivation with production [n] and pushed
    symbols [pushed] leaves. *)
Definition derived (n : Z) (pushed : list GrammarSymbol) (p : LLParser T)
  : LLParser T :=
  {| _stack := _stack p ++ pushed;
     _productionNumbers := _productionNumbers p ++ [n];
     _tokenizer := _tokenizer p |}.

(** The message of the final test of [parse]. *)
Definition stackNotEmpty (token : Token) (p : LLParser T) : string :=
  "Parse error: stack is not empty: " +:+
  join "," (getSymbol <$> _stack p) +:+ ", " +:+ value token.

(** [p'] extends the trace of [p] by production numbers other than 0. *)
Definition traceGrows (p p' : LLParser T) : Prop :=
  ∃ l, _productionNumbers p' = _productionNumbers p ++ l ∧
       Forall (λ n, n ≠ 0) l.

(** [getProductionNumbers()]. *)
Definition getProductionNumbers (p : LLParser T) : list Z :=
  _productionNumbers p.

(** A production number a derivation can record: it is the content of a
    cell of the table, it is not 0, and the grammar has that production. *)
Definition derivable (n : Z) : Prop :=
  n ≠ 0 ∧ is_Some (getProduction n) ∧
  ∃ (symbol tokenType : string) (row : gmap string Z),
    table !! symbol = Some row ∧ row !! tokenType = Some n.

(** [p'] extends the trace of [p] by derivable production numbers. *)
Definition traceExtends (p p' : LLParser T) : Prop :=
  ∃ l, _productionNumbers p' = _productionNumbers p ++ l ∧
       Forall derivable l.

(** The exceptions [parse] lets out: a [TypeError] of the engine, whatever
    the tokenizer throws, and the three parse errors. *)
Definition parseFailure (e : exn) : Prop :=
  e = TypeError ∨
  (∃ t : T, getNextToken t = Throw e) ∨
  e = Error "Parse error: Unexpected end of input." ∨
  (∃ v, e = Error ("Parse error: Unexpected token: " +:+ v +:+ ".")) ∨
  (∃ symbols v,
      e = Error ("Parse error: stack is not empty: " +:+
                 join "," symbols +:+ ", " +:+ v)).

(** What [_doDerivation] pushes for [production], in the order of the
    right-hand side: all of it, or nothing when the right-hand side ends
    in the epsilon marker (the test on [derivedRHS[0]]). *)
Definition pushedSymbols (production : Production) : list GrammarSymbol :=
  match rev (getRHS production) with
  | first :: _ => if isEpsilon first then [] else getRHS production
  | [] => []
  end.

(** Modelled from the spec: the word a right-hand side stands for, the
    epsilon marker being the empty word. *)
Definition word (rhs : list GrammarSymbol) : list GrammarSymbol :=
  filter (λ s, isEpsilon s = false) rhs.

(** Modelled from the spec: one step of a leftmost derivation of the
    grammar.  [getLHS n] is the left-hand side of production [n], which the
    parser never reads.  The step rewrites the first symbol of the
    sentential form that is not a token symbol; that symbol has to be the
    left-hand side of the production, and the word of the right-hand side
    takes its place. *)
Fixpoint expandLeftmost (getLHS : Z → string) (n : Z)
    (form : list GrammarSymbol) : option (list GrammarSymbol) :=
  match form with
  | [] => None
  | s :: rest =>
      if isTokenSymbol s
      then (λ form', s :: form') <$> expandLeftmost getLHS n rest
      else if bool_decide (getSymbol s = getLHS n)
      then (λ production, word (getRHS production) ++ rest) <$> getProduction n
      else None
  end.

(** The leftmost derivation that applies the productions of a trace in
    order. *)
Definition replay (getLHS : Z → string) (numbers : list Z)
    (form : list GrammarSymbol) : option (list GrammarSymbol) :=
  foldl (λ current n, current ≫= expandLeftmost getLHS n) (Some form) numbers.

(** Every right-hand side of the grammar is the epsilon marker alone or
    holds no epsilon marker. *)
Definition epsilonStandsAlone : Prop :=
  ∀ (n : Z) (production : Production),
    getProduction n = Some production →
    getRHS production = [ {| getSymbol := EPSILON |} ] ∨
    Forall (λ s, isEpsilon s = false) (getRHS production).

(** The cells of a row hold only productions of the row's symbol. *)
Definition rowsHoldOwnProductions (getLHS : Z → string) : Prop :=
  ∀ (symbol tokenType : string) (row : gmap string Z) (n : Z),
    table !! symbol = Some row → row !! tokenType = Some n →
    getLHS n = symbol.

(** The tokens of [n] calls of [getNextToken] in a row. *)
Fixpoint readTokens (n : nat) (t : T) : outcome (list Token * T) :=
  match n with
  | O => Done ([], t)
  | S n' =>
      match getNextToken t with
      | Done (token, t') =>
          match readTokens n' t' with
          | Done (tokens, t'') => Done (token :: tokens, t'')
          | Throw e => Throw e
          | OutOfFuel => OutOfFuel
          end
      | Throw e => Throw e
      | OutOfFuel => OutOfFuel
      end
  end.

(** The grammar symbol a token stands for. *)
Definition symbolOf (token : Token) : GrammarSymbol :=
  {| getSymbol := type token |}.

(** The state of a run of [parse]: the tokens read before the current one
    are token symbols, and the trace so far derives, leftmost from the
    start symbol followed by the end marker, those tokens followed by the
    stack read from its top. *)
Definition replays (getLHS : Z → string) (t0 : T) (token : Token)
    (p : LLParser T) : Prop :=
  ∃ consumed : list Token,
    readTokens (S (length consumed)) t0 =
      Done (consumed ++ [token], _tokenizer p) ∧
    Forall (λ read, isTokenSymbol (symbolOf read) = true) consumed ∧
    replay getLHS (_productionNumbers p)
           [ {| getSymbol := getStartSymbol |}; {| getSymbol := EOF |} ] =
      Some ((symbolOf <$> consumed) ++ rev (_stack p)).

End Parser.

End LL.

(** ** A concrete grammar and token source for the parser *)
Module Scenario.
Import LL.

(** Modelled from the spec: the [Tokenizer] class the parser imports
    ([src/tokenizer.js]) is not among the sources.  This token source
    follows section 4.2 for a lexical grammar in which every character is a
    token of its own, typed and valued by that character: [hasMoreTokens]
    holds while the cursor is at most the text length, the end of text is
    consumed once as the EOF token (type and value [EOF]), and past it the
    EOF token is returned again. *)
Record CharTokenizer : Type := { _string : string; _cursor : nat }.

Definition EOF_TOKEN : Token := {| type := EOF; value := EOF |}.

Definition charNext (t : CharTokenizer) : outcome (Token * CharTokenizer) :=
  match String.get (_cursor t) (_string t) with
  | Some c =>
      let text := String c EmptyString in
      Done ({| type := text; value := text |},
            {| _string := _string t; _cursor := S (_cursor t) |})
  | None =>
      if bool_decide (_cursor t = String.length (_string t))
      then Done (EOF_TOKEN, {| _string := _string t; _cursor := S (_cursor t) |})
      else Done (EOF_TOKEN, t)
  end.

#[global] Instance charTokenizer : Tokenizer CharTokenizer := {|
  initString s _ := {| _string := s; _cursor := 0 |};
  getNextToken := charNext;
  hasMoreTokens t := bool_decide (_cursor t ≤ String.length (_string t))%nat
|}.

Definition sym (s : string) : GrammarSymbol := {| getSymbol := s |}.

(** Scenario A of the specification: [S -> a S b | epsilon], with the
    table [{S: {a: 1, b: 2, $: 2}}]. *)
Definition anbn : Grammar := {|
  getStartSymbol := "S";
  getProduction n :=
    if bool_decide (n = 1) then Some {| getRHS := [sym "a"; sym "S"; sym "b"] |}
    else if bool_decide (n = 2) then Some {| getRHS := [sym EPSILON] |}
    else None;
  isTokenSymbol s := bool_decide (getSymbol s ∈ ["a"; "b"])
|}.

Definition anbnTable : gmap string (gmap string Z) :=
  {[ "S" := {[ "a" := 1; "b" := 2; EOF := 2 ]} ]}.

(** A grammar whose only production, [S -> S], is selected at end of input. *)
Definition looping : Grammar := {|
  getStartSymbol := "S";
  getProduction n :=
    if bool_decide (n = 1) then Some {| getRHS := [sym "S"] |} else None;
  isTokenSymbol _ := false
|}.

Definition loopingTable : gmap string (gmap string Z) :=
  {[ "S" := {[ EOF := 1 ]} ]}.

(** A table with a cell that is present and holds 0. *)
Definition zeroRow : gmap string Z := {[ "a" := 0 ]}.
Definition zeroTable : gmap string (gmap string Z) := {[ "S" := zeroRow ]}.

(** A table that also has a row for the end marker, which lets the bottom
    of the stack be replaced while input remains. *)
Definition leftover : Grammar := {|
  getStartSymbol := "S";
  getProduction n :=
    if bool_decide (n = 1) then Some {| getRHS := [sym "a"] |}
    else if bool_decide (n = 2) then Some {| getRHS := [sym "a"; sym "a"] |}
    else None;
  isTokenSymbol s := bool_decide (getSymbol s = "a")
|}.

Definition leftoverTable : gmap string (gmap string Z) :=
  {[ "S" := {[ "a" := 1 ]}; EOF := {[ "a" := 2 ]} ]}.

(** A production whose right-hand side ends in the epsilon marker without
    being the epsilon right-hand side: [S -> a epsilon]. *)
Definition trailing : Grammar := {|
  getStartSymbol := "S";
  getProduction n :=
    if bool_decide (n = 1)
    then Some {| getRHS := [sym "a"; sym EPSILON] |} else None;
  isTokenSymbol s := bool_decide (getSymbol s = "a")
|}.

Definition trailingTable : gmap string (gmap string Z) :=
  {[ "S" := {[ "a" := 1; EOF := 1 ]} ]}.

(** A production whose right-hand side is an array without any symbol. *)
Definition hollow : Grammar := {|
  getStartSymbol := "S";
  getProduction n :=
    if bool_decide (n = 1) then Some {| getRHS := [] |} else None;
  isTokenSymbol s := bool_decide (getSymbol s = "a")
|}.

Definition charToken (c : string) : Token := {| type := c; value := c |}.

(** A parser instance as its constructor leaves it. *)
Definition fresh : LLParser CharTokenizer :=
  {| _stack := []; _productionNumbers := [];
     _tokenizer := {| _string := ""; _cursor := 0 |} |}.

(** The state the [looping] grammar reaches on the empty input: the
    tokenizer is past the end of the text, the current token is EOF. *)
Definition loopingState (numbers : list Z) : LLParser CharTokenizer :=
  {| _stack := [sym EOF; sym "S"];
     _productionNumbers := numbers;
     _tokenizer := {| _string := ""; _cursor := 1 |} |}.

End Scenario.

(** ** The table lookup over plain JavaScript objects *)

(** The table [this._table.get()] and its rows are plain objects: a
    property an object does not own is looked up in [Object.prototype], and
    a cell can hold any value.  This module has the lookup of
    [_getDerivedRHS] with both. *)
Module Objects.
Import LL.

(** The values a cell of the table can hold.  A number is an integer or
    [NaN] (the other numbers are truthy, as an object is); an object, a
    function included, is known by a name only, since the parser reads no
    property of the value of a cell. *)
Inductive Value : Type :=
| VUndefined
| VNull
| VBoolean (b : bool)
| VNumber (n : Z)
| VNaN
| VBigInt (n : Z)
| VString (s : string)
| VObject (name : string).

(** [!!value]: [undefined], [null], [false], 0, [NaN], [0n] and the empty
    string are falsy, everything else is truthy. *)
Definition truthy (v : Value) : bool :=
  match v with
  | VUndefined | VNull | VNaN => false
  | VBoolean b => b
  | VNumber n => negb (bool_decide (n = 0))
  | VBigInt n => negb (bool_decide (n = 0))
  | VString s => negb (bool_decide (s = ""))
  | VObject _ => true
  end.

(** The names of the properties of [Object.prototype]. *)
Definition objectPrototypeNames : list string :=
  [ "constructor"; "__defineGetter__"; "__defineSetter__"; "hasOwnProperty";
    "__lookupGetter__"; "__lookupSetter__"; "isPrototypeOf";
    "propertyIsEnumerable"; "toString"; "valueOf"; "__proto__";
    "toLocaleString" ].

(** [Object.prototype[key]]: a function for eleven of the names, the
    prototype itself for [__proto__], and [undefined] for any other key. *)
Definition objectPrototype (key : string) : Value :=
  if bool_decide (key ∈ objectPrototypeNames)
  then VObject ("Object.prototype." +:+ key)
  else VUndefined.

(** [object[key]] for the plain object whose own properties are [own]. *)
Definition plainObject (own : gmap string Value) (key : string) : Value :=
  match own !! key with
  | Some v => v
  | None => objectPrototype key
  end.

Definition _parseError (message : string) : exn :=
  Error ("Parse error: " +:+ message).

Definition _unexpectedEndOfInput : exn :=
  _parseError "Unexpected end of input.".

Definition _unexpectedToken (token : Token) : exn :=
  if bool_decide (value token = EOF) then _unexpectedEndOfInput
  else _parseError ("Unexpected token: " +:+ value token +:+ ".").

Section Lookup.
(** [this._table.get()[symbol]]: the row the table answers for a symbol,
    given by what the row answers for a key, or [None] where the table
    answers [undefined]. *)
Variable table : string → option (string → Value).
(** [this._grammar.getProduction(value)], [None] for [undefined]. *)
Variable getProduction : Value → option Production.

(** [_getDerivedRHS(top, token)] on the trace [_productionNumbers]: the
    reversed right-hand side and the trace it leaves. *)
Definition _getDerivedRHS (top : option GrammarSymbol) (token : Token)
    (_productionNumbers : list Value)
  : outcome (list GrammarSymbol * list Value) :=
  match top with
  | None => Throw TypeError
  | Some top =>
      match table (getSymbol top) with
      | None => Throw TypeError
      | Some row =>
          let nextProductionNumber := row (type token) in
          if negb (truthy nextProductionNumber)
          then Throw (_unexpectedToken token)
          else
            let nextProduction := getProduction nextProductionNumber in
            let _productionNumbers :=
              _productionNumbers ++ [nextProductionNumber] in
            match nextProduction with
            | None => Throw TypeError
            | Some production =>
                Done (rev (getRHS production), _productionNumbers)
            end
      end
  end.

End Lookup.

(** The table [table] with the row of [symbol] replaced by [row]. *)
Definition withRow (symbol : string) (row : string → Value)
    (table : string → option (string → Value))
  : string → option (string → Value) :=
  λ s, if bool_decide (s = symbol) then Some row else table s.

(** A table as far as the row of [S] goes, which is the plain object with
    the cells [cells]; the runs on it look up no other symbol. *)
Definition rowOfS (cells : gmap string Value)
  : string → option (string → Value) :=
  withRow "S" (plainObject cells) (λ _, None).

(** Modelled from the spec: [getProduction] of the grammar of Scenario A,
    which has the productions 1 and 2.  The runs on it hand it a
    production number or the function inherited from [Object.prototype],
    for which the grammar has no production. *)
Definition anbnProduction (v : Value) : option Production :=
  match v with
  | VNumber n => getProduction (Grammar := Scenario.anbn) n
  | _ => None
  end.

End Objects.

(** ** The tokenizer runtime of the TypeScript template *)
Module Runtime.

(** [String.prototype.slice(start)] with one argument. *)
Fixpoint dropChars (n : nat) (s : string) : string :=
  match n, s with
  | O, _ => s
  | S n', String _ rest => dropChars n' rest
  | S _, EmptyString => EmptyString
  end.

Definition slice (s : string) (start : Z) : string :=
  let len := Z.of_nat (String.length s) in
  let from := if start <? 0 then Z.max (len + start) 0 else Z.min start len in
  dropChars (Z.to_nat from) s.

(** [String.prototype.split('\n')]. *)
Fixpoint splitLines (current : string) (s : string) : list string :=
  match s with
  | EmptyString => [current]
  | String c rest =>
      if Ascii.eqb c "010"%char then current :: splitLines "" rest
      else splitLines (current +:+ String c EmptyString) rest
  end.

(** [' '.repeat(n)] for [n] at least 0. *)
Fixpoint spaces (n : nat) : string :=
  match n with
  | O => ""
  | S n' => String " "%char (spaces n')
  end.

(** Class [Token].  The [type] is what [tokensMap] holds for the token-type
    name; [None] stands for the [undefined] (or [NaN]) of a name the map
    does not have. *)
Record Token : Type := {
  type : option Z;
  value : string;
  startOffset : Z;
  endOffset : Z;
  startLine : Z;
  endLine : Z;
  startColumn : Z;
  endColumn : Z
}.

(** The fields of a [Tokenizer] instance, and the two module-level
    variables [yytext] and [yyleng] the handlers read. *)
Record Tokenizer : Type := {
  _string : string;
  _states : list string;
  _cursor : Z;
  _currentLine : Z;
  _currentColumn : Z;
  _currentLineBeginOffset : Z;
  _tokenStartOffset : Z;
  _tokenEndOffset : Z;
  _tokenStartLine : Z;
  _tokenEndLine : Z;
  _tokenStartColumn : Z;
  _tokenEndColumn : Z;
  _tokensQueue : list string;
  yytext : string;
  yyleng : Z
}.

Definition setStates (states : list string) (t : Tokenizer) : Tokenizer :=
  {| _string := _string t; _states := states; _cursor := _cursor t;
     _currentLine := _currentLine t; _currentColumn := _currentColumn t;
     _currentLineBeginOffset := _currentLineBeginOffset t;
     _tokenStartOffset := _tokenStartOffset t;
     _tokenEndOffset := _tokenEndOffset t;
     _tokenStartLine := _tokenStartLine t; _tokenEndLine := _tokenEndLine t;
     _tokenStartColumn := _tokenStartColumn t;
     _tokenEndColumn := _tokenEndColumn t;
     _tokensQueue := _tokensQueue t; yytext := yytext t; yyleng := yyleng t |}.

Definition setCursor (cursor : Z) (t : Tokenizer) : Tokenizer :=
  {| _string := _string t; _states := _states t; _cursor := cursor;
     _currentLine := _currentLine t; _currentColumn := _currentColumn t;
     _currentLineBeginOffset := _currentLineBeginOffset t;
     _tokenStartOffset := _tokenStartOffset t;
     _tokenEndOffset := _tokenEndOffset t;
     _tokenStartLine := _tokenStartLine t; _tokenEndLine := _tokenEndLine t;
     _tokenStartColumn := _tokenStartColumn t;
     _tokenEndColumn := _tokenEndColumn t;
     _tokensQueue := _tokensQueue t; yytext := yytext t; yyleng := yyleng t |}.

Definition setTokensQueue (queue : list string) (t : Tokenizer) : Tokenizer :=
  {| _string := _string t; _states := _states t; _cursor := _cursor t;
     _currentLine := _currentLine t; _currentColumn := _currentColumn t;
     _currentLineBeginOffset := _currentLineBeginOffset t;
     _tokenStartOffset := _tokenStartOffset t;
     _tokenEndOffset := _tokenEndOffset t;
     _tokenStartLine := _tokenStartLine t; _tokenEndLine := _tokenEndLine t;
     _tokenStartColumn := _tokenStartColumn t;
     _tokenEndColumn := _tokenEndColumn t;
     _tokensQueue := queue; yytext := yytext t; yyleng := yyleng t |}.

Definition setYytext (text : string) (t : Tokenizer) : Tokenizer :=
  {| _string := _string t; _states := _states t; _cursor := _cursor t;
     _currentLine := _currentLine t; _currentColumn := _currentColumn t;
     _currentLineBeginOffset := _currentLineBeginOffset t;
     _tokenStartOffset := _tokenStartOffset t;
     _tokenEndOffset := _tokenEndOffset t;
     _tokenStartLine := _tokenStartLine t; _tokenEndLine := _tokenEndLine t;
     _tokenStartColumn := _tokenStartColumn t;
     _tokenEndColumn := _tokenEndColumn t;
     _tokensQueue := _tokensQueue t;
     yytext := text; yyleng := Z.of_nat (String.length text) |}.

(** [initString(tokenizingString)]: every instance field is reset. *)
Definition initString (tokenizingString : string) (t : Tokenizer) : Tokenizer :=
  {| _string := tokenizingString; _states := ["INITIAL"]; _cursor := 0;
     _currentLine := 1; _currentColumn := 0; _currentLineBeginOffset := 0;
     _tokenStartOffset := 0; _tokenEndOffset := 0;
     _tokenStartLine := 1; _tokenEndLine := 1;
     _tokenStartColumn := 0; _tokenEndColumn := 0;
     _tokensQueue := []; yytext := yytext t; yyleng := yyleng t |}.

(** *** States *)

(** [this._states[this._states.length - 1]]. *)
Definition getCurrentState (t : Tokenizer) : option string := last (_states t).

Definition pushState (state : string) (t : Tokenizer) : Tokenizer :=
  setStates (_states t ++ [state]) t.

(** [popState()] with the state it returns. *)
Definition popState (t : Tokenizer) : option string * Tokenizer :=
  if bool_decide (1 < length (_states t))%nat then
    match pop (_states t) with
    | Some (rest, top) => (Some top, setStates rest t)
    | None => (None, t)
    end
  else (getCurrentState t, t).

Definition begin (state : string) (t : Tokenizer) : Tokenizer :=
  pushState state t.

(** The calls that change the state stack. *)
Inductive StateCall : Type :=
| PushState (state : string)
| PopState
| Begin (state : string).

Definition call (t : Tokenizer) (c : StateCall) : Tokenizer :=
  match c with
  | PushState state => pushState state t
  | PopState => snd (popState t)
  | Begin state => begin state t
  end.

Definition calls (cs : list StateCall) (t : Tokenizer) : Tokenizer :=
  foldl call t cs.

(** The invariant of the state stack: INITIAL at the bottom. *)
Definition statesOk (t : Tokenizer) : Prop :=
  ∃ rest, _states t = "INITIAL" :: rest.

(** *** Handlers *)

(** What a lex-rule handler returns: nothing, one token-type name, or an
    array of names. *)
Inductive HandlerResult : Type :=
| ReturnsNothing
| ReturnsType (name : string)
| ReturnsTypes (names : list string).

(** Modelled from the spec: the handler bodies are spliced into the class
    at [LEX_RULE_HANDLERS] and are not part of the template.  By section 4.2
    a handler sees the matched text, may change the state stack through
    [pushState], [popState] and [begin], and returns nothing, a token-type
    name or a sequence of names. *)
Definition Handler : Type := Tokenizer → list StateCall * HandlerResult.

(** [!tokenType]: [null], [undefined] and the empty string are falsy; an
    array never is. *)
Definition isFalsy (r : HandlerResult) : bool :=
  match r with
  | ReturnsNothing => true
  | ReturnsType name => bool_decide (name = "")
  | ReturnsTypes _ => false
  end.

(** A regular expression as [string.match(regexp)] uses it: the matched
    text [matched[0]], or [None] for [null]. *)
Definition RegExp : Type := string → option string.

Definition setLocation
    (line lineBegin startOffset endOffset startLine startColumn : Z)
    (t : Tokenizer) : Tokenizer :=
  {| _string := _string t; _states := _states t; _cursor := _cursor t;
     _currentLine := line; _currentColumn := endOffset - lineBegin;
     _currentLineBeginOffset := lineBegin;
     _tokenStartOffset := startOffset; _tokenEndOffset := endOffset;
     _tokenStartLine := startLine; _tokenEndLine := line;
     _tokenStartColumn := startColumn;
     _tokenEndColumn := endOffset - lineBegin;
     _tokensQueue := _tokensQueue t; yytext := yytext t; yyleng := yyleng t |}.

(** The [while ((nlMatch = nlRe.exec(matched)) !== null)] loop of
    [_captureLocation]: [index] is the position in the matched text, the
    result is the running line number and the offset of its first
    character. *)
Fixpoint scanNewlines (matched : string) (index startOffset : Z)
    (line lineBegin : Z) : Z * Z :=
  match matched with
  | EmptyString => (line, lineBegin)
  | String c rest =>
      if Ascii.eqb c "010"%char
      then scanNewlines rest (index + 1) startOffset
                        (line + 1) (startOffset + index + 1)
      else scanNewlines rest (index + 1) startOffset line lineBegin
  end.

Definition _captureLocation (matched : string) (t : Tokenizer) : Tokenizer :=
  let startOffset := _cursor t in
  let startLine := _currentLine t in
  let startColumn := startOffset - _currentLineBeginOffset t in
  let '(line, lineBegin) :=
    scanNewlines matched 0 startOffset
                 (_currentLine t) (_currentLineBeginOffset t) in
  let endOffset := _cursor t + Z.of_nat (String.length matched) in
  setLocation line lineBegin startOffset endOffset startLine startColumn t.

(** [_match(string, regexp)] with the state it leaves. *)
Definition _match (str : string) (regexp : RegExp) (t : Tokenizer)
  : option string * Tokenizer :=
  match regexp str with
  | Some matched =>
      let t := _captureLocation matched t in
      (Some matched,
       setCursor (_cursor t + Z.of_nat (String.length matched)) t)
  | None => (None, t)
  end.

(** The state a successful [_match] leaves in the loop of
    [getNextToken], including the cursor step taken for an empty match on
    an empty rest. *)
Definition matchedState (str matched : string) (t : Tokenizer) : Tokenizer :=
  let t' := _captureLocation matched t in
  let t' := setCursor (_cursor t' + Z.of_nat (String.length matched)) t' in
  if bool_decide (str = "") && bool_decide (matched = "")
  then setCursor (_cursor t' + 1) t' else t'.

(** The six positional fields of a token. *)
Definition locationOf (token : Token) : Z * Z * Z * Z * Z * Z :=
  (startOffset token, endOffset token, startLine token, endLine token,
   startColumn token, endColumn token).

(** The positional fields [_captureLocation] computes for a match of
    [matched] in state [t]. *)
Definition capturedLocation (matched : string) (t : Tokenizer)
  : Z * Z * Z * Z * Z * Z :=
  let '(line, lineBegin) :=
    scanNewlines matched 0 (_cursor t)
                 (_currentLine t) (_currentLineBeginOffset t) in
  let endOffset := _cursor t + Z.of_nat (String.length matched) in
  (_cursor t, endOffset, _currentLine t, line,
   _cursor t - _currentLineBeginOffset t, endOffset - lineBegin).

Definition hasMoreTokens (t : Tokenizer) : bool :=
  bool_decide (_cursor t ≤ Z.of_nat (String.length (_string t))).

Definition isEOF (t : Tokenizer) : bool :=
  bool_decide (_cursor t = Z.of_nat (String.length (_string t))).

(** A value spliced into a template string. *)
Definition orUndefined (s : option string) : string := default "undefined" s.

(** [throwUnexpectedToken(symbol, line, column)]. *)
Definition throwUnexpectedToken {A : Type} (symbol : option string)
    (line column : Z) (t : Tokenizer) : outcome A :=
  let lineSource :=
    if line - 1 <? 0 then None
    else splitLines "" (_string t) !! Z.to_nat (line - 1) in
  if column <? 0 then Throw RangeError
  else
    let pad := spaces (Z.to_nat column) in
    let nl := String "010"%char EmptyString in
    let lineData :=
      nl +:+ nl +:+ orUndefined lineSource +:+ nl +:+ pad +:+ "^" +:+ nl in
    Throw (SyntaxError
             (lineData +:+ "Unexpected token: " +:+ String "034"%char "" +:+
              orUndefined symbol +:+ String "034"%char "" +:+
              " at " +:+ pretty line +:+ ":" +:+ pretty column +:+ ".")).

Section Tokenizing.
(** The tables the generator splices into the template: [TOKENS],
    [LEX_RULES], [LEX_RULES_BY_START_CONDITIONS], and the handler methods
    looked up by name with [this[lexRule[1]]]. *)
Variable tokensMap : gmap string Z.
Variable lexRules : list (RegExp * string).
Variable lexRulesByConditions : gmap string (list nat).
Variable handlers : gmap string Handler.

(** [new Token(Number(tokensMap[EOF]), '')]. *)
Definition EOF_TOKEN : Token :=
  {| type := tokensMap !! EOF; value := "";
     startOffset := 0; endOffset := 0; startLine := 0; endLine := 0;
     startColumn := 0; endColumn := 0 |}.

(** [_toToken(tokenType, yytext = '')]; the name is [None] when the
    handler returned an empty array. *)
Definition _toToken (tokenType : option string) (yytext : string)
    (t : Tokenizer) : Token :=
  {| type := tokensMap !! orUndefined tokenType;
     value := yytext;
     startOffset := _tokenStartOffset t;
     endOffset := _tokenEndOffset t;
     startLine := _tokenStartLine t;
     endLine := _tokenEndLine t;
     startColumn := _tokenStartColumn t;
     endColumn := _tokenEndColumn t |}.

(** The [for] loop of [getNextToken] up to the first rule that matches:
    the matched text, the name of the rule's handler and the state after
    [_match] (and after the cursor step for an empty match at the end of
    the text); [None] when the loop runs to its end. *)
Fixpoint scanRules (lexRulesForState : list nat) (str : string)
    (t : Tokenizer) : outcome (option (string * string * Tokenizer)) :=
  match lexRulesForState with
  | [] => Done None
  | lexRuleIndex :: rest =>
      match lexRules !! lexRuleIndex with
      | None => Throw TypeError
      | Some (regexp, handlerName) =>
          match _match str regexp t with
          | (Some matched, t') =>
              let t' :=
                if bool_decide (str = "") && bool_decide (matched = "")
                then setCursor (_cursor t' + 1) t' else t' in
              Done (Some (matched, handlerName, t'))
          | (None, _) => scanRules rest str t
          end
      end
  end.

(** A rule that exists and whose matcher fails on [str]. *)
Definition fails (str : string) (index : nat) : Prop :=
  ∃ (regexp : RegExp) (handlerName : string),
    lexRules !! index = Some (regexp, handlerName) ∧ regexp str = None.

(** The body of [if (matched !== null)]; [again] is the recursive
    [this.getNextToken()] of a skipped match. *)
Definition handleMatch (again : Tokenizer → outcome (Token * Tokenizer))
    (handlerName matched : string) (t : Tokenizer)
  : outcome (Token * Tokenizer) :=
  let t := setYytext matched t in
  match handlers !! handlerName with
  | None => Throw TypeError
  | Some tokenHandler =>
      let '(stateCalls, tokenType) := tokenHandler t in
      let t := calls stateCalls t in
      if isFalsy tokenType then again t
      else
        match tokenType with
        | ReturnsTypes names =>
            let tokensToQueue := tail names in
            let t :=
              if bool_decide (0 < length tokensToQueue)%nat
              then setTokensQueue (tokensToQueue ++ _tokensQueue t) t
              else t in
            Done (_toToken (head names) matched t, t)
        | ReturnsType name => Done (_toToken (Some name) matched t, t)
        | ReturnsNothing => again t
        end
  end.

(** [getNextToken()].  Every skipped match is a nested call
    ([return this.getNextToken()]); [fuel] bounds that nesting.  An engine
    bounds it too, by its call stack, and throws a [RangeError] of its own
    when the stack is exhausted: that outcome is [OutOfFuel] here, and
    [Throw] stands for what the code of the tokenizer throws. *)
Fixpoint getNextToken (fuel : nat) (t : Tokenizer)
  : outcome (Token * Tokenizer) :=
  match _tokensQueue t with
  | tokenType :: rest =>
      let t := setTokensQueue rest t in
      Done (_toToken (Some tokenType) "" t, t)
  | [] =>
      if negb (hasMoreTokens t) then Done (EOF_TOKEN, t)
      else
        let str := slice (_string t) (_cursor t) in
        match lexRulesByConditions !! orUndefined (getCurrentState t) with
        | None => Throw TypeError
        | Some lexRulesForState =>
            match scanRules lexRulesForState str t with
            | Done (Some (matched, handlerName, t')) =>
                handleMatch
                  (λ t'', match fuel with
                          | O => OutOfFuel
                          | S fuel' => getNextToken fuel' t''
                          end)
                  handlerName matched t'
            | Done None =>
                if isEOF t then Done (EOF_TOKEN, setCursor (_cursor t + 1) t)
                else throwUnexpectedToken
                       ((λ c, String c EmptyString) <$> String.get 0 str)
                       (_currentLine t) (_currentColumn t) t
            | Throw e => Throw e
            | OutOfFuel => OutOfFuel
            end
        end
  end.

(** [n] calls of [getNextToken] in a row, with the tokens they return. *)
Fixpoint getTokens (n : nat) (fuel : nat) (t : Tokenizer)
  : outcome (list Token * Tokenizer) :=
  match n with
  | O => Done ([], t)
  | S n' =>
      match getNextToken fuel t with
      | Done (token, t') =>
          match getTokens n' fuel t' with
          | Done (tokens, t'') => Done (token :: tokens, t'')
          | Throw e => Throw e
          | OutOfFuel => OutOfFuel
          end
      | Throw e => Throw e
      | OutOfFuel => OutOfFuel
      end
  end.

End Tokenizing.

(** *** What the properties of the runtime are stated with *)

(** The first [n] characters of a text. *)
Fixpoint takeChars (n : nat) (s : string) : string :=
  match n, s with
  | S n', String c rest => String c (takeChars n' rest)
  | _, _ => EmptyString
  end.

(** The number of newline characters in a text. *)
Fixpoint countNewlines (s : string) : Z :=
  match s with
  | EmptyString => 0
  | String c rest =>
      (if Ascii.eqb c "010"%char then 1 else 0) + countNewlines rest
  end.

(** The offset at which the last line of a text begins: [current] when the
    text has no newline, otherwise one past its last newline, the text
    starting at offset [index]. *)
Fixpoint lineStartFrom (s : string) (index current : Z) : Z :=
  match s with
  | EmptyString => current
  | String c rest =>
      lineStartFrom rest (index + 1)
                    (if Ascii.eqb c "010"%char then index + 1 else current)
  end.

Definition lineStart (s : string) : Z := lineStartFrom s 0 0.

(** The text before offset [offset] of the tokenized string. *)
Definition textBefore (offset : Z) (t : Tokenizer) : string :=
  takeChars (Z.to_nat offset) (_string t).

(** The cursor, the start of the current line and the end of the last
    match are in order, and the column is not negative. *)
Definition offsetsOk (t : Tokenizer) : Prop :=
  _currentLineBeginOffset t ≤ _cursor t ∧
  _tokenEndOffset t ≤ _cursor t ∧
  0 ≤ _currentColumn t.

(** The running line number and line start are those of the text before
    the cursor, counted from the start of the input, and the stored
    location of the last match is that of its two offsets. *)
Definition linesOk (t : Tokenizer) : Prop :=
  0 ≤ _cursor t ∧
  _currentLine t = 1 + countNewlines (textBefore (_cursor t) t) ∧
  _currentLineBeginOffset t = lineStart (textBefore (_cursor t) t) ∧
  0 ≤ _tokenStartOffset t ∧ 0 ≤ _tokenEndOffset t ∧
  _tokenStartLine t = 1 + countNewlines (textBefore (_tokenStartOffset t) t) ∧
  _tokenStartColumn t =
    _tokenStartOffset t - lineStart (textBefore (_tokenStartOffset t) t) ∧
  _tokenEndLine t = 1 + countNewlines (textBefore (_tokenEndOffset t) t) ∧
  _tokenEndColumn t =
    _tokenEndOffset t - lineStart (textBefore (_tokenEndOffset t) t).

(** The line and column fields of a token are those of its two offsets in
    the text [s], lines counted from 1 and columns from 0. *)
Definition tokenLinesOk (s : string) (token : Token) : Prop :=
  startLine token =
    1 + countNewlines (takeChars (Z.to_nat (startOffset token)) s) ∧
  startColumn token =
    startOffset token - lineStart (takeChars (Z.to_nat (startOffset token)) s) ∧
  endLine token =
    1 + countNewlines (takeChars (Z.to_nat (endOffset token)) s) ∧
  endColumn token =
    endOffset token - lineStart (takeChars (Z.to_nat (endOffset token)) s).

(** Every rule matches at the start of the text it is given, as the
    [^]-anchored expressions of a lexical grammar do. *)
Definition anchored (lexRules : list (RegExp * string)) : Prop :=
  ∀ (index : nat) (regexp : RegExp) (handlerName str matched : string),
    lexRules !! index = Some (regexp, handlerName) →
    regexp str = Some matched →
    String.prefix matched str = true.

(** No rule matches the empty text. *)
Definition matchesAreNonEmpty (lexRules : list (RegExp * string)) : Prop :=
  ∀ (index : nat) (regexp : RegExp) (handlerName str matched : string),
    lexRules !! index = Some (regexp, handlerName) →
    regexp str = Some matched →
    matched ≠ "".

(** Two tokenizers differ at most in [yytext] and [yyleng]. *)
Definition agree (t u : Tokenizer) : Prop :=
  setYytext "" t = setYytext "" u.

(** Two results of [getNextToken] are the same up to [yytext] and [yyleng]
    in the state. *)
Definition agreeOutcome (a b : outcome (Token * Tokenizer)) : Prop :=
  match a, b with
  | Done (token, t), Done (token', u) => token = token' ∧ agree t u
  | Throw e, Throw e' => e = e'
  | OutOfFuel, OutOfFuel => True
  | _, _ => False
  end.

(** The tokens of a result of [getTokens]. *)
Definition tokensOf (o : outcome (list Token * Tokenizer))
  : outcome (list Token) :=
  match o with
  | Done (tokens, _) => Done tokens
  | Throw e => Throw e
  | OutOfFuel => OutOfFuel
  end.


End Runtime.

(** ** A concrete lexical grammar for the tokenizer runtime *)
Module LexScenario.
Import Runtime.

(** The regular expression [/^lit/] for a literal text [lit]. *)
Definition literal (lit : string) : RegExp :=
  λ s, if String.prefix lit s then Some lit else None.

Fixpoint leadingSpaces (s : string) : string :=
  match s with
  | String c rest =>
      if Ascii.eqb c " "%char || Ascii.eqb c "010"%char
      then String c (leadingSpaces rest) else ""
  | EmptyString => ""
  end.

(** The regular expression [/^[ \n]+/]. *)
Definition whitespace : RegExp :=
  λ s, match leadingSpaces s with
       | EmptyString => None
       | matched => Some matched
       end.

Definition tokensMap : gmap string Z :=
  {[ "LBRACE" := 1; "STRING" := 2; "A" := 3; "AB" := 4; EOF := 5 ]}.

(** Rule 1 is tried before rule 2 although rule 2 matches more text. *)
Definition lexRules : list (RegExp * string) :=
  [ (whitespace, "_lexRule1");
    (literal "a", "_lexRule2");
    (literal "ab", "_lexRule3");
    (literal "{s", "_lexRule4") ].

Definition lexRulesByConditions : gmap string (list nat) :=
  {[ "INITIAL" := [0; 1; 2; 3]%nat ]}.

(** The same rules under a second start condition, [comment], which
    lists [/^ab/] before [/^a/]. *)
Definition stateConditions : gmap string (list nat) :=
  {[ "INITIAL" := [0; 1; 2; 3]%nat; "comment" := [0; 2; 1]%nat ]}.

(** [_lexRule1] skips, [_lexRule2] and [_lexRule3] return one name,
    [_lexRule4] returns the array [["LBRACE", "STRING"]] of Scenario D. *)
Definition handlers : gmap string Handler :=
  {[ "_lexRule1" := λ _, ([], ReturnsNothing);
     "_lexRule2" := λ _, ([], ReturnsType "A");
     "_lexRule3" := λ _, ([], ReturnsType "AB");
     "_lexRule4" := λ _, ([], ReturnsTypes ["LBRACE"; "STRING"]) ]}.

(** An instance before its first [initString]. *)
Definition blank : Tokenizer :=
  {| _string := ""; _states := []; _cursor := 0;
     _currentLine := 0; _currentColumn := 0; _currentLineBeginOffset := 0;
     _tokenStartOffset := 0; _tokenEndOffset := 0;
     _tokenStartLine := 0; _tokenEndLine := 0;
     _tokenStartColumn := 0; _tokenEndColumn := 0;
     _tokensQueue := []; yytext := ""; yyleng := 0 |}.

Definition next (fuel : nat) (t : Tokenizer) : outcome (Token * Tokenizer) :=
  getNextToken tokensMap lexRules lexRulesByConditions handlers fuel t.

Definition nextN (n fuel : nat) (t : Tokenizer)
  : outcome (list Token * Tokenizer) :=
  getTokens tokensMap lexRules lexRulesByConditions handlers n fuel t.

(** A lexical grammar whose only rule, [/^/], matches the empty text and
    whose handler skips. *)
Definition emptyRules : list (RegExp * string) := [ (literal "", "_lexRule1") ].

Definition emptyConditions : gmap string (list nat) :=
  {[ "INITIAL" := [0%nat] ]}.

Definition skipHandlers : gmap string Handler :=
  {[ "_lexRule1" := λ _, ([], ReturnsNothing) ]}.

End LexScenario.

(** ** The dictionary primitives of the TypeScript generator trait *)
Module Emit.

(** The JavaScript values the primitives are given.  A number is an
    integer here; the parse table and the token map hold nothing else. *)
Inductive JsValue : Type :=
| JsUndefined
| JsNull
| JsBoolean (b : bool)
| JsNumber (n : Z)
| JsString (s : string)
| JsArray (elements : list JsValue).

(** What a primitive returns: a piece of text, or the number
    [Number(v)], which is kept as the conversion applied to [v] (the
    conversion does not throw on these values). *)
Inductive Rendered : Type :=
| Text (s : string)
| NumberOf (v : JsValue).

Definition isArray (v : JsValue) : bool :=
  match v with
  | JsArray _ => true
  | _ => false
  end.

(** [String(v)], as a template literal and [join] apply it; inside an
    array [null] and [undefined] give the empty text. *)
Fixpoint toString (v : JsValue) : string :=
  match v with
  | JsUndefined => "undefined"
  | JsNull => "null"
  | JsBoolean b => if b then "true" else "false"
  | JsNumber n => pretty n
  | JsString s => s
  | JsArray elements =>
      join ","
        ((fix each (l : list JsValue) : list string :=
            match l with
            | [] => []
            | JsUndefined :: r => "" :: each r
            | JsNull :: r => "" :: each r
            | x :: r => toString x :: each r
            end) elements)
  end.

Definition elementString (v : JsValue) : string :=
  match v with
  | JsUndefined | JsNull => ""
  | _ => toString v
  end.

(** [_dictKey(key, keyType)]. *)
Definition _dictKey (key : JsValue) (keyType : string) : outcome Rendered :=
  if bool_decide (keyType = "string") then
    Done (Text (String "034"%char (toString key) +:+ String "034"%char ""))
  else if bool_decide (keyType = "number") then Done (NumberOf key)
  else Throw (Error ("_dictKey: Incorrect type " +:+ keyType)).

(** [_dictValue(value, valueType)]. *)
Definition _dictValue (value : JsValue) (valueType : string)
  : outcome Rendered :=
  match value with
  | JsArray elements =>
      Done (Text ("new int[] { " +:+
                  join ", " (elementString <$> elements) +:+ " }"))
  | _ =>
      if bool_decide (valueType = "string") then
        Done (Text (String "034"%char (toString value) +:+
                    String "034"%char ""))
      else if bool_decide (valueType = "number") then Done (NumberOf value)
      else Throw (Error ("_dictValue: Incorrect value " +:+ valueType))
  end.

(** *** The dictionary and the handler declarations *)

(** [k.replace(/"/g, '\\"')]: a backslash goes before every double quote. *)
Fixpoint escapeQuotes (k : string) : string :=
  match k with
  | EmptyString => EmptyString
  | String c rest =>
      if Ascii.eqb c "034"%char
      then String "092"%char (String "034"%char (escapeQuotes rest))
      else String c (escapeQuotes rest)
  end.

Section Dictionary.
(** The text a template literal gives for [Number(v)]; the conversion and
    its printing are the language's, not the generator's. *)
Variable numberText : JsValue → string.

(** A rendered piece spliced into a template literal. *)
Definition renderedText (r : Rendered) : string :=
  match r with
  | Text s => s
  | NumberOf v => numberText v
  end.

(** The loop of [_toTypeScriptDictionary] over the properties of [object],
    in the order [for ... in] visits them: the entries pushed onto
    [result]. *)
Fixpoint dictionaryEntries (object : list (string * JsValue))
    (keyType valueType : string) : outcome (list string) :=
  match object with
  | [] => Done []
  | (k, value) :: rest =>
      let key := escapeQuotes k in
      match _dictKey (JsString key) keyType with
      | Done renderedKey =>
          match _dictValue value valueType with
          | Done renderedValue =>
              match dictionaryEntries rest keyType valueType with
              | Done entries =>
                  Done ((renderedText renderedKey +:+ ": " +:+
                         renderedText renderedValue) :: entries)
              | Throw e => Throw e
              | OutOfFuel => OutOfFuel
              end
          | Throw e => Throw e
          | OutOfFuel => OutOfFuel
          end
      | Throw e => Throw e
      | OutOfFuel => OutOfFuel
      end
  end.

(** [_toTypeScriptDictionary(object, keyType, valueType)]. *)
Definition _toTypeScriptDictionary (object : list (string * JsValue))
    (keyType valueType : string) : outcome string :=
  match dictionaryEntries object keyType valueType with
  | Done result => Done ("{ " +:+ join ", " result +:+ " }")
  | Throw e => Throw e
  | OutOfFuel => OutOfFuel
  end.

(** [generateTokensTable()]: the placeholder and the data it hands to
    [writeData], for the token map [this._tokens]. *)
Definition generateTokensTable (_tokens : list (string * JsValue))
  : outcome (string * string) :=
  match _toTypeScriptDictionary _tokens "string" "number" with
  | Done data => Done ("TOKENS", data)
  | Throw e => Throw e
  | OutOfFuel => OutOfFuel
  end.

End Dictionary.

(** An entry of [this._lexHandlers] and [this._productionHandlers]. *)
Record HandlerEntry : Type := { args : string; action : string }.

(** [_generateHandlers(handlers, name, returnType)]. *)
Definition _generateHandlers (handlers : list HandlerEntry)
    (name returnType : string) : list string :=
  imap (λ index handler,
          returnType +:+ " " +:+ name +:+ pretty (S index) +:+
          "(" +:+ args handler +:+ ") {" +:+ String "010"%char "" +:+
          action handler +:+ String "010"%char "}")
       handlers.

(** [buildSemanticAction(production)], given what the base generator's
    [getSemanticActionCode] and [getSemanticActionParams] return for the
    production: the handler name it returns ([None] for [null]) and the
    list [this._productionHandlers] it leaves. *)
Definition buildSemanticAction (code : option string) (params : list string)
    (_productionHandlers : list HandlerEntry)
  : option string * list HandlerEntry :=
  match code with
  | None => (None, _productionHandlers)
  | Some code =>
      if bool_decide (code = "") then (None, _productionHandlers)
      else
        let action := code +:+ ";" in
        let args := join "," params in
        let handlers :=
          _productionHandlers ++ [ {| args := args; action := action |} ] in
        (Some ("_handler" +:+ pretty (length handlers)), handlers)
  end.

(** A lexical rule as [generateLexRules] reads it. *)
Record LexRule : Type := {
  getRawMatcher : string;
  getRawHandler : string;
  isCaseInsensitive : bool
}.

(** The text [generateLexRules] returns for a rule whose handler is the
    [n]-th of [this._lexHandlers]. *)
Definition lexRuleText (lexRule : LexRule) (n : nat) : string :=
  let flags := if isCaseInsensitive lexRule then ["i"] else [] in
  "[/" +:+ getRawMatcher lexRule +:+ "/" +:+ join "" flags +:+ ", " +:+
  String "034"%char "_lexRule" +:+ pretty n +:+ String "034"%char "]".

(** The [map] of [generateLexRules]: the texts of the rules and the list
    [this._lexHandlers] it leaves. *)
Fixpoint lexRuleTexts (rules : list LexRule) (_lexHandlers : list HandlerEntry)
  : list string * list HandlerEntry :=
  match rules with
  | [] => ([], _lexHandlers)
  | lexRule :: rest =>
      let action := getRawHandler lexRule +:+ ";" in
      let handlers := _lexHandlers ++ [ {| args := ""; action := action |} ] in
      let text := lexRuleText lexRule (length handlers) in
      let '(texts, final) := lexRuleTexts rest handlers in
      (text :: texts, final)
  end.

(** [generateLexRules()]: what it hands to [writeData], and
    [this._lexHandlers] afterwards. *)
Definition generateLexRules (rules : list LexRule)
    (_lexHandlers : list HandlerEntry)
  : (string * string) * list HandlerEntry :=
  let '(lexRules, final) := lexRuleTexts rules _lexHandlers in
  (("LEX_RULES",
    "[ " +:+ join ("," +:+ String "010"%char "") lexRules +:+ " ]"),
   final).

(** [generateLexHandlers()] and [generateProductionHandlers()]: what they
    hand to [writeData]. *)
Definition generateLexHandlers (_lexHandlers : list HandlerEntry)
  : string * string :=
  ("LEX_RULE_HANDLERS",
   join (String "010"%char (String "010"%char ""))
        (_generateHandlers _lexHandlers "_lexRule" "")).

Definition generateProductionHandlers (_productionHandlers : list HandlerEntry)
  : string * string :=
  ("PRODUCTION_HANDLERS",
   join (String "010"%char (String "010"%char ""))
        (_generateHandlers _productionHandlers "_handler" "")).

(** Whether a character occurs in a text. *)
Fixpoint occurs (c : ascii) (s : string) : bool :=
  match s with
  | EmptyString => false
  | String c' rest => Ascii.eqb c' c || occurs c rest
  end.

(** Whether the text [s], put between double quotes, ends the string
    literal before its closing quote or runs over it.  The text is read
    from the left as a literal is, a backslash taking the character after
    it: the literal breaks at a double quote no backslash has taken, and
    at a backslash that comes last and so takes the closing quote. *)
Fixpoint breaksLiteral (s : string) : bool :=
  match s with
  | EmptyString => false
  | String c rest =>
      if Ascii.eqb c "092"%char then
        match rest with
        | EmptyString => true
        | String _ rest' => breaksLiteral rest'
        end
      else if Ascii.eqb c "034"%char then true
      else breaksLiteral rest
  end.

(** The text a double-quoted literal with the body [s] stands for, when
    its only escapes are the backslash before a double quote and the
    backslash before a backslash; [None] when the literal breaks or has
    another escape. *)
Fixpoint literalText (s : string) : option string :=
  match s with
  | EmptyString => Some EmptyString
  | String c rest =>
      if Ascii.eqb c "092"%char then
        match rest with
        | String c' rest' =>
            if Ascii.eqb c' "034"%char || Ascii.eqb c' "092"%char
            then String c' <$> literalText rest'
            else None
        | EmptyString => None
        end
      else if Ascii.eqb c "034"%char then None
      else String c <$> literalText rest
  end.

(** The number text used in the examples: right for the integers a token
    map holds. *)
Definition integerText (v : JsValue) : string :=
  match v with
  | JsNumber n => pretty n
  | _ => "NaN"
  end.

End Emit.

(** ** Properties of the array operations *)
Module ArrayFacts.

Lemma pop_app {A : Type} (l : list A) (x : A) : pop (l ++ [x]) = Some (l, x).
Proof.
  induction l as [|y l IH]; simpl; [reflexivity|].
  rewrite IH. reflexivity.
Qed.

Lemma pop_None {A : Type} (l : list A) : pop l = None ↔ l = [].
Proof.
  destruct l as [|x r]; simpl; [tauto|].
  destruct (pop r) as [[r' y]|]; split; congruence.
Qed.

Lemma pop_Some {A : Type} (l r : list A) (x : A) :
  pop l = Some (r, x) ↔ l = r ++ [x].
Proof.
  split.
  - revert r. induction l as [|y l IH]; simpl; intros r H; [discriminate|].
    destruct (pop l) as [[r' z]|] eqn:E.
    + inversion H; subst. rewrite (IH r' eq_refl). reflexivity.
    + inversion H; subst. apply pop_None in E. subst l. reflexivity.
  - intros ->. apply pop_app.
Qed.

Lemma pop_length {A : Type} (l r : list A) (x : A) :
  pop l = Some (r, x) → length l = S (length r).
Proof.
  intros H. apply pop_Some in H. subst l.
  rewrite length_app. simpl. lia.
Qed.

End ArrayFacts.

(** ** Properties of the LL(1) parser *)
Module LLFacts.
Import LL ArrayFacts.

Section Facts.
Context `{G : Grammar} {T : Type} `{Tk : !Tokenizer T}.
Variable table : gmap string (gmap string Z).

Implicit Types (p : LLParser T) (token : Token) (top : GrammarSymbol).

Lemma getDerivedRHS_absent top token row p :
  table !! getSymbol top = Some row →
  row !! type token = None →
  _getDerivedRHS table (Some top) token p = _unexpectedToken token p.
Proof. intros Hrow Hcell. unfold _getDerivedRHS. rewrite Hrow, Hcell. reflexivity. Qed.

Lemma getDerivedRHS_zero top token row p :
  table !! getSymbol top = Some row →
  row !! type token = Some 0 →
  _getDerivedRHS table (Some top) token p = _unexpectedToken token p.
Proof. intros Hrow Hcell. unfold _getDerivedRHS. rewrite Hrow, Hcell. reflexivity. Qed.

Lemma getDerivedRHS_present top token row n p :
  table !! getSymbol top = Some row →
  row !! type token = Some n →
  n ≠ 0 →
  _getDerivedRHS table (Some top) token p =
    match getProduction n with
    | Some production =>
        Done (rev (getRHS production), derived n [] p)
    | None => Throw TypeError
    end.
Proof.
  intros Hrow Hcell Hn. unfold _getDerivedRHS. rewrite Hrow, Hcell.
  simpl. rewrite bool_decide_eq_false_2 by exact Hn.
  unfold bind, recordProduction, bind, get, put, setProductionNumbers, derived.
  simpl. rewrite app_nil_r.
  destruct (getProduction n); reflexivity.
Qed.

Lemma unexpectedToken_throws {A : Type} token p :
  @_unexpectedToken T A token p =
    Throw (Error (if bool_decide (value token = EOF)
                  then "Parse error: Unexpected end of input."
                  else "Parse error: Unexpected token: " +:+ value token +:+ ".")).
Proof.
  unfold _unexpectedToken. destruct (bool_decide (value token = EOF)); reflexivity.
Qed.

(** Every successful lookup records a production number other than 0 and
    leaves the stack alone. *)
Lemma getDerivedRHS_Done otop token p rhs p' :
  _getDerivedRHS table otop token p = Done (rhs, p') →
  ∃ top row n production,
    otop = Some top ∧ table !! getSymbol top = Some row ∧
    row !! type token = Some n ∧ n ≠ 0 ∧
    getProduction n = Some production ∧
    rhs = rev (getRHS production) ∧ p' = derived n [] p.
Proof.
  intros H. destruct otop as [top|]; [|discriminate].
  destruct (table !! getSymbol top) as [row|] eqn:Hrow;
    [|unfold _getDerivedRHS in H; rewrite Hrow in H; discriminate].
  destruct (row !! type token) as [n|] eqn:Hcell.
  - destruct (decide (n = 0)) as [->|Hn].
    + rewrite (getDerivedRHS_zero _ _ _ _ Hrow Hcell), unexpectedToken_throws in H.
      discriminate.
    + rewrite (getDerivedRHS_present _ _ _ _ _ Hrow Hcell Hn) in H.
      destruct (getProduction n) as [production|] eqn:Hprod; [|discriminate].
      inversion H; subst. exists top, row, n, production. auto 10.
  - rewrite (getDerivedRHS_absent _ _ _ _ Hrow Hcell), unexpectedToken_throws in H.
    discriminate.
Qed.

Lemma doDerivation_Done otop token p u p' :
  _doDerivation table otop token p = Done (u, p') →
  ∃ n production,
    n ≠ 0 ∧ getProduction n = Some production ∧
    (p' = derived n [] p ∨ p' = derived n (rev (getRHS production)) p).
Proof.
  unfold _doDerivation, bind. intros H.
  destruct (_getDerivedRHS table otop token p) as [[rhs q]| |] eqn:E;
    try discriminate.
  apply getDerivedRHS_Done in E
    as (top & row & n & production & -> & _ & _ & Hn & Hprod & -> & ->).
  exists n, production. split; [exact Hn|]. split; [exact Hprod|].
  destruct (rev (getRHS production)) as [|first rest]; [discriminate|].
  destruct (isEpsilon first); simpl in H.
  - inversion H. left. reflexivity.
  - unfold stackPush, bind, get, put, setStack in H. simpl in H.
    inversion H. right. unfold derived. simpl. rewrite app_nil_r. reflexivity.
Qed.

Lemma doDerivation_push top token row n production body final p :
  table !! getSymbol top = Some row →
  row !! type token = Some n →
  n ≠ 0 →
  getProduction n = Some production →
  getRHS production = body ++ [final] →
  _doDerivation table (Some top) token p =
    Done (tt, derived n (if isEpsilon final then []
                         else rev (getRHS production)) p).
Proof.
  intros Hrow Hcell Hn Hprod Hrhs. unfold _doDerivation, bind.
  rewrite (getDerivedRHS_present _ _ _ _ _ Hrow Hcell Hn), Hprod, Hrhs.
  rewrite rev_unit.
  destruct (isEpsilon final); simpl; [reflexivity|].
  unfold stackPush, bind, get, put, setStack, derived. simpl.
  rewrite app_nil_r. reflexivity.
Qed.

(** C3, as amended. A derivation step at a non-terminal (row [row], cell
    [n]) records the production number [n] at the end of the trace.  When
    the right-hand side does not end in the epsilon marker, its [k] symbols go
    on the stack reversed, so that the stack grows by exactly [k], the
    symbol at index [i] of the right-hand side lies [i] places under the
    top, and the first symbol is the new top.  The epsilon right-hand
    side (the single epsilon marker) pushes nothing. *)
Theorem doDerivation_pushes_reversed_rhs top token row n production p :
  table !! getSymbol top = Some row →
  row !! type token = Some n →
  n ≠ 0 →
  getProduction n = Some production →
  (∀ body final,
      getRHS production = body ++ [final] →
      isEpsilon final = false →
      ∃ p',
        _doDerivation table (Some top) token p = Done (tt, p') ∧
        _productionNumbers p' = _productionNumbers p ++ [n] ∧
        _stack p' = _stack p ++ rev (getRHS production) ∧
        length (_stack p') =
          (length (_stack p) + length (getRHS production))%nat ∧
        (∀ i s, getRHS production !! i = Some s →
                rev (_stack p') !! i = Some s) ∧
        (snd <$> pop (_stack p')) = head (getRHS production)) ∧
  (getRHS production = [ {| getSymbol := EPSILON |} ] →
      ∃ p',
        _doDerivation table (Some top) token p = Done (tt, p') ∧
        _productionNumbers p' = _productionNumbers p ++ [n] ∧
        _stack p' = _stack p).
Proof.
  intros Hrow Hcell Hn Hprod. split.
  - intros body final Hrhs Heps.
    pose proof (doDerivation_push _ _ _ _ _ _ _ p Hrow Hcell Hn Hprod Hrhs) as H.
    rewrite Heps in H. eexists. split; [exact H|]. simpl.
    split; [reflexivity|]. split; [reflexivity|].
    split; [rewrite length_app, length_rev; reflexivity|].
    split.
    + intros i s Hi. rewrite rev_app_distr, rev_involutive.
      apply lookup_app_l_Some. exact Hi.
    + destruct (getRHS production) as [|first rest] eqn:E.
      { destruct body; discriminate. }
      simpl. rewrite app_assoc, pop_app. reflexivity.
  - intros Hrhs.
    pose proof (doDerivation_push _ _ _ _ _ [] _ p Hrow Hcell Hn Hprod Hrhs) as H.
    change (isEpsilon {| getSymbol := EPSILON |}) with true in H.
    eexists. split; [exact H|]. simpl. rewrite app_nil_r. auto.
Qed.

(** *** The loops of [parse] *)

Lemma mainLoop_Done fuel token p token' p' :
  mainLoop table fuel token p = Done (token', p') →
  loopCondition p' = false.
Proof.
  revert token p. induction fuel as [|fuel IH]; intros token p H.
  - discriminate.
  - simpl in H. unfold bind in H.
    destruct (loopBody table token p) as [[tok q]| |]; try discriminate.
    unfold get in H.
    destruct (loopCondition q) eqn:Hc.
    + exact (IH _ _ H).
    + inversion H; subst. exact Hc.
Qed.

Lemma cleanupLoop_unfold fuel token p :
  cleanupLoop table fuel token p =
    if bool_decide (length (_stack p) ≠ 1%nat) then
      match fuel with
      | O => OutOfFuel
      | S fuel' =>
          match stackPop p with
          | Done (top, q) =>
              match _doDerivation table top token q with
              | Done (_, q') => cleanupLoop table fuel' token q'
              | Throw e => Throw e
              | OutOfFuel => OutOfFuel
              end
          | Throw e => Throw e
          | OutOfFuel => OutOfFuel
          end
      end
    else Done (tt, p).
Proof.
  destruct fuel; simpl; unfold bind, get, ret, timeout;
    destruct (bool_decide (length (_stack p) ≠ 1%nat)); reflexivity.
Qed.

Lemma cleanupLoop_Done fuel token p u p' :
  cleanupLoop table fuel token p = Done (u, p') →
  length (_stack p') = 1%nat.
Proof.
  revert p. induction fuel as [|fuel IH]; intros p;
    rewrite cleanupLoop_unfold; case_bool_decide as Hlen.
  - discriminate.
  - intros H. inversion H; subst. lia.
  - destruct (stackPop p) as [[top q]| |]; try discriminate.
    destruct (_doDerivation table top token q) as [[[] q']| |];
      try discriminate.
    apply IH.
  - intros H. inversion H; subst. lia.
Qed.

(** Once the [do ... while] loop is left, the trailing [while] loop either
    has nothing to do or pops an empty stack and throws: it never
    completes a pass. *)
Lemma cleanupLoop_after_mainLoop fuel fuel' token p token' p' :
  mainLoop table fuel token p = Done (token', p') →
  cleanupLoop table (S fuel') token' p' =
    if bool_decide (_stack p' = []) then Throw TypeError else Done (tt, p').
Proof.
  intros H. apply mainLoop_Done in H. unfold loopCondition in H.
  apply orb_false_iff in H as [_ H]. apply bool_decide_eq_false in H.
  rewrite cleanupLoop_unfold.
  destruct (_stack p') as [|s [|s' rest]] eqn:E; simpl in *.
  - unfold stackPop, bind, get. rewrite E. reflexivity.
  - reflexivity.
  - lia.
Qed.

Lemma parseFinish_spec token p :
  length (_stack p) = 1%nat →
  parseFinish token p =
    if bool_decide (_stack p = [ {| getSymbol := EOF |} ] ∧ value token = EOF)
    then Done (accept, p)
    else Throw (Error (stackNotEmpty token p)).
Proof.
  intros Hlen. unfold parseFinish, bind, get.
  destruct (_stack p) as [|[s] [|? ?]] eqn:E; try discriminate. simpl.
  unfold isEOF. simpl.
  destruct (decide (s = EOF)) as [->|Hs].
  - rewrite (bool_decide_eq_true_2 (EOF = EOF)) by reflexivity. simpl.
    destruct (decide (value token = EOF)) as [Hv|Hv].
    + rewrite !bool_decide_eq_true_2; [reflexivity|auto|exact Hv].
    + rewrite !bool_decide_eq_false_2; [|tauto|exact Hv].
      unfold _parseError, throw, stackNotEmpty. rewrite E. reflexivity.
  - rewrite (bool_decide_eq_false_2 (s = EOF)) by exact Hs. simpl.
    rewrite bool_decide_eq_false_2.
    + unfold _parseError, throw, stackNotEmpty. rewrite E. reflexivity.
    + intros [H _]. inversion H. contradiction.
Qed.

Lemma parseLoops_Done fuel string p token p' :
  parseLoops table fuel string p = Done (token, p') →
  length (_stack p') = 1%nat.
Proof.
  unfold parseLoops, bind. intros H.
  destruct (parseInit string p) as [[tok0 q0]| |]; try discriminate.
  destruct (mainLoop table fuel tok0 q0) as [[tok1 q1]| |]; try discriminate.
  destruct (cleanupLoop table fuel tok1 q1) as [[[] q2]| |] eqn:E;
    try discriminate.
  inversion H; subst. exact (cleanupLoop_Done _ _ _ _ _ E).
Qed.

(** C1. Whatever state the parser instance was left in, [parse] enters its
    loops with the stack [[EOF; StartSymbol]] (EOF at index 0, the bottom),
    an empty derivation trace and the first token of the input.  It
    returns the accept result exactly when both loops finish leaving the
    stack equal to [[EOF]] and a current token whose value is the EOF
    marker; when they finish otherwise it throws the parse error listing
    the symbols left on the stack and the value of the current token. *)
Theorem parse_accept_iff fuel string p :
  (∀ token t',
      getNextToken (initString string (_tokenizer p)) = Done (token, t') →
      parseInit string p =
        Done (token, {| _stack := [ {| getSymbol := EOF |};
                                    {| getSymbol := getStartSymbol |} ];
                        _productionNumbers := [];
                        _tokenizer := t' |})) ∧
  (∀ r p',
      parse table fuel string p = Done (r, p') ↔
      r = accept ∧
      ∃ token,
        parseLoops table fuel string p = Done (token, p') ∧
        _stack p' = [ {| getSymbol := EOF |} ] ∧
        value token = EOF) ∧
  (∀ token p',
      parseLoops table fuel string p = Done (token, p') →
      ¬ (_stack p' = [ {| getSymbol := EOF |} ] ∧ value token = EOF) →
      parse table fuel string p =
        Throw (Error ("Parse error: stack is not empty: " +:+
                      join "," (getSymbol <$> _stack p') +:+
                      ", " +:+ value token))).
Proof.
  split; [|split].
  - intros token t' H. unfold parseInit, bind, get, put, nextToken. simpl.
    rewrite H. reflexivity.
  - intros r p'. unfold parse, bind.
    destruct (parseLoops table fuel string p) as [[token q]| |] eqn:E.
    + rewrite (parseFinish_spec _ _ (parseLoops_Done _ _ _ _ _ E)).
      case_bool_decide as Hc; split.
      * intros H. inversion H; subst. split; [reflexivity|].
        exists token. tauto.
      * intros [-> (token' & H & _)]. inversion H; subst. reflexivity.
      * discriminate.
      * intros [_ (token' & H & Hs)]. inversion H; subst. tauto.
    + split; [discriminate|]. intros [_ (? & ? & _)]. discriminate.
    + split; [discriminate|]. intros [_ (? & ? & _)]. discriminate.
  - intros token p' E Hc. unfold parse, bind. rewrite E.
    rewrite (parseFinish_spec _ _ (parseLoops_Done _ _ _ _ _ E)).
    rewrite bool_decide_eq_false_2 by exact Hc. reflexivity.
Qed.

(** *** Fuel only bounds the loops: a run that ends keeps its result *)

Lemma mainLoop_fuel_mono fuel fuel' token p :
  (fuel ≤ fuel')%nat →
  mainLoop table fuel token p ≠ OutOfFuel →
  mainLoop table fuel' token p = mainLoop table fuel token p.
Proof.
  revert fuel' token p. induction fuel as [|fuel IH]; intros fuel' token p Hle H.
  - contradiction H. reflexivity.
  - destruct fuel' as [|fuel']; [lia|]. simpl in *. unfold bind, get in *.
    destruct (loopBody table token p) as [[tok q]| |]; try reflexivity.
    destruct (loopCondition q); [|reflexivity].
    apply IH; [lia|exact H].
Qed.

Lemma cleanupLoop_fuel_mono fuel fuel' token p :
  (fuel ≤ fuel')%nat →
  cleanupLoop table fuel token p ≠ OutOfFuel →
  cleanupLoop table fuel' token p = cleanupLoop table fuel token p.
Proof.
  revert fuel' p. induction fuel as [|fuel IH]; intros fuel' p Hle H.
  - rewrite cleanupLoop_unfold in H.
    rewrite (cleanupLoop_unfold fuel'), (cleanupLoop_unfold 0).
    destruct (bool_decide (length (_stack p) ≠ 1%nat)); [|reflexivity].
    contradiction H. reflexivity.
  - destruct fuel' as [|fuel']; [lia|].
    rewrite (cleanupLoop_unfold (S fuel)) in H.
    rewrite (cleanupLoop_unfold (S fuel')), (cleanupLoop_unfold (S fuel)).
    destruct (bool_decide (length (_stack p) ≠ 1%nat)); [|reflexivity].
    destruct (stackPop p) as [[top q]| |]; try reflexivity.
    destruct (_doDerivation table top token q) as [[[] q']| |];
      try reflexivity.
    apply IH; [lia|exact H].
Qed.

Theorem parse_fuel_mono fuel fuel' string p :
  (fuel ≤ fuel')%nat →
  parse table fuel string p ≠ OutOfFuel →
  parse table fuel' string p = parse table fuel string p.
Proof.
  intros Hle. unfold parse, parseLoops, bind.
  destruct (parseInit string p) as [[tok0 q0]| |]; try reflexivity.
  intros H.
  destruct (mainLoop table fuel tok0 q0) as [[tok1 q1]| |] eqn:E1.
  - rewrite (mainLoop_fuel_mono fuel fuel') by (congruence || exact Hle).
    rewrite E1.
    destruct (cleanupLoop table fuel tok1 q1) as [[[] q2]| |] eqn:E2.
    + rewrite (cleanupLoop_fuel_mono fuel fuel') by (congruence || exact Hle).
      rewrite E2. reflexivity.
    + rewrite (cleanupLoop_fuel_mono fuel fuel') by (congruence || exact Hle).
      rewrite E2. reflexivity.
    + contradiction H. reflexivity.
  - rewrite (mainLoop_fuel_mono fuel fuel') by (congruence || exact Hle).
    rewrite E1. reflexivity.
  - contradiction H. reflexivity.
Qed.

(** *** The trace never holds production number 0 *)

Lemma traceGrows_refl p p' :
  _productionNumbers p' = _productionNumbers p → traceGrows p p'.
Proof. intros H. exists []. rewrite app_nil_r. split; [exact H|constructor]. Qed.

Lemma traceGrows_trans p q r :
  traceGrows p q → traceGrows q r → traceGrows p r.
Proof.
  intros (l1 & H1 & F1) (l2 & H2 & F2). exists (l1 ++ l2).
  rewrite H2, H1, app_assoc. split; [reflexivity|].
  apply Forall_app. split; assumption.
Qed.

Lemma stackPop_Done p (otop : option GrammarSymbol) q :
  stackPop p = Done (otop, q) →
  _productionNumbers q = _productionNumbers p ∧ _tokenizer q = _tokenizer p ∧
  match otop with
  | Some s => _stack p = _stack q ++ [s]
  | None => _stack p = [] ∧ q = p
  end.
Proof.
  unfold stackPop, bind, get, put, ret, setStack.
  destruct (pop (_stack p)) as [[rest s]|] eqn:E; intros H; inversion H; subst.
  - simpl. apply pop_Some in E. auto.
  - apply pop_None in E. auto.
Qed.

Lemma doDerivation_traceGrows otop token p u p' :
  _doDerivation table otop token p = Done (u, p') → traceGrows p p'.
Proof.
  intros H. apply doDerivation_Done in H as (n & production & Hn & _ & [-> | ->]);
    exists [n]; (split; [reflexivity|]); repeat constructor; exact Hn.
Qed.

Lemma nextToken_Done p token q :
  nextToken p = Done (token, q) →
  _stack q = _stack p ∧ _productionNumbers q = _productionNumbers p.
Proof.
  unfold nextToken. destruct (getNextToken (_tokenizer p)) as [[tok t']| |];
    intros H; inversion H; subst. auto.
Qed.

Lemma loopBody_traceGrows token p token' p' :
  loopBody table token p = Done (token', p') → traceGrows p p'.
Proof.
  unfold loopBody, bind. intros H.
  destruct (stackPop p) as [[top q]| |] eqn:E; try discriminate.
  apply stackPop_Done in E as (En & _ & _).
  destruct top as [s|]; [|discriminate].
  destruct (isTokenSymbol s && bool_decide (getSymbol s = type token)).
  - apply nextToken_Done in H as [_ H]. apply traceGrows_refl. congruence.
  - destruct (_doDerivation table (Some s) token q) as [[[] q']| |] eqn:E';
      try discriminate.
    inversion H; subst. apply doDerivation_traceGrows in E'.
    eapply traceGrows_trans; [apply traceGrows_refl; exact En|exact E'].
Qed.

Lemma mainLoop_traceGrows fuel token p token' p' :
  mainLoop table fuel token p = Done (token', p') → traceGrows p p'.
Proof.
  revert token p. induction fuel as [|fuel IH]; intros token p H;
    [discriminate|].
  simpl in H. unfold bind, get in H.
  destruct (loopBody table token p) as [[tok q]| |] eqn:E; try discriminate.
  apply loopBody_traceGrows in E.
  destruct (loopCondition q).
  - eapply traceGrows_trans; [exact E|exact (IH _ _ H)].
  - inversion H; subst. exact E.
Qed.

Lemma cleanupLoop_traceGrows fuel token p u p' :
  cleanupLoop table fuel token p = Done (u, p') → traceGrows p p'.
Proof.
  revert p. induction fuel as [|fuel IH]; intros p;
    rewrite cleanupLoop_unfold; case_bool_decide as Hlen.
  - discriminate.
  - intros H. inversion H; subst. apply traceGrows_refl. reflexivity.
  - destruct (stackPop p) as [[top q]| |] eqn:E; try discriminate.
    apply stackPop_Done in E as (En & _ & _).
    destruct (_doDerivation table top token q) as [[[] q']| |] eqn:E';
      try discriminate.
    apply doDerivation_traceGrows in E'. intros H.
    eapply traceGrows_trans; [apply traceGrows_refl; exact En|].
    eapply traceGrows_trans; [exact E'|exact (IH _ H)].
  - intros H. inversion H; subst. apply traceGrows_refl. reflexivity.
Qed.

(** Production number 0 is in the trace of no accepted input. *)
Theorem parse_trace_nonzero fuel string p r p' :
  parse table fuel string p = Done (r, p') →
  Forall (λ n, n ≠ 0) (_productionNumbers p').
Proof.
  unfold parse, parseLoops, parseInit, bind, get, put. intros H.
  match type of H with
  | context [nextToken ?q0] =>
      destruct (nextToken q0) as [[tok0 q1]| |] eqn:E0; try discriminate
  end.
  apply nextToken_Done in E0 as [_ E0]. simpl in E0.
  destruct (mainLoop table fuel tok0 q1) as [[tok1 q2]| |] eqn:E1;
    try discriminate.
  destruct (cleanupLoop table fuel tok1 q2) as [[[] q3]| |] eqn:E2;
    try discriminate.
  unfold ret in H.
  assert (p' = q3) as ->.
  { unfold parseFinish, bind, get in H.
    destruct (_stack q3 !! 0%nat); [|discriminate].
    destruct (_ || _); [discriminate|]. inversion H. reflexivity. }
  apply mainLoop_traceGrows in E1. apply cleanupLoop_traceGrows in E2.
  destruct (traceGrows_trans _ _ _ E1 E2) as (l & Hl & F).
  rewrite Hl, E0. exact F.
Qed.

End Facts.

(** *** Runs on the concrete grammars *)
Import Scenario.

(** Scenario A: ["aabb"] is accepted with the trace 1, 1, 2. *)
Example scenario_A :
  parse (G:=anbn) anbnTable 8 "aabb" fresh =
    Done (accept, {| _stack := [sym EOF];
                     _productionNumbers := [1; 1; 2];
                     _tokenizer := {| _string := "aabb"; _cursor := 5 |} |}).
Proof. vm_compute. reflexivity. Qed.

(** Scenario B: ["ac"] fails with the unexpected-token error for ["c"]. *)
Example scenario_B :
  parse (G:=anbn) anbnTable 8 "ac" fresh =
    Throw (Error "Parse error: Unexpected token: c.").
Proof. vm_compute. reflexivity. Qed.

Lemma looping_init (p : LLParser CharTokenizer) :
  parseInit (G:=looping) "" p = Done (EOF_TOKEN, loopingState []).
Proof. reflexivity. Qed.

Lemma looping_body numbers :
  loopBody (G:=looping) loopingTable EOF_TOKEN (loopingState numbers) =
    Done (EOF_TOKEN, loopingState (numbers ++ [1])).
Proof.
  unfold loopBody, bind, stackPop, bind, get, put, ret. simpl.
  rewrite (doDerivation_push (G:=looping) loopingTable (sym "S") EOF_TOKEN
             {[ EOF := 1 ]} 1 {| getRHS := [sym "S"] |} [] (sym "S"));
    try reflexivity; try discriminate.
Qed.

Lemma looping_mainLoop fuel numbers :
  mainLoop (G:=looping) loopingTable fuel EOF_TOKEN (loopingState numbers) =
    OutOfFuel.
Proof.
  revert numbers. induction fuel as [|fuel IH]; intros numbers; [reflexivity|].
  simpl. unfold bind at 1. rewrite looping_body.
  unfold bind, get. simpl. apply IH.
Qed.

(** C4. There are a grammar and a parsing table on which [parse] does not
    terminate: for the production [S -> S] selected at end of input, [parse]
    of the empty text exhausts every amount of fuel.  The input is at its
    end from the first pass on (the current token is EOF and the tokenizer
    has no more tokens), every pass finds its table cell and leaves the
    stack at two entries, and the loop condition stays true. *)
Theorem parse_diverges_at_end_of_input :
  ∃ (G : Grammar) (table : gmap string (gmap string Z)) (string : string),
    (∀ fuel (p : LLParser CharTokenizer),
        parse table fuel string p = OutOfFuel) ∧
    (∀ p : LLParser CharTokenizer,
        parseInit string p = Done (EOF_TOKEN, loopingState [])) ∧
    (∀ numbers,
        hasMoreTokens (_tokenizer (loopingState numbers)) = false ∧
        loopBody table EOF_TOKEN (loopingState numbers) =
          Done (EOF_TOKEN, loopingState (numbers ++ [1])) ∧
        _stack (loopingState (numbers ++ [1])) = _stack (loopingState numbers) ∧
        loopCondition (loopingState (numbers ++ [1])) = true).
Proof.
  exists looping, loopingTable, "". split; [|split].
  - intros fuel p. unfold parse, parseLoops. unfold bind at 1 2 3.
    rewrite looping_init, looping_mainLoop. reflexivity.
  - apply looping_init.
  - intros numbers. split; [reflexivity|]. split; [apply looping_body|].
    split; reflexivity.
Qed.

Example leftover_run :
  parse (G:=leftover) leftoverTable 8 "aa" fresh =
    Throw (Error "Parse error: stack is not empty: a, $").
Proof. vm_compute. reflexivity. Qed.

Lemma parse_accept_iff_witness :
  parse (G:=anbn) anbnTable 8 "aabb" fresh =
    Done (accept, {| _stack := [sym EOF];
                     _productionNumbers := [1; 1; 2];
                     _tokenizer := {| _string := "aabb"; _cursor := 5 |} |}) ∧
  parse (G:=leftover) leftoverTable 8 "aa" fresh =
    Throw (Error "Parse error: stack is not empty: a, $").
Proof.
  split.
  - apply (proj1 (proj2 (parse_accept_iff (G:=anbn) anbnTable 8 "aabb" fresh))).
    split; [reflexivity|]. exists EOF_TOKEN.
    split; [vm_compute; reflexivity|]. split; reflexivity.
  - apply (proj2 (proj2 (parse_accept_iff (G:=leftover) leftoverTable 8 "aa" fresh))
             EOF_TOKEN
             {| _stack := [sym "a"];
                _productionNumbers := [1; 2];
                _tokenizer := {| _string := "aa"; _cursor := 3 |} |}).
    + vm_compute. reflexivity.
    + simpl. intros [H _]. discriminate H.
Defined.

Lemma doDerivation_pushes_reversed_rhs_witness :
  anbnTable !! "S" = Some {[ "a" := 1; "b" := 2; EOF := 2 ]} ∧
  ({[ "a" := 1; "b" := 2; EOF := 2 ]} : gmap string Z) !! "a" = Some 1 ∧
  (1 ≠ 0) ∧
  getProduction (Grammar:=anbn) 1 =
    Some {| getRHS := [sym "a"; sym "S"; sym "b"] |} ∧
  ∃ p',
    _doDerivation (G:=anbn) anbnTable (Some (sym "S")) (charToken "a") fresh =
      Done (tt, p') ∧
    _productionNumbers p' = [1] ∧
    _stack p' = [sym "b"; sym "S"; sym "a"].
Proof.
  split; [reflexivity|]. split; [reflexivity|]. split; [discriminate|].
  split; [reflexivity|].
  destruct (doDerivation_pushes_reversed_rhs (G:=anbn) anbnTable
              (sym "S") (charToken "a") {[ "a" := 1; "b" := 2; EOF := 2 ]} 1
              {| getRHS := [sym "a"; sym "S"; sym "b"] |} fresh
              eq_refl eq_refl ltac:(discriminate) eq_refl) as [Hpush _].
  destruct (Hpush [sym "a"; sym "S"] (sym "b") eq_refl eq_refl)
    as (p' & Hrun & Htrace & Hstack & _).
  exists p'. split; [exact Hrun|]. split; [exact Htrace|exact Hstack].
Defined.

(** A missing cell under the EOF token. *)
Example unexpected_end_of_input :
  _getDerivedRHS (G:=anbn) zeroTable (Some (sym "S")) EOF_TOKEN fresh =
    Throw (Error "Parse error: Unexpected end of input.").
Proof. reflexivity. Qed.

(** The right-hand side of [S -> a epsilon] has length 2, and its
    derivation step records the production and pushes nothing: the test
    on [derivedRHS[0]] looks at the last symbol of the right-hand side. *)
Lemma trailing_epsilon_pushes_nothing :
  getProduction (Grammar:=trailing) 1 =
    Some {| getRHS := [sym "a"; sym EPSILON] |} ∧
  length [sym "a"; sym EPSILON] = 2%nat ∧
  _doDerivation (G:=trailing) trailingTable (Some (sym "S")) (charToken "a")
                {| _stack := [sym EOF]; _productionNumbers := [];
                   _tokenizer := _tokenizer fresh |} =
    Done (tt, {| _stack := [sym EOF]; _productionNumbers := [1];
                 _tokenizer := _tokenizer fresh |}).
Proof. split; [reflexivity|]. split; reflexivity. Qed.

(** A right-hand side that is an array without symbols is not the epsilon
    right-hand side of the code: its derivation step throws. *)
Example empty_array_throws :
  _doDerivation (G:=hollow) trailingTable (Some (sym "S")) (charToken "a")
                fresh = Throw TypeError.
Proof. reflexivity. Qed.

End LLFacts.

(** ** Properties of the table lookup over plain objects *)
Module ObjectsFacts.
Import LL Objects.

Lemma truthy_false_iff v :
  truthy v = false ↔
  v ∈ [VUndefined; VNull; VBoolean false; VNumber 0; VNaN; VBigInt 0;
       VString ""].
Proof.
  split.
  - destruct v as [| |[]|n| |n|s|name]; simpl; intros H; try discriminate;
      try (repeat (first [apply list_elem_of_here|apply list_elem_of_further]);
           fail).
    + apply negb_false_iff, bool_decide_eq_true in H. subst n.
      do 3 apply list_elem_of_further. apply list_elem_of_here.
    + apply negb_false_iff, bool_decide_eq_true in H. subst n.
      do 5 apply list_elem_of_further. apply list_elem_of_here.
    + apply negb_false_iff, bool_decide_eq_true in H. subst s.
      do 6 apply list_elem_of_further. apply list_elem_of_here.
  - intros H. repeat (apply elem_of_cons in H as [->|H]; [reflexivity|]).
    apply elem_of_nil in H. destruct H.
Qed.

Lemma objectPrototype_truthy key :
  key ∈ objectPrototypeNames → truthy (objectPrototype key) = true.
Proof.
  intros H. unfold objectPrototype. rewrite bool_decide_eq_true_2 by exact H.
  reflexivity.
Qed.

Lemma objectPrototype_undefined key :
  key ∉ objectPrototypeNames → objectPrototype key = VUndefined.
Proof.
  intros H. unfold objectPrototype. rewrite bool_decide_eq_false_2 by exact H.
  reflexivity.
Qed.

Lemma plainObject_own cells key v :
  cells !! key = Some v → plainObject cells key = v.
Proof. intros H. unfold plainObject. rewrite H. reflexivity. Qed.

Lemma plainObject_inherited cells key :
  cells !! key = None → plainObject cells key = objectPrototype key.
Proof. intros H. unfold plainObject. rewrite H. reflexivity. Qed.

Lemma unexpectedToken_message token :
  _unexpectedToken token =
    Error (if bool_decide (value token = EOF)
           then "Parse error: Unexpected end of input."
           else "Parse error: Unexpected token: " +:+ value token +:+ ".").
Proof.
  unfold _unexpectedToken. destruct (bool_decide (value token = EOF));
    reflexivity.
Qed.

Section Facts.
Variable table : string → option (string → Value).
Variable getProduction : Value → option Production.

Implicit Types (top : GrammarSymbol) (token : Token) (numbers : list Value).

Lemma lookup_falsy top token row numbers :
  table (getSymbol top) = Some row →
  truthy (row (type token)) = false →
  _getDerivedRHS table getProduction (Some top) token numbers =
    Throw (_unexpectedToken token).
Proof.
  intros Hrow Hcell. unfold _getDerivedRHS. rewrite Hrow, Hcell. reflexivity.
Qed.

Lemma lookup_truthy top token row numbers :
  table (getSymbol top) = Some row →
  truthy (row (type token)) = true →
  _getDerivedRHS table getProduction (Some top) token numbers =
    match getProduction (row (type token)) with
    | Some production =>
        Done (rev (getRHS production), numbers ++ [row (type token)])
    | None => Throw TypeError
    end.
Proof.
  intros Hrow Hcell. unfold _getDerivedRHS. rewrite Hrow, Hcell. reflexivity.
Qed.

(** Every successful lookup records a truthy value. *)
Lemma lookup_Done otop token numbers rhs recorded :
  _getDerivedRHS table getProduction otop token numbers =
    Done (rhs, recorded) →
  ∃ top row production,
    otop = Some top ∧ table (getSymbol top) = Some row ∧
    truthy (row (type token)) = true ∧
    getProduction (row (type token)) = Some production ∧
    rhs = rev (getRHS production) ∧
    recorded = numbers ++ [row (type token)].
Proof.
  intros H. destruct otop as [top|]; [|discriminate].
  destruct (table (getSymbol top)) as [row|] eqn:Hrow;
    [|unfold _getDerivedRHS in H; rewrite Hrow in H; discriminate].
  destruct (truthy (row (type token))) eqn:Hcell.
  - rewrite (lookup_truthy _ _ _ _ Hrow Hcell) in H.
    destruct (getProduction (row (type token))) as [production|] eqn:Hprod;
      [|discriminate].
    inversion H; subst. exists top, row, production. auto 10.
  - rewrite (lookup_falsy _ _ _ _ Hrow Hcell) in H. discriminate.
Qed.



End Facts.

(** The lookup over integers is the lookup over plain objects on a row
    that holds integers and a token type that [Object.prototype] has no
    property for. *)
Lemma getDerivedRHS_agrees `{G : Grammar} {T : Type}
      (table : gmap string (gmap string Z))
      (objects : string → option (string → Value))
      (production : Value → option Production)
      (top : GrammarSymbol) (token : Token) (row : gmap string Z)
      (p : LLParser T) :
  table !! getSymbol top = Some row →
  objects (getSymbol top) = Some (plainObject (VNumber <$> row)) →
  type token ∉ objectPrototypeNames →
  (∀ n, production (VNumber n) = getProduction n) →
  Objects._getDerivedRHS objects production (Some top) token
                         (VNumber <$> _productionNumbers p) =
    match LL._getDerivedRHS table (Some top) token p with
    | Done (rhs, p') => Done (rhs, VNumber <$> _productionNumbers p')
    | Throw e => Throw e
    | OutOfFuel => OutOfFuel
    end.
Proof.
  intros Hrow Hobjects Hname Hproduction.
  unfold Objects._getDerivedRHS, LL._getDerivedRHS.
  rewrite Hrow, Hobjects. unfold plainObject. rewrite lookup_fmap.
  destruct (row !! type token) as [n|] eqn:Hcell; simpl.
  - case_bool_decide as Hn; simpl.
    + rewrite unexpectedToken_message.
      unfold LL._unexpectedToken, LL._unexpectedEndOfInput, LL._parseError,
        throw.
      destruct (bool_decide (value token = EOF)); reflexivity.
    + rewrite Hproduction.
      unfold bind, recordProduction, bind, get, put, setProductionNumbers,
        throw, ret.
      simpl. destruct (getProduction n); [|reflexivity].
      cbn [_productionNumbers]. rewrite fmap_app. reflexivity.
  - rewrite (objectPrototype_undefined _ Hname). simpl.
    rewrite unexpectedToken_message.
    unfold LL._unexpectedToken, LL._unexpectedEndOfInput, LL._parseError,
      throw.
    destruct (bool_decide (value token = EOF)); reflexivity.
Qed.

(** *** Runs on concrete rows *)
Import Scenario.

(** The string ["0"] is truthy, unlike the number 0. *)
Example string_zero_is_truthy :
  truthy (VString "0") = true ∧ truthy (VNumber 0) = false.
Proof. split; reflexivity. Qed.





End ObjectsFacts.

(** ** Properties of the tokenizer runtime *)
Module RuntimeFacts.
Import Runtime ArrayFacts.

Lemma setStates_id t : setStates (_states t) t = t.
Proof. destruct t. reflexivity. Qed.

Lemma popState_pushState state t :
  (1 ≤ length (_states t))%nat →
  popState (pushState state t) = (Some state, t).
Proof.
  intros Hlen. unfold popState, pushState. simpl.
  rewrite bool_decide_eq_true_2 by (rewrite length_app; simpl; lia).
  rewrite pop_app. unfold setStates. simpl. destruct t. reflexivity.
Qed.

Lemma popState_single t :
  length (_states t) = 1%nat → popState t = (getCurrentState t, t).
Proof.
  intros Hlen. unfold popState.
  rewrite bool_decide_eq_false_2 by lia. reflexivity.
Qed.

Lemma call_states t c :
  call t c = setStates (_states (call t c)) t.
Proof.
  destruct c as [state| |state]; simpl; try reflexivity.
  unfold popState. case_bool_decide as Hlen.
  - destruct (pop (_states t)) as [[rest top]|]; simpl;
      [reflexivity|symmetry; apply setStates_id].
  - simpl. symmetry. apply setStates_id.
Qed.

(** Handler calls touch nothing but the state stack. *)
Lemma calls_states cs t :
  calls cs t = setStates (_states (calls cs t)) t.
Proof.
  unfold calls. revert t. induction cs as [|c cs IH]; intros t; simpl.
  - symmetry. apply setStates_id.
  - rewrite IH at 1. rewrite (call_states t c) at 2. reflexivity.
Qed.

Lemma call_statesOk t c : statesOk t → statesOk (call t c).
Proof.
  intros [rest Hs]. destruct c as [state| |state]; simpl.
  - exists (rest ++ [state]). simpl. rewrite Hs. reflexivity.
  - unfold popState. case_bool_decide as Hlen; [|exists rest; exact Hs].
    destruct (pop (_states t)) as [[rest' top]|] eqn:E; [|exists rest; exact Hs].
    simpl. apply pop_Some in E. rewrite Hs in Hlen. rewrite Hs in E.
    destruct rest' as [|x rest'].
    + destruct rest; [simpl in Hlen; lia|]. simpl in E.
      inversion E.
    + simpl in E. inversion E. exists rest'. reflexivity.
  - exists (rest ++ [state]). simpl. rewrite Hs. reflexivity.
Qed.

Lemma calls_statesOk cs t : statesOk t → statesOk (calls cs t).
Proof.
  unfold calls. revert t. induction cs as [|c cs IH]; intros t H; simpl.
  - exact H.
  - apply IH, call_statesOk, H.
Qed.

Lemma initString_statesOk str t : statesOk (initString str t).
Proof. exists []. reflexivity. Qed.

(** C7. After [initString] and any sequence of [pushState], [popState] and
    [begin] calls the state stack has at least one entry and INITIAL is its
    bottom entry; [popState] on a stack of one entry changes nothing and
    returns that entry; and a [pushState] or [begin] followed directly by
    [popState] gives back the pushed state and restores the tokenizer, so
    the top of the stack is what it was. *)
Theorem state_stack_never_empty (str : string) (t0 : Tokenizer)
    (cs : list StateCall) :
  (1 ≤ length (_states (calls cs (initString str t0))))%nat ∧
  head (_states (calls cs (initString str t0))) = Some "INITIAL" ∧
  (length (_states (calls cs (initString str t0))) = 1%nat →
     popState (calls cs (initString str t0)) =
       (Some "INITIAL", calls cs (initString str t0))) ∧
  (∀ state,
      popState (pushState state (calls cs (initString str t0))) =
        (Some state, calls cs (initString str t0)) ∧
      getCurrentState
        (snd (popState (pushState state (calls cs (initString str t0))))) =
        getCurrentState (calls cs (initString str t0))) ∧
  (∀ state,
      popState (begin state (calls cs (initString str t0))) =
        (Some state, calls cs (initString str t0))).
Proof.
  pose proof (calls_statesOk cs _ (initString_statesOk str t0)) as [rest Hs].
  set (t := calls cs (initString str t0)) in *.
  assert (1 ≤ length (_states t))%nat as Hlen by (rewrite Hs; simpl; lia).
  split; [exact Hlen|]. split; [rewrite Hs; reflexivity|]. split; [|split].
  - intros H1. rewrite (popState_single _ H1). unfold getCurrentState.
    rewrite Hs in *. destruct rest; [reflexivity|discriminate].
  - intros state. rewrite (popState_pushState _ _ Hlen). split; reflexivity.
  - intros state. exact (popState_pushState _ _ Hlen).
Qed.

Section TokenizingFacts.
Variable tokensMap : gmap string Z.
Variable lexRules : list (RegExp * string).
Variable lexRulesByConditions : gmap string (list nat).
Variable handlers : gmap string Handler.

Abbreviation scanRules := (scanRules lexRules).
Abbreviation handleMatch := (handleMatch tokensMap handlers).
Abbreviation getNextToken :=
  (getNextToken tokensMap lexRules lexRulesByConditions handlers).
Abbreviation getTokens :=
  (getTokens tokensMap lexRules lexRulesByConditions handlers).
Abbreviation _toToken := (_toToken tokensMap).
Abbreviation fails := (fails lexRules).

Lemma scanRules_skip before rest str t :
  Forall (fails str) before →
  scanRules (before ++ rest) str t = scanRules rest str t.
Proof.
  induction 1 as [|j before (regexp & handlerName & Hj & Hre) _ IH];
    [reflexivity|].
  simpl. rewrite Hj. unfold _match. rewrite Hre. exact IH.
Qed.

Lemma scanRules_hit i rest str t (regexp : RegExp) handlerName matched :
  lexRules !! i = Some (regexp, handlerName) →
  regexp str = Some matched →
  scanRules (i :: rest) str t =
    Done (Some (matched, handlerName, matchedState str matched t)).
Proof.
  intros Hi Hre. simpl. rewrite Hi. unfold _match. rewrite Hre. reflexivity.
Qed.

(** Whatever rule the loop stops at, the state it leaves is the state of
    that one match. *)
Lemma scanRules_Some rules str t matched handlerName t' :
  scanRules rules str t = Done (Some (matched, handlerName, t')) →
  t' = matchedState str matched t.
Proof.
  induction rules as [|i rules IH]; simpl; [discriminate|].
  destruct (lexRules !! i) as [[regexp name]|]; [|discriminate].
  unfold _match. destruct (regexp str) as [m|]; [|exact IH].
  intros H. inversion H; subst. reflexivity.
Qed.

Lemma matchedState_queue str matched t :
  _tokensQueue (matchedState str matched t) = _tokensQueue t.
Proof.
  unfold matchedState, _captureLocation.
  destruct (scanNewlines _ _ _ _ _) as [line lineBegin].
  destruct (_ && _); reflexivity.
Qed.

Lemma matchedState_location name text str matched t :
  locationOf (_toToken name text (matchedState str matched t)) =
    capturedLocation matched t.
Proof.
  unfold matchedState, _captureLocation, capturedLocation, locationOf.
  destruct (scanNewlines _ _ _ _ _) as [line lineBegin].
  destruct (_ && _); reflexivity.
Qed.

Lemma getNextToken_unfold fuel t :
  getNextToken fuel t =
    match _tokensQueue t with
    | tokenType :: rest =>
        Done (_toToken (Some tokenType) "" (setTokensQueue rest t),
              setTokensQueue rest t)
    | [] =>
        if negb (hasMoreTokens t) then Done (EOF_TOKEN tokensMap, t)
        else
          match lexRulesByConditions !! orUndefined (getCurrentState t) with
          | None => Throw TypeError
          | Some lexRulesForState =>
              match scanRules lexRulesForState
                              (slice (_string t) (_cursor t)) t with
              | Done (Some (matched, handlerName, t')) =>
                  handleMatch
                    (λ t'', match fuel with
                            | O => OutOfFuel
                            | S fuel' => getNextToken fuel' t''
                            end)
                    handlerName matched t'
              | Done None =>
                  if isEOF t
                  then Done (EOF_TOKEN tokensMap, setCursor (_cursor t + 1) t)
                  else throwUnexpectedToken
                         ((λ c, String c EmptyString) <$>
                            String.get 0 (slice (_string t) (_cursor t)))
                         (_currentLine t) (_currentColumn t) t
              | Throw e => Throw e
              | OutOfFuel => OutOfFuel
              end
          end
    end.
Proof. destruct fuel; reflexivity. Qed.

(** A queued name is returned without looking at the input. *)
Lemma getNextToken_queued fuel t name rest :
  _tokensQueue t = name :: rest →
  getNextToken fuel t =
    Done (_toToken (Some name) "" t, setTokensQueue rest t).
Proof. intros Hq. rewrite getNextToken_unfold, Hq. reflexivity. Qed.

Lemma getTokens_drain fuel names t :
  _tokensQueue t = names →
  getTokens (length names) fuel t =
    Done ((λ name, _toToken (Some name) "" t) <$> names,
          setTokensQueue [] t).
Proof.
  revert t. induction names as [|name names IH]; intros t Hq.
  - simpl. rewrite <- Hq. destruct t. reflexivity.
  - simpl. rewrite (getNextToken_queued fuel t name names Hq).
    rewrite (IH (setTokensQueue names t) eq_refl). reflexivity.
Qed.

(** The call in which a handler returns the array [first :: rest]. *)
Lemma getNextToken_array fuel t rules matched handlerName t' tokenHandler
      stateCalls first rest :
  _tokensQueue t = [] →
  hasMoreTokens t = true →
  lexRulesByConditions !! orUndefined (getCurrentState t) = Some rules →
  scanRules rules (slice (_string t) (_cursor t)) t =
    Done (Some (matched, handlerName, t')) →
  handlers !! handlerName = Some tokenHandler →
  tokenHandler (setYytext matched t') = (stateCalls, ReturnsTypes (first :: rest)) →
  getNextToken fuel t =
    Done (_toToken (Some first) matched t',
          setTokensQueue rest (calls stateCalls (setYytext matched t'))).
Proof.
  intros Hq Hmore Hrules Hscan Hh Hres.
  rewrite getNextToken_unfold, Hq, Hmore, Hrules, Hscan. simpl.
  unfold handleMatch. rewrite Hh, Hres. simpl.
  apply scanRules_Some in Hscan.
  assert (_tokensQueue (calls stateCalls (setYytext matched t')) = []) as Hq'.
  { rewrite calls_states. simpl. rewrite Hscan, matchedState_queue. exact Hq. }
  rewrite Hq'. rewrite app_nil_r.
  rewrite (calls_states stateCalls (setYytext matched t')).
  destruct rest as [|second rest]; simpl.
  - rewrite calls_states in Hq'. simpl in Hq'.
    destruct t'; simpl in *. subst. reflexivity.
  - reflexivity.
Qed.

Lemma matchedState_states str matched t :
  _states (matchedState str matched t) = _states t.
Proof.
  unfold matchedState, _captureLocation.
  destruct (scanNewlines _ _ _ _ _) as [line lineBegin].
  destruct (_ && _); reflexivity.
Qed.

Lemma handleMatch_statesOk again handlerName matched t token t' :
  (∀ u token' u', statesOk u → again u = Done (token', u') → statesOk u') →
  statesOk t →
  handleMatch again handlerName matched t = Done (token, t') →
  statesOk t'.
Proof.
  intros Hagain Hok. unfold handleMatch.
  destruct (handlers !! handlerName) as [tokenHandler|]; [|discriminate].
  destruct (tokenHandler (setYytext matched t)) as [stateCalls result].
  assert (statesOk (calls stateCalls (setYytext matched t))) as Hcalls
    by (apply calls_statesOk; exact Hok).
  destruct result as [|name|names]; simpl.
  - apply Hagain, Hcalls.
  - case_bool_decide as Hname; [apply Hagain, Hcalls|].
    intros H. inversion H; subst. exact Hcalls.
  - case_bool_decide as Hrest; intros H; inversion H; subst; exact Hcalls.
Qed.

(** Tokenizing keeps INITIAL at the bottom of the state stack. *)
Lemma getNextToken_statesOk fuel t token t' :
  statesOk t →
  getNextToken fuel t = Done (token, t') →
  statesOk t'.
Proof.
  revert t token t'.
  assert (∀ again t token t',
             (∀ u token' u',
                 statesOk u → again u = Done (token', u') → statesOk u') →
             statesOk t →
             match _tokensQueue t with
             | tokenType :: rest =>
                 Done (_toToken (Some tokenType) "" (setTokensQueue rest t),
                       setTokensQueue rest t)
             | [] =>
                 if negb (hasMoreTokens t) then Done (EOF_TOKEN tokensMap, t)
                 else
                   match lexRulesByConditions !! orUndefined (getCurrentState t) with
                   | None => Throw TypeError
                   | Some lexRulesForState =>
                       match scanRules lexRulesForState
                                       (slice (_string t) (_cursor t)) t with
                       | Done (Some (matched, handlerName, u)) =>
                           handleMatch again handlerName matched u
                       | Done None =>
                           if isEOF t
                           then Done (EOF_TOKEN tokensMap,
                                      setCursor (_cursor t + 1) t)
                           else throwUnexpectedToken
                                  ((λ c, String c EmptyString) <$>
                                     String.get 0 (slice (_string t) (_cursor t)))
                                  (_currentLine t) (_currentColumn t) t
                       | Throw e => Throw e
                       | OutOfFuel => OutOfFuel
                       end
                   end
             end = Done (token, t') →
             statesOk t') as Hbody.
  { intros again t token t' Hagain Hok.
    destruct (_tokensQueue t) as [|name rest].
    - destruct (hasMoreTokens t); simpl;
        [|intros H; inversion H; subst; exact Hok].
      destruct (lexRulesByConditions !! _) as [rules|]; [|discriminate].
      destruct (scanRules rules _ t) as [[[[matched handlerName] u]|]| |] eqn:E;
        try discriminate.
      + apply scanRules_Some in E. subst u.
        apply handleMatch_statesOk; [exact Hagain|].
        destruct Hok as [r Hr]. exists r. rewrite matchedState_states. exact Hr.
      + destruct (isEOF t).
        * intros H. inversion H; subst. exact Hok.
        * unfold throwUnexpectedToken.
          destruct (_ <? 0); [discriminate|]. destruct (_ <? 0); discriminate.
    - intros H. inversion H; subst. exact Hok. }
  induction fuel as [|fuel IH]; intros t token t' Hok;
    rewrite getNextToken_unfold; apply Hbody; try exact Hok.
  - intros u token' u' _ H. discriminate.
  - intros u token' u' Hu H. exact (IH _ _ _ Hu H).
Qed.

(** C2. Let [state] be the top of the state stack, the queue be empty and
    input be left, and let the rules registered for [state] be
    [before ++ i :: after], where every rule of [before] fails on the
    remaining text and rule [i] matches [matched].  Then the scan stops at
    rule [i] exactly as if [i] were the only rule: neither the length of
    [matched] nor any rule of [after] plays a part.  The handler of rule
    [i] is then called on the state of that match, with [yytext] and
    [yyleng] set from [matched], and what it returns decides the result:
    a name gives the token of that name with the text [matched], an array
    gives the token of its first name and queues the other names, and
    nothing (or the empty name) makes [getNextToken] start over from the
    state the handler left. *)
Theorem getNextToken_first_match_wins fuel t states state before i after
        (regexp : RegExp) handlerName matched tokenHandler
        stateCalls result :
  _tokensQueue t = [] →
  hasMoreTokens t = true →
  _states t = states ++ [state] →
  lexRulesByConditions !! state = Some (before ++ i :: after) →
  Forall (fails (slice (_string t) (_cursor t))) before →
  lexRules !! i = Some (regexp, handlerName) →
  regexp (slice (_string t) (_cursor t)) = Some matched →
  handlers !! handlerName = Some tokenHandler →
  tokenHandler
    (setYytext matched
       (matchedState (slice (_string t) (_cursor t)) matched t)) =
    (stateCalls, result) →
  scanRules (before ++ i :: after) (slice (_string t) (_cursor t)) t =
    scanRules [i] (slice (_string t) (_cursor t)) t ∧
  scanRules [i] (slice (_string t) (_cursor t)) t =
    Done (Some (matched, handlerName,
                matchedState (slice (_string t) (_cursor t)) matched t)) ∧
  yytext (setYytext matched
            (matchedState (slice (_string t) (_cursor t)) matched t)) =
    matched ∧
  yyleng (setYytext matched
            (matchedState (slice (_string t) (_cursor t)) matched t)) =
    Z.of_nat (String.length matched) ∧
  getNextToken fuel t =
    let handled :=
      calls stateCalls
            (setYytext matched
               (matchedState (slice (_string t) (_cursor t)) matched t)) in
    match result with
    | ReturnsType name =>
        if bool_decide (name = "")
        then match fuel with
             | O => OutOfFuel
             | S fuel' => getNextToken fuel' handled
             end
        else Done (_toToken (Some name) matched handled, handled)
    | ReturnsTypes names =>
        Done (_toToken (head names) matched handled,
              setTokensQueue (tail names) handled)
    | ReturnsNothing =>
        match fuel with
        | O => OutOfFuel
        | S fuel' => getNextToken fuel' handled
        end
    end.
Proof.
  intros Hq Hmore Hstates Hrules Hbefore Hi Hre Hh Hres.
  pose proof (scanRules_hit i after _ t _ _ _ Hi Hre) as Hafter.
  pose proof (scanRules_hit i [] _ t _ _ _ Hi Hre) as Hone.
  split; [|split; [|split; [|split]]].
  - rewrite (scanRules_skip _ _ _ _ Hbefore), Hafter, Hone. reflexivity.
  - exact Hone.
  - reflexivity.
  - reflexivity.
  - assert (getCurrentState t = Some state) as Hstate.
    { unfold getCurrentState. rewrite Hstates. apply last_snoc. }
    rewrite getNextToken_unfold, Hq, Hmore, Hstate. simpl.
    rewrite Hrules, (scanRules_skip _ _ _ _ Hbefore), Hafter.
    unfold handleMatch. rewrite Hh, Hres.
    destruct result as [|name|names]; simpl.
    + reflexivity.
    + destruct (bool_decide (name = "")); reflexivity.
    + assert (_tokensQueue
                (calls stateCalls
                   (setYytext matched
                      (matchedState (slice (_string t) (_cursor t))
                                    matched t))) = []) as Hq'.
      { rewrite calls_states. simpl. rewrite matchedState_queue. exact Hq. }
      rewrite Hq', app_nil_r.
      destruct (tail names) as [|second rest] eqn:Htail; simpl.
      * f_equal. f_equal.
        destruct (calls stateCalls _) as [] eqn:E. simpl in Hq'. subst.
        reflexivity.
      * reflexivity.
Qed.

(** C6. When the handler of a match returns the array [first :: rest],
    [getNextToken] returns at once the token of type [first] with the
    matched text and the location captured for this match, and leaves
    exactly [rest] in the queue.  The next [length rest] calls return, in
    order, one token per queued name, each with the location of that same
    match; they change nothing but the queue, so the cursor stays where
    the match left it and no input is read. *)
Theorem getNextToken_queues_the_rest fuel t rules matched handlerName t'
        tokenHandler stateCalls first rest :
  _tokensQueue t = [] →
  hasMoreTokens t = true →
  lexRulesByConditions !! orUndefined (getCurrentState t) = Some rules →
  scanRules rules (slice (_string t) (_cursor t)) t =
    Done (Some (matched, handlerName, t')) →
  handlers !! handlerName = Some tokenHandler →
  tokenHandler (setYytext matched t') =
    (stateCalls, ReturnsTypes (first :: rest)) →
  ∃ token t1,
    getNextToken fuel t = Done (token, t1) ∧
    type token = tokensMap !! first ∧
    locationOf token = capturedLocation matched t ∧
    _tokensQueue t1 = rest ∧
    ∃ tokens,
      getTokens (length rest) fuel t1 = Done (tokens, setTokensQueue [] t1) ∧
      _cursor (setTokensQueue [] t1) = _cursor t' ∧
      Forall2 (λ name queued,
                 type queued = tokensMap !! name ∧
                 locationOf queued = locationOf token)
              rest tokens.
Proof.
  intros Hq Hmore Hrules Hscan Hh Hres.
  pose proof (getNextToken_array fuel _ _ _ _ _ _ _ _ _
                Hq Hmore Hrules Hscan Hh Hres) as Hfirst.
  pose proof (scanRules_Some _ _ _ _ _ _ Hscan) as Ht'.
  eexists _, _. split; [exact Hfirst|].
  split; [reflexivity|].
  split; [rewrite Ht'; apply matchedState_location|].
  split; [reflexivity|].
  eexists. split; [apply getTokens_drain; reflexivity|].
  split; [rewrite calls_states; reflexivity|].
  apply Forall2_fmap_r, Forall_Forall2_diag, Forall_forall.
  intros name _. split; [reflexivity|].
  rewrite calls_states. reflexivity.
Qed.

(** C10. A token made from a queued name has the empty string as its
    value.  For a match whose handler returns [first :: rest], the token
    returned at once has the matched text as its value and every one of
    the [length rest] tokens returned after it has the empty string. *)
Theorem queued_tokens_have_empty_value fuel :
  (∀ t name rest,
      _tokensQueue t = name :: rest →
      ∃ token,
        getNextToken fuel t = Done (token, setTokensQueue rest t) ∧
        value token = "") ∧
  (∀ t rules matched handlerName t' tokenHandler stateCalls first rest,
      _tokensQueue t = [] →
      hasMoreTokens t = true →
      lexRulesByConditions !! orUndefined (getCurrentState t) = Some rules →
      scanRules rules (slice (_string t) (_cursor t)) t =
        Done (Some (matched, handlerName, t')) →
      handlers !! handlerName = Some tokenHandler →
      tokenHandler (setYytext matched t') =
        (stateCalls, ReturnsTypes (first :: rest)) →
      ∃ token t1 tokens t2,
        getNextToken fuel t = Done (token, t1) ∧
        value token = matched ∧
        getTokens (length rest) fuel t1 = Done (tokens, t2) ∧
        length tokens = length rest ∧
        Forall (λ queued, value queued = "") tokens).
Proof.
  split.
  - intros t name rest Hq. eexists.
    split; [apply getNextToken_queued; exact Hq|reflexivity].
  - intros t rules matched handlerName t' tokenHandler stateCalls first rest
           Hq Hmore Hrules Hscan Hh Hres.
    eexists _, _, _, _.
    split; [exact (getNextToken_array fuel _ _ _ _ _ _ _ _ _
                     Hq Hmore Hrules Hscan Hh Hres)|].
    split; [reflexivity|].
    split; [apply getTokens_drain; reflexivity|].
    split; [apply length_fmap|].
    apply Forall_fmap, Forall_forall. intros name _. reflexivity.
Qed.

End TokenizingFacts.

(** *** Runs on the concrete lexical grammar *)
Import LexScenario.

(** First match, not longest match: on ["ab"] rule 1 ([/^a/]) wins although
    rule 2 ([/^ab/]) matches more, and the ["b"] left over is an error. *)
Example first_match_not_longest :
  literal "ab" "ab" = Some "ab" ∧
  (∃ token t, next 0 (initString "ab" blank) = Done (token, t) ∧
              type token = Some 3 ∧ value token = "a" ∧ _cursor t = 1) ∧
  nextN 2 0 (initString "ab" blank) =
    Throw (SyntaxError
             (String "010"%char (String "010"%char "ab") +:+
              String "010"%char " ^" +:+ String "010"%char
              "Unexpected token: " +:+ String "034"%char "b" +:+
              String "034"%char " at 1:1.")).
Proof.
  split; [reflexivity|]. split; [|vm_compute; reflexivity].
  eexists _, _. split; [vm_compute; reflexivity|]. repeat split.
Qed.

(** Scenario D: one match of [/^\{s/] gives LBRACE and then STRING, both
    located at offsets 3 to 5 on line 2, after the skipped white space. *)
Example scenario_D :
  ∃ lbrace queued t,
    nextN 2 1 (initString (" " +:+ String "010"%char " {sab") blank) =
      Done ([lbrace; queued], t) ∧
    type lbrace = Some 1 ∧ value lbrace = "{s" ∧
    type queued = Some 2 ∧ value queued = "" ∧
    locationOf lbrace = (3, 5, 2, 2, 1, 3) ∧
    locationOf queued = (3, 5, 2, 2, 1, 3) ∧
    _cursor t = 5.
Proof. eexists _, _, _. split; [vm_compute; reflexivity|]. repeat split. Qed.

Lemma getNextToken_first_match_wins_witness :
  (literal "ab" "ab" = Some "ab" ∧
   next 0 (initString "ab" blank) =
     Done ({| type := Some 3; value := "a";
              startOffset := 0; endOffset := 1; startLine := 1; endLine := 1;
              startColumn := 0; endColumn := 1 |},
           setYytext "a" (matchedState "ab" "a" (initString "ab" blank)))) ∧
  (_states (pushState "comment" (initString "ab" blank)) =
     ["INITIAL"; "comment"] ∧
   getNextToken tokensMap lexRules stateConditions handlers 0
                (pushState "comment" (initString "ab" blank)) =
     Done ({| type := Some 4; value := "ab";
              startOffset := 0; endOffset := 2; startLine := 1; endLine := 1;
              startColumn := 0; endColumn := 2 |},
           setYytext "ab"
             (matchedState "ab" "ab"
                (pushState "comment" (initString "ab" blank))))).
Proof.
  split; (split; [reflexivity|]).
  - refine (proj2 (proj2 (proj2 (proj2
      (getNextToken_first_match_wins tokensMap lexRules lexRulesByConditions
         handlers 0 (initString "ab" blank) [] "INITIAL"
         [0%nat] 1%nat [2%nat; 3%nat]
         (literal "a") "_lexRule2" "a" (λ _, ([], ReturnsType "A"))
         [] (ReturnsType "A")
         eq_refl eq_refl eq_refl eq_refl _ eq_refl eq_refl eq_refl eq_refl))))).
    constructor; [|constructor].
    exists whitespace, "_lexRule1". split; reflexivity.
  - refine (proj2 (proj2 (proj2 (proj2
      (getNextToken_first_match_wins tokensMap lexRules stateConditions
         handlers 0 (pushState "comment" (initString "ab" blank))
         ["INITIAL"] "comment"
         [0%nat] 2%nat [1%nat]
         (literal "ab") "_lexRule3" "ab" (λ _, ([], ReturnsType "AB"))
         [] (ReturnsType "AB")
         eq_refl eq_refl eq_refl eq_refl _ eq_refl eq_refl eq_refl eq_refl))))).
    constructor; [|constructor].
    exists whitespace, "_lexRule1". split; reflexivity.
Defined.

Lemma getNextToken_queues_the_rest_witness :
  ∃ token t1,
    next 0 (initString "{sab" blank) = Done (token, t1) ∧
    type token = tokensMap !! "LBRACE" ∧
    locationOf token = capturedLocation "{s" (initString "{sab" blank) ∧
    _tokensQueue t1 = ["STRING"] ∧
    ∃ tokens,
      nextN 1 0 t1 = Done (tokens, setTokensQueue [] t1) ∧
      _cursor (setTokensQueue [] t1) = 2 ∧
      Forall2 (λ name queued,
                 type queued = tokensMap !! name ∧
                 locationOf queued = locationOf token)
              ["STRING"] tokens.
Proof.
  exact (getNextToken_queues_the_rest tokensMap lexRules lexRulesByConditions
           handlers 0 (initString "{sab" blank) [0; 1; 2; 3]%nat "{s"
           "_lexRule4" (matchedState "{sab" "{s" (initString "{sab" blank))
           (λ _, ([], ReturnsTypes ["LBRACE"; "STRING"])) [] "LBRACE" ["STRING"]
           eq_refl eq_refl eq_refl eq_refl eq_refl eq_refl).
Defined.

Lemma queued_tokens_have_empty_value_witness :
  ∃ token,
    next 0 (setTokensQueue ["STRING"] (initString "x" blank)) =
      Done (token, setTokensQueue [] (setTokensQueue ["STRING"]
                                        (initString "x" blank))) ∧
    value token = "".
Proof.
  exact (proj1 (queued_tokens_have_empty_value tokensMap lexRules
                  lexRulesByConditions handlers 0)
           (setTokensQueue ["STRING"] (initString "x" blank)) "STRING" []
           eq_refl).
Defined.

(** The state stack on a run of calls. *)
Example state_stack_run :
  _states (calls [PushState "comment"; PopState; PopState; Begin "string"]
                 (initString "x" blank)) = ["INITIAL"; "string"].
Proof. reflexivity. Qed.

End RuntimeFacts.

(** ** Properties of the dictionary primitives *)
Module EmitFacts.
Import Emit.

Lemma dictKey_supported key keyType :
  keyType = "string" ∨ keyType = "number" →
  ∃ rendered, _dictKey key keyType = Done rendered.
Proof. intros [-> | ->]; eexists; reflexivity. Qed.

Lemma dictValue_supported value valueType :
  isArray value = true ∨ valueType = "string" ∨ valueType = "number" →
  ∃ rendered, _dictValue value valueType = Done rendered.
Proof.
  intros [H | [-> | ->]]; destruct value; try discriminate;
    eexists; reflexivity.
Qed.

(** C8. A key whose declared type is neither ['string'] nor ['number']
    makes [_dictKey] throw an error whose message names that type, and so
    does [_dictValue] for a value that is not an array; nothing is
    rendered.  With a declared type of ['string'] or ['number'], and for
    every array value, the primitives return and do not throw. *)
Theorem dict_primitives_reject_unsupported_types :
  (∀ key keyType,
      keyType ≠ "string" → keyType ≠ "number" →
      _dictKey key keyType =
        Throw (Error ("_dictKey: Incorrect type " +:+ keyType))) ∧
  (∀ value valueType,
      isArray value = false →
      valueType ≠ "string" → valueType ≠ "number" →
      _dictValue value valueType =
        Throw (Error ("_dictValue: Incorrect value " +:+ valueType))) ∧
  (∀ key keyType,
      keyType = "string" ∨ keyType = "number" →
      ∃ rendered, _dictKey key keyType = Done rendered) ∧
  (∀ value valueType,
      isArray value = true ∨ valueType = "string" ∨ valueType = "number" →
      ∃ rendered, _dictValue value valueType = Done rendered).
Proof.
  split; [|split; [|split]].
  - intros key keyType Hs Hn. unfold _dictKey.
    rewrite !bool_decide_eq_false_2 by assumption. reflexivity.
  - intros value valueType Ha Hs Hn. unfold _dictValue.
    destruct value; try discriminate;
      rewrite !bool_decide_eq_false_2 by assumption; reflexivity.
  - apply dictKey_supported.
  - apply dictValue_supported.
Qed.

Lemma dict_primitives_reject_unsupported_types_witness :
  _dictKey (JsString "NUMBER") "boolean" =
    Throw (Error "_dictKey: Incorrect type boolean") ∧
  _dictValue (JsNumber 7) "object" =
    Throw (Error "_dictValue: Incorrect value object") ∧
  (∃ rendered, _dictValue (JsArray [JsNumber 1; JsNumber 2]) "object" =
                 Done rendered).
Proof.
  destruct dict_primitives_reject_unsupported_types as (Hk & Hv & _ & Hok).
  split; [|split].
  - apply (Hk (JsString "NUMBER") "boolean"); discriminate.
  - apply (Hv (JsNumber 7) "object"); [reflexivity|discriminate|discriminate].
  - apply (Hok (JsArray [JsNumber 1; JsNumber 2]) "object"). left. reflexivity.
Defined.

(** The token table entry ["NUMBER": 7] and an array of rule indices. *)
Example dict_rendering :
  _dictKey (JsString "NUMBER") "string" =
    Done (Text (String "034"%char "NUMBER" +:+ String "034"%char "")) ∧
  _dictValue (JsString "7") "number" = Done (NumberOf (JsString "7")) ∧
  _dictValue (JsArray [JsNumber 0; JsNumber 5; JsNumber 6]) "number" =
    Done (Text "new int[] { 0, 5, 6 }").
Proof. repeat split. Qed.

End EmitFacts.

(** ** Further properties of the LL(1) parser *)
Module LLExtra.
Import LL ArrayFacts LLFacts.

Section MoreFacts.
Context `{G : Grammar} {T : Type} `{Tk : !Tokenizer T}.
Variable table : gmap string (gmap string Z).

Implicit Types (p q : LLParser T) (token : Token).

Lemma traceExtends_refl p p' :
  _productionNumbers p' = _productionNumbers p → traceExtends table p p'.
Proof. intros H. exists []. rewrite app_nil_r. split; [exact H|constructor]. Qed.

Lemma traceExtends_trans p q r :
  traceExtends table p q → traceExtends table q r → traceExtends table p r.
Proof.
  intros (l1 & H1 & F1) (l2 & H2 & F2). exists (l1 ++ l2).
  rewrite H2, H1, app_assoc. split; [reflexivity|].
  apply Forall_app. split; assumption.
Qed.

Lemma doDerivation_traceExtends otop token p u p' :
  _doDerivation table otop token p = Done (u, p') → traceExtends table p p'.
Proof.
  unfold _doDerivation, bind. intros H.
  destruct (_getDerivedRHS table otop token p) as [[rhs q]| |] eqn:E;
    try discriminate.
  apply getDerivedRHS_Done in E
    as (top & row & n & production & -> & Hrow & Hcell & Hn & Hprod & -> & ->).
  assert (derivable table n) as Hd.
  { split; [exact Hn|]. split; [rewrite Hprod; eauto|].
    exists (getSymbol top), (type token), row. auto. }
  exists [n]. split; [|constructor; [exact Hd|constructor]].
  destruct (rev (getRHS production)) as [|first rest]; [discriminate|].
  destruct (isEpsilon first); simpl in H.
  - inversion H. reflexivity.
  - unfold stackPush, bind, get, put, setStack in H. simpl in H.
    inversion H. reflexivity.
Qed.

Lemma loopBody_traceExtends token p token' p' :
  loopBody table token p = Done (token', p') → traceExtends table p p'.
Proof.
  unfold loopBody, bind. intros H.
  destruct (stackPop p) as [[otop q]| |] eqn:E; try discriminate.
  apply stackPop_Done in E as (En & _ & _).
  destruct otop as [s|]; [|discriminate].
  destruct (isTokenSymbol s && bool_decide (getSymbol s = type token)).
  - apply nextToken_Done in H as [_ H]. apply traceExtends_refl. congruence.
  - destruct (_doDerivation table (Some s) token q) as [[[] q']| |] eqn:E';
      try discriminate.
    inversion H; subst. apply doDerivation_traceExtends in E'.
    eapply traceExtends_trans; [apply traceExtends_refl; exact En|exact E'].
Qed.

Lemma mainLoop_traceExtends fuel token p token' p' :
  mainLoop table fuel token p = Done (token', p') → traceExtends table p p'.
Proof.
  revert token p. induction fuel as [|fuel IH]; intros token p H;
    [discriminate|].
  simpl in H. unfold bind, get in H.
  destruct (loopBody table token p) as [[tok q]| |] eqn:E; try discriminate.
  apply loopBody_traceExtends in E.
  destruct (loopCondition q).
  - eapply traceExtends_trans; [exact E|exact (IH _ _ H)].
  - inversion H; subst. exact E.
Qed.

(** What [parseLoops] amounts to once [parseInit] and the [do ... while]
    loop have returned. *)
Lemma parseLoops_after_mainLoop fuel string p token0 q0 token q :
  parseInit string p = Done (token0, q0) →
  mainLoop table fuel token0 q0 = Done (token, q) →
  parseLoops table fuel string p =
    if bool_decide (_stack q = []) then Throw TypeError else Done (token, q).
Proof.
  intros Hinit Hmain. unfold parseLoops, bind. rewrite Hinit, Hmain.
  destruct fuel as [|fuel]; [discriminate|].
  rewrite (cleanupLoop_after_mainLoop _ _ fuel _ _ _ _ Hmain).
  destruct (bool_decide (_stack q = [])); reflexivity.
Qed.

Lemma parseLoops_inv fuel string p token q :
  parseLoops table fuel string p = Done (token, q) →
  ∃ token0 q0,
    parseInit string p = Done (token0, q0) ∧
    mainLoop table fuel token0 q0 = Done (token, q).
Proof.
  intros H. pose proof H as H'. unfold parseLoops, bind in H'.
  destruct (parseInit string p) as [[token0 q0]| |] eqn:Hinit;
    try discriminate.
  destruct (mainLoop table fuel token0 q0) as [[token1 q1]| |] eqn:Hmain;
    try discriminate.
  rewrite (parseLoops_after_mainLoop _ _ _ _ _ _ _ Hinit Hmain) in H.
  destruct (bool_decide (_stack q1 = [])); [discriminate|].
  inversion H; subst. eauto.
Qed.

Lemma parse_inv fuel string p r p' :
  parse table fuel string p = Done (r, p') →
  ∃ token, parseLoops table fuel string p = Done (token, p').
Proof.
  unfold parse, bind. intros H.
  destruct (parseLoops table fuel string p) as [[token q]| |]; try discriminate.
  exists token. unfold parseFinish, bind, get in H.
  destruct (_stack q !! 0%nat); [|discriminate].
  destruct (_ || _); [discriminate|]. inversion H. reflexivity.
Qed.

Lemma parseInit_Done string p token q :
  parseInit string p = Done (token, q) →
  _stack q = [ {| getSymbol := EOF |}; {| getSymbol := getStartSymbol |} ] ∧
  _productionNumbers q = [].
Proof.
  unfold parseInit, bind, get, put. intros H.
  apply nextToken_Done in H. exact H.
Qed.

(** X1. The trailing [while] loop of [parse] adds nothing to what the
    [do ... while] loop leaves: when the latter returns with the stack [q]
    holds, [parse] goes on to its final test with that very state and
    token, unless the stack is empty, in which case the trailing loop pops
    [undefined] and [parse] throws a [TypeError]. *)
Theorem trailing_loop_is_idle fuel string p token0 q0 token q :
  parseInit string p = Done (token0, q0) →
  mainLoop table fuel token0 q0 = Done (token, q) →
  parse table fuel string p =
    if bool_decide (_stack q = []) then Throw TypeError
    else parseFinish token q.
Proof.
  intros Hinit Hmain. unfold parse, bind.
  rewrite (parseLoops_after_mainLoop _ _ _ _ _ _ _ Hinit Hmain).
  destruct (bool_decide (_stack q = [])); reflexivity.
Qed.


(** X3. [parse] accepts only when the tokenizer has no more tokens: an
    accepted text has been read to its end. *)
Theorem accept_exhausts_tokens fuel string p r p' :
  parse table fuel string p = Done (r, p') →
  hasMoreTokens (_tokenizer p') = false.
Proof.
  intros H. apply parse_inv in H as [token H].
  apply parseLoops_inv in H as (token0 & q0 & _ & Hmain).
  apply mainLoop_Done in Hmain. unfold loopCondition in Hmain.
  apply orb_false_iff in Hmain as [Hmore _]. exact Hmore.
Qed.

Lemma loopBody_keeps_bottom token p token' p' rest :
  table !! EOF = None →
  isTokenSymbol {| getSymbol := EOF |} = false →
  _stack p = {| getSymbol := EOF |} :: rest →
  loopBody table token p = Done (token', p') →
  ∃ rest', _stack p' = {| getSymbol := EOF |} :: rest'.
Proof.
  intros Hrow Htok Hstack. unfold loopBody, bind. intros H.
  destruct (stackPop p) as [[otop q]| |] eqn:E; try discriminate.
  apply stackPop_Done in E as (_ & _ & E).
  destruct otop as [s|]; [|discriminate].
  rewrite Hstack in E.
  assert (∃ rest', _stack q = {| getSymbol := EOF |} :: rest') as [rest' Hq].
  { destruct (_stack q) as [|x l] eqn:Eq.
    - (* the popped symbol is the bottom one: no step returns *)
      simpl in E. inversion E; subst. rewrite Htok in H. simpl in H.
      unfold _doDerivation, bind, _getDerivedRHS in H. simpl in H.
      rewrite Hrow in H. discriminate.
    - simpl in E. inversion E; subst. eauto. }
  destruct (isTokenSymbol s && bool_decide (getSymbol s = type token)).
  - apply nextToken_Done in H as [H _]. exists rest'. congruence.
  - destruct (_doDerivation table (Some s) token q) as [[[] q']| |] eqn:E';
      try discriminate.
    inversion H; subst.
    apply doDerivation_Done in E' as (n & production & _ & _ & [-> | ->]);
      simpl; rewrite Hq; eauto.
Qed.

Lemma mainLoop_keeps_bottom fuel token p token' p' rest :
  table !! EOF = None →
  isTokenSymbol {| getSymbol := EOF |} = false →
  _stack p = {| getSymbol := EOF |} :: rest →
  mainLoop table fuel token p = Done (token', p') →
  _stack p' = [ {| getSymbol := EOF |} ].
Proof.
  intros Hrow Htok. revert token p rest.
  induction fuel as [|fuel IH]; intros token p rest Hstack H; [discriminate|].
  simpl in H. unfold bind, get in H.
  destruct (loopBody table token p) as [[tok q]| |] eqn:E; try discriminate.
  destruct (loopBody_keeps_bottom _ _ _ _ _ Hrow Htok Hstack E) as [rest' Hq].
  destruct (loopCondition q) eqn:Hc.
  - exact (IH _ _ _ Hq H).
  - inversion H; subst. unfold loopCondition in Hc.
    apply orb_false_iff in Hc as [_ Hc]. apply bool_decide_eq_false in Hc.
    rewrite Hq in *. destruct rest'; [reflexivity|simpl in Hc; lia].
Qed.

(** X4. When the table has no row for the end marker and the grammar does
    not count it among the token symbols, the marker stays at the bottom of
    the stack through every pass: if the loops of [parse] finish at all,
    the stack is exactly [[EOF]], and [parse] then accepts or fails on the
    value of the current token alone. *)
Theorem loops_end_on_the_end_marker fuel string p token p' :
  table !! EOF = None →
  isTokenSymbol {| getSymbol := EOF |} = false →
  parseLoops table fuel string p = Done (token, p') →
  _stack p' = [ {| getSymbol := EOF |} ] ∧
  parse table fuel string p =
    if bool_decide (value token = EOF) then Done (accept, p')
    else Throw (Error ("Parse error: stack is not empty: " +:+ EOF +:+
                       ", " +:+ value token)).
Proof.
  intros Hrow Htok H. pose proof H as Hloops.
  apply parseLoops_inv in H as (token0 & q0 & Hinit & Hmain).
  apply parseInit_Done in Hinit as [Hstack _].
  pose proof (mainLoop_keeps_bottom _ _ _ _ _ _ Hrow Htok Hstack Hmain) as Hend.
  split; [exact Hend|].
  unfold parse, bind. rewrite Hloops.
  rewrite parseFinish_spec by (rewrite Hend; reflexivity).
  unfold stackNotEmpty. rewrite Hend. simpl.
  destruct (decide (value token = EOF)) as [Hv|Hv].
  - rewrite !bool_decide_eq_true_2 by auto. reflexivity.
  - rewrite !bool_decide_eq_false_2 by tauto. reflexivity.
Qed.

Lemma parseFailure_unexpected token :
  parseFailure (if bool_decide (value token = EOF)
                then Error "Parse error: Unexpected end of input."
                else Error ("Parse error: Unexpected token: " +:+
                            value token +:+ ".")).
Proof.
  destruct (bool_decide (value token = EOF)).
  - right. right. left. reflexivity.
  - right. right. right. left. eauto.
Qed.

Lemma getDerivedRHS_Throw otop token p e :
  _getDerivedRHS table otop token p = Throw e → parseFailure e.
Proof.
  destruct otop as [top|]; simpl;
    [|intros H; inversion H; left; reflexivity].
  destruct (table !! getSymbol top) as [row|] eqn:Hrow;
    [|intros H; inversion H; left; reflexivity].
  assert (∀ A, @_unexpectedToken T A token p = Throw e → parseFailure e) as Hu.
  { intros A. rewrite unexpectedToken_throws. intros H. inversion H.
    pose proof (parseFailure_unexpected token) as Hf.
    destruct (bool_decide (value token = EOF)); exact Hf. }
  destruct (row !! type token) as [n|] eqn:Hcell; [|apply Hu].
  simpl. case_bool_decide as Hn; [apply Hu|].
  unfold bind, recordProduction, bind, get, put. simpl.
  destruct (getProduction n); [discriminate|].
  intros H. inversion H. left. reflexivity.
Qed.

Lemma doDerivation_Throw otop token p e :
  _doDerivation table otop token p = Throw e → parseFailure e.
Proof.
  unfold _doDerivation, bind.
  destruct (_getDerivedRHS table otop token p) as [[rhs q]| |] eqn:E;
    [|intros H; inversion H; subst; exact (getDerivedRHS_Throw _ _ _ _ E)
     |discriminate].
  destruct rhs as [|first rest]; [intros H; inversion H; left; reflexivity|].
  destruct (isEpsilon first); discriminate.
Qed.

Lemma nextToken_Throw p e : nextToken p = Throw e → parseFailure e.
Proof.
  unfold nextToken.
  destruct (getNextToken (_tokenizer p)) as [[tok t']| |] eqn:E;
    try discriminate.
  intros H. inversion H; subst. right. left. eauto.
Qed.

Lemma stackPop_total p : ∃ otop q, stackPop p = Done (otop, q).
Proof.
  unfold stackPop, bind, get, put, ret.
  destruct (pop (_stack p)) as [[rest top]|]; eauto.
Qed.

Lemma loopBody_Throw token p e :
  loopBody table token p = Throw e → parseFailure e.
Proof.
  unfold loopBody, bind.
  destruct (stackPop_total p) as (otop & q & ->).
  destruct otop as [s|]; [|intros H; inversion H; left; reflexivity].
  destruct (isTokenSymbol s && bool_decide (getSymbol s = type token));
    [apply nextToken_Throw|].
  destruct (_doDerivation table (Some s) token q) as [[[] q']| |] eqn:E;
    try discriminate.
  intros H. inversion H; subst. exact (doDerivation_Throw _ _ _ _ E).
Qed.

Lemma mainLoop_Throw fuel token p e :
  mainLoop table fuel token p = Throw e → parseFailure e.
Proof.
  revert token p. induction fuel as [|fuel IH]; intros token p;
    [discriminate|].
  simpl. unfold bind, get.
  destruct (loopBody table token p) as [[tok q]| |] eqn:E;
    [|intros H; inversion H; subst; exact (loopBody_Throw _ _ _ E)
     |discriminate].
  destruct (loopCondition q); [apply IH|discriminate].
Qed.

Lemma cleanupLoop_Throw fuel token p e :
  cleanupLoop table fuel token p = Throw e → parseFailure e.
Proof.
  revert p. induction fuel as [|fuel IH]; intros p;
    rewrite cleanupLoop_unfold; case_bool_decide as Hlen; try discriminate.
  destruct (stackPop_total p) as (otop & q & ->).
  destruct (_doDerivation table otop token q) as [[[] q']| |] eqn:E;
    [apply IH|intros H; inversion H; subst; exact (doDerivation_Throw _ _ _ _ E)
     |discriminate].
Qed.

(** X5. Every exception that leaves [parse] is a [TypeError], an exception
    the tokenizer's [getNextToken] threw, or one of the three parse errors
    (unexpected end of input, unexpected token, stack is not empty), whose
    messages all begin with ["Parse error: "]. *)
Theorem parse_throws_only_parse_failures fuel string p e :
  parse table fuel string p = Throw e → parseFailure e.
Proof.
  unfold parse, parseLoops, bind.
  destruct (parseInit string p) as [[token0 q0]| |] eqn:Hinit;
    [| |discriminate].
  - destruct (mainLoop table fuel token0 q0) as [[token1 q1]| |] eqn:Hmain;
      [|intros H; inversion H; subst; exact (mainLoop_Throw _ _ _ _ Hmain)
       |discriminate].
    destruct (cleanupLoop table fuel token1 q1) as [[[] q2]| |] eqn:Hclean;
      [|intros H; inversion H; subst; exact (cleanupLoop_Throw _ _ _ _ Hclean)
       |discriminate].
    unfold ret, parseFinish, bind, get.
    destruct (_stack q2 !! 0%nat); [|intros H; inversion H; left; reflexivity].
    destruct (_ || _); [|discriminate].
    intros H. inversion H. right. right. right. right. eauto.
  - intros H. inversion H; subst. unfold parseInit, bind, get, put in Hinit.
    exact (nextToken_Throw _ _ Hinit).
Qed.

Lemma parse_Done_inv fuel string p r p' :
  parse table fuel string p = Done (r, p') →
  ∃ token,
    parseLoops table fuel string p = Done (token, p') ∧
    _stack p' = [ {| getSymbol := EOF |} ] ∧ value token = EOF.
Proof.
  unfold parse, bind. intros H.
  destruct (parseLoops table fuel string p) as [[token q]| |] eqn:E;
    try discriminate.
  rewrite (parseFinish_spec _ _ (parseLoops_Done _ _ _ _ _ _ E)) in H.
  case_bool_decide as Hc; [|discriminate].
  inversion H; subst. exists token. tauto.
Qed.

(** *** The trace is a leftmost derivation of the tokens read *)

Lemma readTokens_snoc n (t0 t t' : T) tokens token :
  readTokens n t0 = Done (tokens, t) →
  getNextToken t = Done (token, t') →
  readTokens (S n) t0 = Done (tokens ++ [token], t').
Proof.
  revert t0 tokens. induction n as [|n IH]; intros t0 tokens Hread Hnext.
  - simpl in Hread. inversion Hread; subst. simpl. rewrite Hnext. reflexivity.
  - simpl in Hread.
    destruct (getNextToken t0) as [[tok1 t1]| |] eqn:E1; try discriminate.
    destruct (readTokens n t1) as [[toks t2]| |] eqn:E2; try discriminate.
    inversion Hread; subst.
    change (readTokens (S (S n)) t0) with
      (match getNextToken t0 with
       | Done (token, t') =>
           match readTokens (S n) t' with
           | Done (tokens, t'') => Done (token :: tokens, t'')
           | Throw e => Throw e
           | OutOfFuel => OutOfFuel
           end
       | Throw e => Throw e
       | OutOfFuel => OutOfFuel
       end).
    rewrite E1, (IH _ _ E2 Hnext). reflexivity.
Qed.

Lemma expandLeftmost_app getLHS n before s rest production :
  Forall (λ x, isTokenSymbol x = true) before →
  isTokenSymbol s = false →
  getSymbol s = getLHS n →
  getProduction n = Some production →
  expandLeftmost getLHS n (before ++ s :: rest) =
    Some (before ++ word (getRHS production) ++ rest).
Proof.
  intros Hbefore Hs Hlhs Hprod.
  induction Hbefore as [|x before Hx _ IH]; simpl.
  - rewrite Hs, bool_decide_eq_true_2 by exact Hlhs. rewrite Hprod.
    reflexivity.
  - rewrite Hx, IH. reflexivity.
Qed.

Lemma replay_snoc getLHS numbers n form :
  replay getLHS (numbers ++ [n]) form =
    replay getLHS numbers form ≫= expandLeftmost getLHS n.
Proof. unfold replay. rewrite foldl_app. reflexivity. Qed.

Lemma word_without_epsilon rhs :
  Forall (λ s, isEpsilon s = false) rhs → word rhs = rhs.
Proof.
  unfold word. induction 1 as [|s rhs Hs _ IH]; [reflexivity|].
  rewrite filter_cons_True by exact Hs. rewrite IH. reflexivity.
Qed.

(** On a right-hand side that is the epsilon marker alone or holds no
    epsilon marker, what the parser pushes is the word of the right-hand
    side. *)
Lemma pushedSymbols_word production :
  getRHS production = [ {| getSymbol := EPSILON |} ] ∨
  Forall (λ s, isEpsilon s = false) (getRHS production) →
  pushedSymbols production = word (getRHS production).
Proof.
  unfold pushedSymbols. intros [Hrhs|Hrhs].
  - rewrite Hrhs. reflexivity.
  - rewrite (word_without_epsilon _ Hrhs).
    destruct (rev (getRHS production)) as [|first rest] eqn:Hrev.
    + apply (f_equal (@rev _)) in Hrev. rewrite rev_involutive in Hrev.
      rewrite Hrev. reflexivity.
    + assert (first ∈ getRHS production) as Hin.
      { apply list_elem_of_In, in_rev. rewrite Hrev. left. reflexivity. }
      rewrite Forall_forall in Hrhs. rewrite (Hrhs _ Hin). reflexivity.
Qed.

Lemma doDerivation_inv otop token p u p' :
  _doDerivation table otop token p = Done (u, p') →
  ∃ top row n production,
    otop = Some top ∧ table !! getSymbol top = Some row ∧
    row !! type token = Some n ∧
    getProduction n = Some production ∧
    p' = derived n (rev (pushedSymbols production)) p.
Proof.
  unfold _doDerivation, bind. intros H.
  destruct (_getDerivedRHS table otop token p) as [[rhs q]| |] eqn:E;
    try discriminate.
  apply getDerivedRHS_Done in E
    as (top & row & n & production & -> & Hrow & Hcell & _ & Hprod & -> & ->).
  exists top, row, n, production.
  split; [reflexivity|]. split; [exact Hrow|]. split; [exact Hcell|].
  split; [exact Hprod|].
  unfold pushedSymbols.
  destruct (rev (getRHS production)) as [|first rest] eqn:Hrev;
    [discriminate|].
  destruct (isEpsilon first); simpl in H.
  - inversion H. reflexivity.
  - unfold stackPush, bind, get, put, setStack in H. simpl in H.
    inversion H. unfold derived. simpl. rewrite app_nil_r, Hrev. reflexivity.
Qed.

Section Replay.
Variable getLHS : Z → string.
(** The table has rows for non-token symbols only. *)
Hypothesis rows_are_nonterminals :
  ∀ (s : GrammarSymbol) (row : gmap string Z),
    table !! getSymbol s = Some row → isTokenSymbol s = false.
Hypothesis rows_hold_own_productions : rowsHoldOwnProductions table getLHS.
Hypothesis epsilon_stands_alone : epsilonStandsAlone.

Variable t0 : T.

Lemma loopBody_replays token p token' p' :
  replays getLHS t0 token p →
  loopBody table token p = Done (token', p') →
  replays getLHS t0 token' p'.
Proof.
  intros (consumed & Hread & Htokens & Hreplay). unfold loopBody, bind.
  intros H.
  destruct (stackPop p) as [[otop q]| |] eqn:E; try discriminate.
  apply stackPop_Done in E as (Hnumbers & Htokenizer & Hstack).
  destruct otop as [s|]; [|discriminate].
  rewrite Hstack, rev_unit in Hreplay.
  destruct (isTokenSymbol s && bool_decide (getSymbol s = type token)) eqn:Hm.
  - (* the terminal on top is the current token: read the next one *)
    apply andb_true_iff in Hm as [Hs Heq]. apply bool_decide_eq_true in Heq.
    assert (s = symbolOf token) as ->
      by (destruct s as [x]; simpl in Heq; subst x; reflexivity).
    unfold nextToken in H.
    destruct (getNextToken (_tokenizer q)) as [[tok t']| |] eqn:Hnext;
      try discriminate.
    inversion H; subst. exists (consumed ++ [token]). simpl.
    split; [|split].
    + rewrite length_app. simpl. rewrite Nat.add_1_r.
      apply (readTokens_snoc _ _ (_tokenizer q)); [|exact Hnext].
      rewrite Htokenizer. exact Hread.
    + apply Forall_app. split; [exact Htokens|].
      constructor; [exact Hs|constructor].
    + rewrite Hnumbers, Hreplay, fmap_app, <- app_assoc. reflexivity.
  - (* otherwise the symbol on top is rewritten *)
    destruct (_doDerivation table (Some s) token q) as [[[] q']| |] eqn:E';
      try discriminate.
    inversion H; subst.
    apply doDerivation_inv in E'
      as (top & row & n & production & Htop & Hrow & Hcell & Hprod & ->).
    inversion Htop; subst top.
    exists consumed. simpl. split; [|split].
    + rewrite Htokenizer. exact Hread.
    + exact Htokens.
    + rewrite Hnumbers, replay_snoc, Hreplay. simpl.
      rewrite (expandLeftmost_app getLHS n _ s _ production);
        [|apply Forall_fmap; exact Htokens
         |exact (rows_are_nonterminals _ _ Hrow)
         |symmetry; exact (rows_hold_own_productions _ _ _ _ Hrow Hcell)
         |exact Hprod].
      rewrite rev_app_distr, rev_involutive.
      rewrite (pushedSymbols_word _ (epsilon_stands_alone _ _ Hprod)).
      reflexivity.
Qed.

Lemma mainLoop_replays fuel token p token' p' :
  replays getLHS t0 token p →
  mainLoop table fuel token p = Done (token', p') →
  replays getLHS t0 token' p'.
Proof.
  revert token p. induction fuel as [|fuel IH]; intros token p Hr H;
    [discriminate|].
  simpl in H. unfold bind, get in H.
  destruct (loopBody table token p) as [[tok q]| |] eqn:E; try discriminate.
  pose proof (loopBody_replays _ _ _ _ Hr E) as Hq.
  destruct (loopCondition q).
  - exact (IH _ _ Hq H).
  - inversion H; subst. exact Hq.
Qed.

End Replay.


End MoreFacts.

Import Scenario.

Lemma trailing_loop_is_idle_witness :
  parse (G:=anbn) anbnTable 8 "aabb" fresh =
    parseFinish EOF_TOKEN
      {| _stack := [sym EOF]; _productionNumbers := [1; 1; 2];
         _tokenizer := {| _string := "aabb"; _cursor := 5 |} |}.
Proof.
  exact (trailing_loop_is_idle (G:=anbn) anbnTable 8 "aabb" fresh
           (charToken "a")
           {| _stack := [sym EOF; sym "S"]; _productionNumbers := [];
              _tokenizer := {| _string := "aabb"; _cursor := 1 |} |}
           EOF_TOKEN
           {| _stack := [sym EOF]; _productionNumbers := [1; 1; 2];
              _tokenizer := {| _string := "aabb"; _cursor := 5 |} |}
           eq_refl eq_refl).
Defined.


Lemma accept_exhausts_tokens_witness :
  hasMoreTokens {| _string := "aabb"; _cursor := 5 |} = false.
Proof.
  exact (accept_exhausts_tokens (G:=anbn) anbnTable 8 "aabb" fresh accept
           {| _stack := [sym EOF]; _productionNumbers := [1; 1; 2];
              _tokenizer := {| _string := "aabb"; _cursor := 5 |} |}
           eq_refl).
Defined.

Lemma loops_end_on_the_end_marker_witness :
  anbnTable !! EOF = None ∧
  isTokenSymbol (Grammar:=anbn) {| getSymbol := EOF |} = false ∧
  parse (G:=anbn) anbnTable 8 "ab" fresh =
    Done (accept, {| _stack := [sym EOF]; _productionNumbers := [1; 2];
                     _tokenizer := {| _string := "ab"; _cursor := 3 |} |}).
Proof.
  split; [reflexivity|]. split; [reflexivity|].
  exact (proj2 (loops_end_on_the_end_marker (G:=anbn) anbnTable 8 "ab" fresh
                  EOF_TOKEN
                  {| _stack := [sym EOF]; _productionNumbers := [1; 2];
                     _tokenizer := {| _string := "ab"; _cursor := 3 |} |}
                  eq_refl eq_refl eq_refl)).
Defined.

Lemma parse_throws_only_parse_failures_witness :
  parseFailure (T:=CharTokenizer)
               (Error "Parse error: Unexpected token: c.").
Proof.
  exact (parse_throws_only_parse_failures (G:=anbn) anbnTable 8 "ac" fresh
           (Error "Parse error: Unexpected token: c.") eq_refl).
Defined.

Lemma anbn_rows (s : GrammarSymbol) (row : gmap string Z) :
  anbnTable !! getSymbol s = Some row →
  isTokenSymbol (Grammar:=anbn) s = false.
Proof.
  unfold anbnTable. intros H. apply lookup_singleton_Some in H as [H _].
  destruct s as [x]. simpl in H. subst x. reflexivity.
Qed.

Lemma anbn_own_productions :
  rowsHoldOwnProductions anbnTable (λ _, "S").
Proof.
  intros symbol tokenType row n Hrow _. unfold anbnTable in Hrow.
  apply lookup_singleton_Some in Hrow as [Hsymbol _]. exact Hsymbol.
Qed.

Lemma anbn_epsilon_stands_alone : epsilonStandsAlone (G:=anbn).
Proof.
  intros n production. simpl.
  case_bool_decide as H1; [intros [= <-]; right; repeat constructor|].
  case_bool_decide as H2; [intros [= <-]; left; reflexivity|].
  discriminate.
Qed.

(** Scenario A: the trace 1, 1, 2 replays to [a a b b]. *)
Example anbn_replay :
  replay (G:=anbn) (λ _, "S") [1; 1; 2] [sym "S"; sym EOF] =
    Some [sym "a"; sym "a"; sym "b"; sym "b"; sym EOF].
Proof. reflexivity. Qed.

(** The right-hand side of [S -> a epsilon] holds the epsilon marker and
    is not the marker alone.  With the cell [{S: {$: 1}}] the parser
    accepts the empty text with the trace 1, which derives [a]. *)
Example trailing_epsilon_accepts_the_empty_text :
  parse (G:=trailing) trailingTable 4 "" fresh =
    Done (accept, {| _stack := [sym EOF]; _productionNumbers := [1];
                     _tokenizer := {| _string := ""; _cursor := 1 |} |}) ∧
  replay (G:=trailing) (λ _, "S") [1] [sym "S"; sym EOF] =
    Some [sym "a"; sym EOF] ∧
  ¬ epsilonStandsAlone (G:=trailing).
Proof.
  split; [reflexivity|]. split; [reflexivity|].
  intros H. destruct (H 1 _ eq_refl) as [Hrhs|Hrhs]; [discriminate|].
  apply Forall_cons in Hrhs as [_ Hrhs].
  apply Forall_cons in Hrhs as [Heps _]. discriminate.
Qed.


End LLExtra.

(** ** Further properties of the tokenizer runtime *)
Module RuntimeExtra.
Import Runtime ArrayFacts RuntimeFacts.

Lemma scanNewlines_spec matched index startOffset line lineBegin :
  scanNewlines matched index startOffset line lineBegin =
    (line + countNewlines matched,
     lineStartFrom matched (startOffset + index) lineBegin).
Proof.
  revert index line lineBegin.
  induction matched as [|c rest IH]; intros index line lineBegin; simpl.
  - f_equal. lia.
  - destruct (Ascii.eqb c "010"%char); rewrite IH; f_equal; try lia;
      f_equal; lia.
Qed.

Lemma lineStartFrom_bound s index current :
  current ≤ index →
  lineStartFrom s index current ≤ index + Z.of_nat (String.length s).
Proof.
  revert index current. induction s as [|c rest IH]; intros index current H;
    simpl String.length; simpl lineStartFrom.
  - lia.
  - destruct (Ascii.eqb c "010"%char).
    + pose proof (IH (index + 1) (index + 1)). lia.
    + pose proof (IH (index + 1) current). lia.
Qed.

(** The state after a match, field by field. *)
Lemma matchedState_eq str matched t :
  matchedState str matched t =
    let endOffset := _cursor t + Z.of_nat (String.length matched) in
    let line := _currentLine t + countNewlines matched in
    let lineBegin :=
      lineStartFrom matched (_cursor t) (_currentLineBeginOffset t) in
    {| _string := _string t; _states := _states t;
       _cursor :=
         if bool_decide (str = "") && bool_decide (matched = "")
         then endOffset + 1 else endOffset;
       _currentLine := line; _currentColumn := endOffset - lineBegin;
       _currentLineBeginOffset := lineBegin;
       _tokenStartOffset := _cursor t; _tokenEndOffset := endOffset;
       _tokenStartLine := _currentLine t; _tokenEndLine := line;
       _tokenStartColumn := _cursor t - _currentLineBeginOffset t;
       _tokenEndColumn := endOffset - lineBegin;
       _tokensQueue := _tokensQueue t;
       yytext := yytext t; yyleng := yyleng t |}.
Proof.
  unfold matchedState, _captureLocation. rewrite scanNewlines_spec.
  replace (_cursor t + 0) with (_cursor t) by lia.
  destruct (bool_decide (str = "") && bool_decide (matched = ""));
    reflexivity.
Qed.

Lemma dropChars_length s : dropChars (String.length s) s = "".
Proof. induction s as [|c rest IH]; simpl; [reflexivity|exact IH]. Qed.

Lemma slice_at_end t :
  isEOF t = true → slice (_string t) (_cursor t) = "".
Proof.
  unfold isEOF, slice. intros H. apply bool_decide_eq_true in H. rewrite H.
  destruct (Z.ltb_spec (Z.of_nat (String.length (_string t))) 0); [lia|].
  rewrite Z.min_id, Nat2Z.id. apply dropChars_length.
Qed.

(** *** Texts *)

Lemma takeChars_empty n : takeChars n "" = "".
Proof. destruct n; reflexivity. Qed.

Lemma takeChars_prefix matched s :
  String.prefix matched s = true →
  takeChars (String.length matched) s = matched.
Proof.
  revert s. induction matched as [|c rest IH]; intros s H; simpl.
  - reflexivity.
  - destruct s as [|c' s]; simpl in H; [discriminate|].
    destruct (Ascii.ascii_dec c c') as [<-|]; [|discriminate].
    rewrite (IH _ H). reflexivity.
Qed.

Lemma prefix_empty matched : String.prefix matched "" = true → matched = "".
Proof. destruct matched; [reflexivity|discriminate]. Qed.

Lemma takeChars_matched n matched s :
  String.prefix matched (dropChars n s) = true →
  takeChars (n + String.length matched) s = takeChars n s +:+ matched.
Proof.
  revert s. induction n as [|n IH]; intros s H.
  - simpl in *. apply takeChars_prefix. destruct s; exact H.
  - destruct s as [|c s]; simpl in *.
    + apply prefix_empty in H. subst. reflexivity.
    + rewrite (IH _ H). reflexivity.
Qed.

Lemma takeChars_all n s :
  (String.length s ≤ n)%nat → takeChars n s = s.
Proof.
  revert n. induction s as [|c s IH]; intros n H.
  - apply takeChars_empty.
  - destruct n as [|n]; simpl in *; [lia|]. rewrite IH by lia. reflexivity.
Qed.

Lemma takeChars_length n s :
  (n ≤ String.length s)%nat → String.length (takeChars n s) = n.
Proof.
  revert s. induction n as [|n IH]; intros s H; [reflexivity|].
  destruct s as [|c s]; simpl in *; [lia|]. rewrite IH by lia. reflexivity.
Qed.

Lemma dropChars_empty n s :
  (n ≤ String.length s)%nat → dropChars n s = "" → n = String.length s.
Proof.
  revert s. induction n as [|n IH]; intros s H E.
  - simpl in E. destruct s; [reflexivity|discriminate].
  - destruct s as [|c s]; simpl in *; [lia|]. f_equal. apply IH; [lia|exact E].
Qed.

Lemma countNewlines_app a b :
  countNewlines (a +:+ b) = countNewlines a + countNewlines b.
Proof.
  induction a as [|c a IH]; simpl; [reflexivity|]. rewrite IH. lia.
Qed.

Lemma lineStartFrom_app a b index current :
  lineStartFrom (a +:+ b) index current =
    lineStartFrom b (index + Z.of_nat (String.length a))
                  (lineStartFrom a index current).
Proof.
  revert index current. induction a as [|c a IH]; intros index current.
  - simpl. f_equal. lia.
  - simpl String.append. simpl lineStartFrom. rewrite IH.
    simpl String.length. f_equal. lia.
Qed.

Lemma slice_inside s cursor :
  0 ≤ cursor ≤ Z.of_nat (String.length s) →
  slice s cursor = dropChars (Z.to_nat cursor) s.
Proof.
  intros H. unfold slice.
  destruct (Z.ltb_spec cursor 0); [lia|]. rewrite Z.min_l by lia. reflexivity.
Qed.

Section MoreTokenizing.
Variable tokensMap : gmap string Z.
Variable lexRules : list (RegExp * string).
Variable lexRulesByConditions : gmap string (list nat).
Variable handlers : gmap string Handler.

Abbreviation scanRules := (scanRules lexRules).
Abbreviation handleMatch := (handleMatch tokensMap handlers).
Abbreviation getNextToken :=
  (getNextToken tokensMap lexRules lexRulesByConditions handlers).
Abbreviation getTokens :=
  (getTokens tokensMap lexRules lexRulesByConditions handlers).
Abbreviation _toToken := (_toToken tokensMap).
Abbreviation EOF_TOKEN := (EOF_TOKEN tokensMap).
Abbreviation fails := (fails lexRules).

Lemma scanRules_all_fail rules str t :
  Forall (fails str) rules → scanRules rules str t = Done None.
Proof.
  intros H. rewrite <- (app_nil_r rules).
  rewrite (scanRules_skip lexRules _ _ _ _ H). reflexivity.
Qed.

Lemma getNextToken_past_end fuel t :
  _tokensQueue t = [] →
  hasMoreTokens t = false →
  getNextToken fuel t = Done (EOF_TOKEN, t).
Proof.
  intros Hq Hmore. rewrite getNextToken_unfold, Hq, Hmore. reflexivity.
Qed.

Lemma getTokens_past_end fuel n t :
  _tokensQueue t = [] →
  hasMoreTokens t = false →
  getTokens n fuel t = Done (replicate n EOF_TOKEN, t).
Proof.
  intros Hq Hmore. induction n as [|n IH]; simpl; [reflexivity|].
  rewrite (getNextToken_past_end fuel t Hq Hmore), IH. reflexivity.
Qed.

(** X7. At the end of the text, with nothing queued and no rule of the
    current state matching the empty rest, [getNextToken] returns the EOF
    token and steps the cursor past the end once; from then on
    [hasMoreTokens] is false and every further call returns the EOF token
    again without changing the tokenizer. *)
Theorem end_of_text_gives_EOF_forever fuel n t rules :
  _tokensQueue t = [] →
  isEOF t = true →
  lexRulesByConditions !! orUndefined (getCurrentState t) = Some rules →
  Forall (fails "") rules →
  hasMoreTokens (setCursor (_cursor t + 1) t) = false ∧
  getTokens (S n) fuel t =
    Done (replicate (S n) EOF_TOKEN, setCursor (_cursor t + 1) t).
Proof.
  intros Hq Heof Hrules Hfail.
  assert (hasMoreTokens (setCursor (_cursor t + 1) t) = false) as Hmore'.
  { unfold hasMoreTokens, isEOF in *. simpl.
    apply bool_decide_eq_true in Heof. apply bool_decide_eq_false. lia. }
  split; [exact Hmore'|].
  assert (hasMoreTokens t = true) as Hmore.
  { unfold hasMoreTokens, isEOF in *.
    apply bool_decide_eq_true in Heof. apply bool_decide_eq_true. lia. }
  simpl. rewrite getNextToken_unfold, Hq, Hmore, Hrules. simpl.
  rewrite (slice_at_end t Heof), (scanRules_all_fail _ _ _ Hfail), Heof.
  rewrite (getTokens_past_end fuel n (setCursor (_cursor t + 1) t) Hq Hmore').
  reflexivity.
Qed.

Lemma scanRules_Some_rule rules str t matched handlerName t' :
  scanRules rules str t = Done (Some (matched, handlerName, t')) →
  ∃ (index : nat) (regexp : RegExp),
    lexRules !! index = Some (regexp, handlerName) ∧
    regexp str = Some matched.
Proof.
  induction rules as [|i rules IH]; simpl; [discriminate|].
  destruct (lexRules !! i) as [[regexp name]|] eqn:Hi; [|discriminate].
  unfold _match. destruct (regexp str) as [m|] eqn:Hre; [|exact IH].
  intros H. inversion H; subst. eauto.
Qed.

Lemma scanRules_Throw rules str t e :
  scanRules rules str t = Throw e → e = TypeError.
Proof.
  induction rules as [|i rules IH]; simpl; [discriminate|].
  destruct (lexRules !! i) as [[regexp name]|];
    [|intros H; inversion H; reflexivity].
  unfold _match. destruct (regexp str); [discriminate|exact IH].
Qed.

Lemma scanRules_fuel rules str t : scanRules rules str t ≠ OutOfFuel.
Proof.
  induction rules as [|i rules IH]; simpl; [discriminate|].
  destruct (lexRules !! i) as [[regexp name]|]; [|discriminate].
  unfold _match. destruct (regexp str); [discriminate|exact IH].
Qed.

(** The state in which the handler of a match has run. *)
Lemma handled_queue stateCalls matched str t :
  _tokensQueue (calls stateCalls (setYytext matched (matchedState str matched t))) =
    _tokensQueue t.
Proof. rewrite calls_states. simpl. apply matchedState_queue. Qed.

Lemma toToken_handled name text stateCalls matched u :
  _toToken name text (calls stateCalls (setYytext matched u)) =
    _toToken name text u.
Proof. rewrite calls_states. reflexivity. Qed.

(** *** Case analysis of a call of [getNextToken] *)
Section Cases.
Variable P : Tokenizer → outcome (Token * Tokenizer) → Prop.

Hypothesis queued : ∀ t name rest,
  _tokensQueue t = name :: rest →
  P t (Done (_toToken (Some name) "" t, setTokensQueue rest t)).

Hypothesis past_end : ∀ t,
  _tokensQueue t = [] → hasMoreTokens t = false →
  P t (Done (EOF_TOKEN, t)).

Hypothesis at_end : ∀ t,
  _tokensQueue t = [] → hasMoreTokens t = true → isEOF t = true →
  P t (Done (EOF_TOKEN, setCursor (_cursor t + 1) t)).

Hypothesis type_error : ∀ t,
  _tokensQueue t = [] → hasMoreTokens t = true → P t (Throw TypeError).

Hypothesis unexpected : ∀ t,
  _tokensQueue t = [] → hasMoreTokens t = true → isEOF t = false →
  P t (throwUnexpectedToken
         ((λ c, String c EmptyString) <$>
            String.get 0 (slice (_string t) (_cursor t)))
         (_currentLine t) (_currentColumn t) t).

Hypothesis out_of_fuel : ∀ t, P t OutOfFuel.

Hypothesis skipped : ∀ t (index : nat) (regexp : RegExp) handlerName matched
                       tokenHandler stateCalls result o,
  _tokensQueue t = [] → hasMoreTokens t = true →
  lexRules !! index = Some (regexp, handlerName) →
  regexp (slice (_string t) (_cursor t)) = Some matched →
  handlers !! handlerName = Some tokenHandler →
  tokenHandler
    (setYytext matched (matchedState (slice (_string t) (_cursor t)) matched t)) =
    (stateCalls, result) →
  isFalsy result = true →
  P (calls stateCalls
       (setYytext matched
          (matchedState (slice (_string t) (_cursor t)) matched t))) o →
  P t o.

Hypothesis single : ∀ t (index : nat) (regexp : RegExp) handlerName matched
                      tokenHandler stateCalls name,
  _tokensQueue t = [] → hasMoreTokens t = true →
  lexRules !! index = Some (regexp, handlerName) →
  regexp (slice (_string t) (_cursor t)) = Some matched →
  handlers !! handlerName = Some tokenHandler →
  tokenHandler
    (setYytext matched (matchedState (slice (_string t) (_cursor t)) matched t)) =
    (stateCalls, ReturnsType name) →
  name ≠ "" →
  P t (Done
         (_toToken (Some name) matched
            (matchedState (slice (_string t) (_cursor t)) matched t),
          calls stateCalls
            (setYytext matched
               (matchedState (slice (_string t) (_cursor t)) matched t)))).

Hypothesis several : ∀ t (index : nat) (regexp : RegExp) handlerName matched
                       tokenHandler stateCalls names,
  _tokensQueue t = [] → hasMoreTokens t = true →
  lexRules !! index = Some (regexp, handlerName) →
  regexp (slice (_string t) (_cursor t)) = Some matched →
  handlers !! handlerName = Some tokenHandler →
  tokenHandler
    (setYytext matched (matchedState (slice (_string t) (_cursor t)) matched t)) =
    (stateCalls, ReturnsTypes names) →
  P t (Done
         (_toToken (head names) matched
            (matchedState (slice (_string t) (_cursor t)) matched t),
          setTokensQueue (tail names)
            (calls stateCalls
               (setYytext matched
                  (matchedState (slice (_string t) (_cursor t)) matched t))))).

Lemma handleMatch_cases again t (index : nat) (regexp : RegExp)
      handlerName matched :
  _tokensQueue t = [] → hasMoreTokens t = true →
  lexRules !! index = Some (regexp, handlerName) →
  regexp (slice (_string t) (_cursor t)) = Some matched →
  (∀ u, P u (again u)) →
  P t (handleMatch again handlerName matched
         (matchedState (slice (_string t) (_cursor t)) matched t)).
Proof.
  intros Hq Hmore Hi Hre Hagain. unfold handleMatch.
  destruct (handlers !! handlerName) as [tokenHandler|] eqn:Hh;
    [|apply type_error; assumption].
  destruct (tokenHandler _) as [stateCalls result] eqn:Hres.
  destruct (isFalsy result) eqn:Hfalsy.
  - eapply skipped; eauto.
  - destruct result as [|name|names]; [discriminate| |].
    + simpl in Hfalsy. apply bool_decide_eq_false in Hfalsy.
      rewrite toToken_handled. eapply single; eauto.
    + pose proof (several t index regexp handlerName matched tokenHandler
                    stateCalls names Hq Hmore Hi Hre Hh Hres) as H.
      pose proof (handled_queue stateCalls matched
                    (slice (_string t) (_cursor t)) t) as Hq'.
      rewrite Hq in Hq'. rewrite Hq', app_nil_r.
      case_bool_decide as Hlen.
      * change (_toToken (head names) matched (setTokensQueue ?q ?u))
          with (_toToken (head names) matched u).
        rewrite toToken_handled. exact H.
      * rewrite toToken_handled.
        destruct (tail names) as [|x l]; [|simpl in Hlen; lia].
        revert H Hq'.
        generalize (calls stateCalls
                      (setYytext matched
                         (matchedState (slice (_string t) (_cursor t))
                            matched t))).
        intros u H Hq'. destruct u; simpl in *; subst. exact H.
Qed.

Lemma getNextToken_cases fuel t : P t (getNextToken fuel t).
Proof.
  revert t.
  assert (∀ again, (∀ u, P u (again u)) → ∀ t,
             P t (match _tokensQueue t with
                  | tokenType :: rest =>
                      Done (_toToken (Some tokenType) ""
                              (setTokensQueue rest t),
                            setTokensQueue rest t)
                  | [] =>
                      if negb (hasMoreTokens t) then Done (EOF_TOKEN, t)
                      else
                        match lexRulesByConditions !!
                                orUndefined (getCurrentState t) with
                        | None => Throw TypeError
                        | Some lexRulesForState =>
                            match scanRules lexRulesForState
                                    (slice (_string t) (_cursor t)) t with
                            | Done (Some (matched, handlerName, t')) =>
                                handleMatch again handlerName matched t'
                            | Done None =>
                                if isEOF t
                                then Done (EOF_TOKEN,
                                           setCursor (_cursor t + 1) t)
                                else throwUnexpectedToken
                                       ((λ c, String c EmptyString) <$>
                                          String.get 0
                                            (slice (_string t) (_cursor t)))
                                       (_currentLine t) (_currentColumn t) t
                            | Throw e => Throw e
                            | OutOfFuel => OutOfFuel
                            end
                        end
                  end)) as Hbody.
  { intros again Hagain t.
    destruct (_tokensQueue t) as [|name rest] eqn:Hq;
      [|apply (queued t name rest Hq)].
    destruct (hasMoreTokens t) eqn:Hmore; simpl;
      [|apply past_end; assumption].
    destruct (lexRulesByConditions !! orUndefined (getCurrentState t))
      as [rules|]; [|apply type_error; assumption].
    destruct (scanRules rules (slice (_string t) (_cursor t)) t)
      as [[[[matched handlerName] t']|]| |] eqn:Hscan.
    - pose proof (scanRules_Some _ _ _ _ _ _ _ Hscan) as ->.
      apply scanRules_Some_rule in Hscan as (index & regexp & Hi & Hre).
      eapply handleMatch_cases; eauto.
    - destruct (isEOF t) eqn:Heof; [apply at_end|apply unexpected];
        assumption.
    - apply scanRules_Throw in Hscan. subst. apply type_error; assumption.
    - apply out_of_fuel. }
  induction fuel as [|fuel IH]; intros t; rewrite getNextToken_unfold;
    apply Hbody.
  - intros u. apply out_of_fuel.
  - exact IH.
Qed.

End Cases.

(** *** Offsets *)

Lemma initString_offsetsOk str t : offsetsOk (initString str t).
Proof. unfold offsetsOk. simpl. lia. Qed.

Lemma handled_offsets stateCalls matched str t :
  offsetsOk t →
  let u := calls stateCalls (setYytext matched (matchedState str matched t)) in
  offsetsOk u ∧ _cursor t ≤ _cursor u ∧
  _tokenStartOffset (matchedState str matched t) = _cursor t ∧
  _tokenEndOffset (matchedState str matched t) =
    _cursor t + Z.of_nat (String.length matched) ∧
  _cursor t + Z.of_nat (String.length matched) ≤ _cursor u.
Proof.
  intros (Hline & Hend & Hcolumn). simpl. rewrite calls_states.
  rewrite matchedState_eq. unfold offsetsOk. simpl.
  pose proof (lineStartFrom_bound matched _ _ Hline) as Hbound.
  destruct (bool_decide (str = "") && bool_decide (matched = "")); lia.
Qed.

Lemma throwUnexpectedToken_column {A : Type} symbol line column t :
  0 ≤ column →
  ∃ message,
    @throwUnexpectedToken A symbol line column t = Throw (SyntaxError message).
Proof.
  intros H. unfold throwUnexpectedToken.
  destruct (Z.ltb_spec column 0); [lia|]. eauto.
Qed.

Lemma getNextToken_offsets fuel t :
  offsetsOk t →
  match getNextToken fuel t with
  | Done (token, t') =>
      offsetsOk t' ∧
      (_tokensQueue t = [] →
       token = EOF_TOKEN ∨
       (_cursor t ≤ startOffset token ∧
        startOffset token ≤ endOffset token ∧
        endOffset token ≤ _cursor t'))
  | Throw e => e = TypeError ∨ ∃ message, e = SyntaxError message
  | OutOfFuel => True
  end.
Proof.
  revert fuel t.
  refine (getNextToken_cases
            (λ t o, offsetsOk t →
                    match o with
                    | Done (token, t') =>
                        offsetsOk t' ∧
                        (_tokensQueue t = [] →
                         token = EOF_TOKEN ∨
                         (_cursor t ≤ startOffset token ∧
                          startOffset token ≤ endOffset token ∧
                          endOffset token ≤ _cursor t'))
                    | Throw e =>
                        e = TypeError ∨ ∃ message, e = SyntaxError message
                    | OutOfFuel => True
                    end) _ _ _ _ _ _ _ _ _).
  - intros t name rest Hq Hok. split; [exact Hok|]. congruence.
  - intros t _ _ Hok. split; [exact Hok|]. auto.
  - intros t _ _ _ (H1 & H2 & H3). split; [|auto].
    unfold offsetsOk. simpl. lia.
  - intros t _ _ _. auto.
  - intros t _ _ _ (_ & _ & Hcolumn).
    destruct (throwUnexpectedToken_column (A:=Token * Tokenizer)
                ((λ c, String c EmptyString) <$>
                   String.get 0 (slice (_string t) (_cursor t)))
                (_currentLine t) (_currentColumn t) t Hcolumn) as [message ->].
    eauto.
  - intros t _. exact I.
  - intros t index regexp handlerName matched tokenHandler stateCalls result o
           Hq _ _ _ _ _ _ IH Hok.
    destruct (handled_offsets stateCalls matched
                (slice (_string t) (_cursor t)) t Hok)
      as (Hok' & Hcursor & _).
    specialize (IH Hok'). destruct o as [[token t']| |]; try exact IH.
    destruct IH as [Ht' IH]. split; [exact Ht'|]. intros _.
    rewrite handled_queue in IH. destruct (IH Hq) as [->|H]; [auto|].
    right. lia.
  - intros t index regexp handlerName matched tokenHandler stateCalls name
           _ _ _ _ _ _ _ Hok.
    destruct (handled_offsets stateCalls matched
                (slice (_string t) (_cursor t)) t Hok)
      as (Hok' & Hcursor & Hstart & Hend & Hle).
    split; [exact Hok'|]. intros _. right.
    cbn [startOffset endOffset Runtime._toToken _cursor setTokensQueue].
    rewrite Hstart, Hend. lia.
  - intros t index regexp handlerName matched tokenHandler stateCalls names
           _ _ _ _ _ _ Hok.
    destruct (handled_offsets stateCalls matched
                (slice (_string t) (_cursor t)) t Hok)
      as (Hok' & Hcursor & Hstart & Hend & Hle).
    split; [exact Hok'|]. intros _. right.
    cbn [startOffset endOffset Runtime._toToken _cursor setTokensQueue].
    rewrite Hstart, Hend. lia.
Qed.

(** X8. On a tokenizer whose offsets are in order, as [initString] leaves
    them, a call that returns keeps them in order, and a token made from a
    new match (nothing was queued and it is not the EOF token) starts at or
    after the cursor of the call, hence at or after the end of the match
    before it, ends at or after its start, and ends at or before the new
    cursor: matches, skipped ones included, never overlap. *)
Theorem tokens_do_not_overlap fuel t token t' :
  offsetsOk t →
  getNextToken fuel t = Done (token, t') →
  offsetsOk t' ∧
  (_tokensQueue t = [] →
   token = EOF_TOKEN ∨
   (_tokenEndOffset t ≤ startOffset token ∧
    _cursor t ≤ startOffset token ∧
    startOffset token ≤ endOffset token ∧
    endOffset token ≤ _cursor t')).
Proof.
  intros Hok H. pose proof (getNextToken_offsets fuel t Hok) as Hall.
  rewrite H in Hall. destruct Hall as [Ht' Hall]. split; [exact Ht'|].
  intros Hq. destruct (Hall Hq) as [->|Hfresh]; [auto|].
  right. destruct Hok as (_ & Hend & _). lia.
Qed.

(** X9. On such a tokenizer, what the code of [getNextToken] throws is
    the [TypeError] of a missing rule list, rule or handler or the
    [SyntaxError] of [throwUnexpectedToken]: the column it pads with is
    never negative, so [' '.repeat(column)] does not throw its
    [RangeError].  The exhaustion of the call stack by nested skipped
    matches is the outcome [OutOfFuel], not a [Throw]. *)
Theorem getNextToken_throws_type_or_syntax_error fuel t e :
  offsetsOk t →
  getNextToken fuel t = Throw e →
  e = TypeError ∨ ∃ message, e = SyntaxError message.
Proof.
  intros Hok H. pose proof (getNextToken_offsets fuel t Hok) as Hall.
  rewrite H in Hall. exact Hall.
Qed.

(** *** Termination *)

Lemma handled_fields stateCalls matched str t :
  let u := calls stateCalls (setYytext matched (matchedState str matched t)) in
  _string u = _string t ∧ _tokensQueue u = _tokensQueue t ∧
  _cursor u =
    _cursor t + Z.of_nat (String.length matched) +
    (if bool_decide (str = "") && bool_decide (matched = "") then 1 else 0).
Proof.
  simpl. rewrite calls_states, matchedState_eq. simpl.
  destruct (bool_decide (str = "") && bool_decide (matched = ""));
    repeat split; lia.
Qed.

Lemma length_nonempty (s : string) : s ≠ "" → (1 ≤ String.length s)%nat.
Proof. destruct s; [congruence|simpl; lia]. Qed.

(** X10. When no rule matches the empty text, [getNextToken] returns or
    throws: every skipped match moves the cursor forward, so the number of
    recursive calls is at most the number of characters left plus one. *)
Theorem getNextToken_terminates fuel t :
  matchesAreNonEmpty lexRules →
  (Z.to_nat (Z.of_nat (String.length (_string t)) - _cursor t + 1) ≤ fuel)%nat →
  getNextToken fuel t ≠ OutOfFuel.
Proof.
  intros Hne. revert t. induction fuel as [|fuel IH]; intros t Hfuel;
    rewrite getNextToken_unfold;
    (destruct (_tokensQueue t) as [|name rest] eqn:Hq; [|discriminate]);
    (destruct (hasMoreTokens t) eqn:Hmore; simpl; [|discriminate]);
    (destruct (lexRulesByConditions !! orUndefined (getCurrentState t))
       as [rules|]; [|discriminate]);
    (destruct (scanRules rules (slice (_string t) (_cursor t)) t)
       as [[[[matched handlerName] t']|]| |] eqn:Hscan;
     [ | destruct (isEOF t); [discriminate|];
         unfold throwUnexpectedToken;
         destruct (_ <? 0); [|destruct (_ <? 0)]; discriminate
       | discriminate
       | contradiction (scanRules_fuel _ _ _ Hscan) ]);
    apply bool_decide_eq_true in Hmore;
    pose proof (scanRules_Some _ _ _ _ _ _ _ Hscan) as ->;
    apply scanRules_Some_rule in Hscan as (index & regexp & Hi & Hre);
    pose proof (Hne _ _ _ _ _ Hi Hre) as Hm;
    pose proof (length_nonempty _ Hm) as Hlen;
    unfold handleMatch;
    (destruct (handlers !! handlerName) as [tokenHandler|]; [|discriminate]);
    (destruct (tokenHandler _) as [stateCalls result]);
    try lia.
  destruct (handled_fields stateCalls matched
              (slice (_string t) (_cursor t)) t) as (Hs & _ & Hc).
  rewrite (bool_decide_eq_false_2 (matched = "")), andb_false_r in Hc
    by exact Hm.
  assert (getNextToken fuel
            (calls stateCalls
               (setYytext matched
                  (matchedState (slice (_string t) (_cursor t)) matched t)))
          ≠ OutOfFuel) as Hagain by (apply IH; rewrite Hs, Hc; lia).
  destruct result as [|name|names]; simpl; try exact Hagain;
    try discriminate.
  case_bool_decide; [exact Hagain|discriminate].
Qed.

Lemma scanRules_same_rule rules str t u matched handlerName t' :
  scanRules rules str t = Done (Some (matched, handlerName, t')) →
  scanRules rules str u =
    Done (Some (matched, handlerName, matchedState str matched u)).
Proof.
  induction rules as [|i rules IH]; simpl; [discriminate|].
  destruct (lexRules !! i) as [[regexp name]|]; [|discriminate].
  unfold _match. destruct (regexp str) as [m|]; [|exact IH].
  intros H. inversion H; subst. reflexivity.
Qed.

(** X11. When the first rule that matches matches the empty text while
    input remains, and its handler always skips without changing the
    state, [getNextToken] never returns: the recursive call finds the
    tokenizer at the same cursor in the same state, whatever the fuel. *)
Theorem empty_match_skip_never_returns fuel t rules handlerName t'
        tokenHandler :
  _tokensQueue t = [] →
  hasMoreTokens t = true →
  slice (_string t) (_cursor t) ≠ "" →
  lexRulesByConditions !! orUndefined (getCurrentState t) = Some rules →
  scanRules rules (slice (_string t) (_cursor t)) t =
    Done (Some ("", handlerName, t')) →
  handlers !! handlerName = Some tokenHandler →
  (∀ u, ∃ result, tokenHandler u = ([], result) ∧ isFalsy result = true) →
  getNextToken fuel t = OutOfFuel.
Proof.
  intros Hq Hmore Hstr Hrules Hscan Hh Hskip.
  assert (∀ u, _tokensQueue u = [] → _cursor u = _cursor t →
               _string u = _string t → _states u = _states t →
               getNextToken fuel u = OutOfFuel) as Hall.
  { induction fuel as [|fuel IH]; intros u Hq' Hc Hs Hst;
      rewrite getNextToken_unfold, Hq';
      (replace (hasMoreTokens u) with true
         by (unfold hasMoreTokens in *; rewrite Hc, Hs; symmetry; exact Hmore));
      simpl; unfold getCurrentState; rewrite Hst;
      fold (getCurrentState t); rewrite Hrules, Hc, Hs;
      rewrite (scanRules_same_rule _ _ t u _ _ _ Hscan);
      unfold handleMatch; rewrite Hh;
      (destruct (Hskip (setYytext ""
                          (matchedState (slice (_string t) (_cursor t)) "" u)))
         as (result & -> & Hfalsy));
      rewrite Hfalsy; [reflexivity|].
    destruct (handled_fields [] "" (slice (_string t) (_cursor t)) u)
      as (Hs' & Hq'' & Hc').
    rewrite (bool_decide_eq_false_2 (slice (_string t) (_cursor t) = "")) in Hc'
      by exact Hstr.
    apply IH.
    - rewrite Hq''. exact Hq'.
    - rewrite Hc'. simpl. lia.
    - rewrite Hs'. exact Hs.
    - rewrite calls_states. simpl. rewrite matchedState_states. exact Hst. }
  apply Hall; [exact Hq|reflexivity|reflexivity|reflexivity].
Qed.

(** *** A tokenizer can be used again *)

Lemma agree_matched str matched t u :
  agree t u →
  setYytext matched (matchedState str matched t) =
    setYytext matched (matchedState str matched u).
Proof.
  unfold agree. intros H. rewrite !matchedState_eq.
  destruct t, u. unfold setYytext in *. simpl in *. inversion H; subst.
  reflexivity.
Qed.

Lemma agreeOutcome_refl o : agreeOutcome o o.
Proof. destruct o as [[token t]| |]; simpl; auto. split; reflexivity. Qed.

Lemma scanRules_agree rules str t u :
  match scanRules rules str t, scanRules rules str u with
  | Done (Some (matched, handlerName, t')),
    Done (Some (matched', handlerName', u')) =>
      matched = matched' ∧ handlerName = handlerName' ∧
      t' = matchedState str matched t ∧ u' = matchedState str matched u
  | Done None, Done None => True
  | Throw e, Throw e' => e = e'
  | _, _ => False
  end.
Proof.
  induction rules as [|i rules IH]; simpl; [exact I|].
  destruct (lexRules !! i) as [[regexp name]|]; [|reflexivity].
  unfold _match. destruct (regexp str) as [m|]; [|exact IH]. auto.
Qed.

Lemma getNextToken_agree fuel t u :
  agree t u →
  agreeOutcome (getNextToken fuel t) (getNextToken fuel u).
Proof.
  intros Hagree. pose proof Hagree as Hfields. unfold agree in Hfields.
  rewrite !getNextToken_unfold.
  assert (_tokensQueue t = _tokensQueue u) as Hq
    by exact (f_equal _tokensQueue Hfields).
  assert (_cursor t = _cursor u) as Hc by exact (f_equal _cursor Hfields).
  assert (_string t = _string u) as Hs by exact (f_equal _string Hfields).
  assert (_states t = _states u) as Hst by exact (f_equal _states Hfields).
  assert (_currentLine t = _currentLine u) as Hl
    by exact (f_equal _currentLine Hfields).
  assert (_currentColumn t = _currentColumn u) as Hcol
    by exact (f_equal _currentColumn Hfields).
  assert (∀ name text, _toToken name text t = _toToken name text u) as Htok.
  { intros name text. unfold Runtime._toToken. f_equal.
    - exact (f_equal _tokenStartOffset Hfields).
    - exact (f_equal _tokenEndOffset Hfields).
    - exact (f_equal _tokenStartLine Hfields).
    - exact (f_equal _tokenEndLine Hfields).
    - exact (f_equal _tokenStartColumn Hfields).
    - exact (f_equal _tokenEndColumn Hfields). }
  rewrite <- Hq. destruct (_tokensQueue t) as [|name rest].
  - unfold hasMoreTokens, isEOF, getCurrentState, throwUnexpectedToken.
    rewrite <- Hc, <- Hs, <- Hst, <- Hl, <- Hcol.
    destruct (bool_decide (_cursor t ≤ _)); simpl;
      [|split; [reflexivity|exact Hagree]].
    destruct (lexRulesByConditions !! _) as [rules|]; [|reflexivity].
    pose proof (scanRules_agree rules (slice (_string t) (_cursor t)) t u)
      as Hscan.
    destruct (scanRules rules _ t) as [[[[m h] t']|]| |];
      destruct (scanRules rules _ u) as [[[[m' h'] u']|]| |];
      try contradiction; try exact Hscan.
    + destruct Hscan as (<- & <- & -> & ->).
      unfold handleMatch. rewrite (agree_matched _ m t u Hagree).
      apply agreeOutcome_refl.
    + destruct (bool_decide (_cursor t = _)).
      * split; [reflexivity|]. unfold agree, setYytext in *. simpl.
        destruct t, u. simpl in *. inversion Hfields; subst. reflexivity.
      * destruct (_ <? 0); [reflexivity|].
        destruct (_ <? 0); reflexivity.
  - split; [apply Htok|]. unfold agree, setYytext in *. simpl.
    destruct t, u. simpl in *. inversion Hfields; subst. reflexivity.
Qed.

Lemma getTokens_agree n fuel t u :
  agree t u →
  tokensOf (getTokens n fuel t) = tokensOf (getTokens n fuel u).
Proof.
  revert t u. induction n as [|n IH]; intros t u Hagree; [reflexivity|].
  simpl. pose proof (getNextToken_agree fuel t u Hagree) as H.
  destruct (getNextToken fuel t) as [[token t']| |];
    destruct (getNextToken fuel u) as [[token' u']| |];
    simpl in H; try contradiction; try reflexivity.
  - destruct H as [<- H]. specialize (IH t' u' H).
    destruct (getTokens n fuel t') as [[tokens t'']| |];
      destruct (getTokens n fuel u') as [[tokens' u'']| |];
      simpl in *; try discriminate; try reflexivity; congruence.
  - simpl. congruence.
Qed.

(** X12. The tokens read after [initString] do not depend on what the
    instance was used for before: two instances given the same text return
    the same tokens, or throw the same exception, call after call.  The
    fields [initString] resets are all the fields tokenizing reads;
    [yytext] and [yyleng], which it leaves, are set anew before a handler
    runs. *)
Theorem initString_forgets_the_previous_run n fuel str t1 t2 :
  tokensOf (getTokens n fuel (initString str t1)) =
    tokensOf (getTokens n fuel (initString str t2)).
Proof. apply getTokens_agree. reflexivity. Qed.

(** *** Lines and columns *)

Lemma initString_linesOk str t : linesOk (initString str t).
Proof. unfold linesOk, textBefore. simpl. repeat split; try lia. Qed.

Lemma handled_lines stateCalls matched t :
  hasMoreTokens t = true →
  linesOk t →
  String.prefix matched (slice (_string t) (_cursor t)) = true →
  linesOk (calls stateCalls
             (setYytext matched
                (matchedState (slice (_string t) (_cursor t)) matched t))).
Proof.
  intros Hmore (Hc & Hline & Hbegin & Hs & He & Hsl & Hscol & Hel & Hecol)
         Hprefix.
  apply bool_decide_eq_true in Hmore.
  set (str := slice (_string t) (_cursor t)) in *.
  set (before := textBefore (_cursor t) t) in *.
  set (endOffset := _cursor t + Z.of_nat (String.length matched)).
  assert (Z.of_nat (String.length before) = _cursor t) as Hlen.
  { unfold before, textBefore. rewrite takeChars_length by lia. lia. }
  assert (str = dropChars (Z.to_nat (_cursor t)) (_string t)) as Hstr
    by (apply slice_inside; lia).
  assert (textBefore endOffset t = before +:+ matched) as Hend.
  { unfold textBefore, endOffset.
    rewrite Z2Nat.inj_add, Nat2Z.id by lia.
    apply takeChars_matched. rewrite <- Hstr. exact Hprefix. }
  assert (textBefore
            (if bool_decide (str = "") && bool_decide (matched = "")
             then endOffset + 1 else endOffset) t = before +:+ matched)
    as Hcursor.
  { destruct (bool_decide (str = "") && bool_decide (matched = "")) eqn:Hb;
      [|exact Hend].
    apply andb_true_iff in Hb as [Hb1 Hb2].
    apply bool_decide_eq_true in Hb1. apply bool_decide_eq_true in Hb2.
    rewrite <- Hend. unfold textBefore, endOffset. rewrite Hb2. simpl.
    rewrite Hstr in Hb1. apply dropChars_empty in Hb1; [|lia].
    rewrite !takeChars_all by lia. reflexivity. }
  assert (lineStart (before +:+ matched) =
            lineStartFrom matched (_cursor t) (_currentLineBeginOffset t))
    as Hstart.
  { unfold lineStart. rewrite lineStartFrom_app, Z.add_0_l, Hlen.
    fold (lineStart before). rewrite <- Hbegin. reflexivity. }
  rewrite calls_states, matchedState_eq. unfold linesOk, textBefore.
  cbn [_cursor _currentLine _currentLineBeginOffset _tokenStartOffset
       _tokenEndOffset _tokenStartLine _tokenStartColumn _tokenEndLine
       _tokenEndColumn _string setStates setYytext].
  fold str. fold endOffset.
  fold (textBefore endOffset t).
  fold (textBefore (if bool_decide (str = "") && bool_decide (matched = "")
                    then endOffset + 1 else endOffset) t).
  fold (textBefore (_cursor t) t). fold before.
  rewrite Hcursor, Hend, countNewlines_app, Hstart, <- Hline.
  repeat split; try lia.
  destruct (bool_decide (str = "") && bool_decide (matched = ""));
    unfold endOffset; lia.
Qed.

Lemma toToken_lines name text t :
  linesOk t → tokenLinesOk (_string t) (_toToken name text t).
Proof.
  intros (_ & _ & _ & _ & _ & Hsl & Hscol & Hel & Hecol).
  unfold tokenLinesOk. simpl. auto.
Qed.

Lemma getNextToken_lines fuel t :
  anchored lexRules →
  linesOk t →
  match getNextToken fuel t with
  | Done (token, t') =>
      linesOk t' ∧ _string t' = _string t ∧
      (token = EOF_TOKEN ∨ tokenLinesOk (_string t) token)
  | _ => True
  end.
Proof.
  intros Hanchored. revert fuel t.
  refine (getNextToken_cases
            (λ t o, linesOk t →
                    match o with
                    | Done (token, t') =>
                        linesOk t' ∧ _string t' = _string t ∧
                        (token = EOF_TOKEN ∨ tokenLinesOk (_string t) token)
                    | _ => True
                    end) _ _ _ _ _ _ _ _ _).
  - intros t name rest _ Hok. split; [exact Hok|]. split; [reflexivity|].
    right. apply toToken_lines. exact Hok.
  - intros t _ _ Hok. auto.
  - intros t _ Hmore Heof Hok. split; [|auto].
    apply bool_decide_eq_true in Heof.
    destruct Hok as (Hc & Hline & Hbegin & Hrest).
    unfold linesOk, textBefore in *. simpl.
    replace (takeChars (Z.to_nat (_cursor t + 1)) (_string t))
      with (takeChars (Z.to_nat (_cursor t)) (_string t))
      by (rewrite !takeChars_all by lia; reflexivity).
    repeat split; try lia; tauto.
  - intros t _ _ _. exact I.
  - intros t _ _ _ _.
    destruct (throwUnexpectedToken _ _ _ _) as [[? ?]| |] eqn:E; try exact I.
    unfold throwUnexpectedToken in E.
    destruct (_ <? 0); [discriminate|]. destruct (_ <? 0); discriminate.
  - intros t _. exact I.
  - intros t index regexp handlerName matched tokenHandler stateCalls result o
           _ Hmore Hi Hre _ _ _ IH Hok.
    pose proof (handled_lines stateCalls matched t Hmore Hok
                  (Hanchored _ _ _ _ _ Hi Hre)) as Hok'.
    specialize (IH Hok'). destruct o as [[token t']| |]; try exact I.
    destruct (handled_fields stateCalls matched
                (slice (_string t) (_cursor t)) t) as (Hs & _).
    rewrite Hs in IH. exact IH.
  - intros t index regexp handlerName matched tokenHandler stateCalls name
           _ Hmore Hi Hre _ _ _ Hok.
    pose proof (handled_lines stateCalls matched t Hmore Hok
                  (Hanchored _ _ _ _ _ Hi Hre)) as Hok'.
    destruct (handled_fields stateCalls matched
                (slice (_string t) (_cursor t)) t) as (Hs & _).
    split; [exact Hok'|]. split; [exact Hs|]. right.
    rewrite <- (toToken_handled (Some name) matched stateCalls matched).
    pose proof (toToken_lines (Some name) matched _ Hok') as H.
    rewrite Hs in H. exact H.
  - intros t index regexp handlerName matched tokenHandler stateCalls names
           _ Hmore Hi Hre _ _ Hok.
    pose proof (handled_lines stateCalls matched t Hmore Hok
                  (Hanchored _ _ _ _ _ Hi Hre)) as Hok'.
    destruct (handled_fields stateCalls matched
                (slice (_string t) (_cursor t)) t) as (Hs & _).
    split; [exact Hok'|]. split; [exact Hs|]. right.
    rewrite <- (toToken_handled (head names) matched stateCalls matched).
    pose proof (toToken_lines (head names) matched _ Hok') as H.
    rewrite Hs in H. exact H.
Qed.

(** X13. Let every rule match at the start of the text it is given.  On a
    tokenizer whose line tracking agrees with the text before its cursor,
    as [initString] leaves it, a call that returns keeps that agreement,
    and every token other than the EOF token carries, for its start and
    for its end, the line (counted from 1) and the column (counted from 0)
    that a count of the newlines of the input before that offset gives. *)
Theorem token_lines_match_the_input fuel t token t' :
  anchored lexRules →
  linesOk t →
  getNextToken fuel t = Done (token, t') →
  linesOk t' ∧ _string t' = _string t ∧
  (token = EOF_TOKEN ∨ tokenLinesOk (_string t) token).
Proof.
  intros Hanchored Hok H.
  pose proof (getNextToken_lines fuel t Hanchored Hok) as Hall.
  rewrite H in Hall. exact Hall.
Qed.

(** *** The state stack is a stack *)

Lemma calls_app cs1 cs2 t : calls (cs1 ++ cs2) t = calls cs2 (calls cs1 t).
Proof. unfold calls. apply foldl_app. Qed.

Lemma pushes_length states t :
  length (_states (calls (PushState <$> states) t)) =
    (length (_states t) + length states)%nat.
Proof.
  revert t. induction states as [|x states IH]; intros t; simpl; [lia|].
  change (calls (PushState x :: (PushState <$> states)) t)
    with (calls (PushState <$> states) (pushState x t)).
  rewrite IH. simpl. rewrite length_app. simpl. lia.
Qed.

(** X14. After [initString], or on any tokenizer with a state on its stack,
    pushing any number of states and then calling [popState] as many times
    gives back the tokenizer as it was. *)
Theorem pops_undo_pushes states t :
  (1 ≤ length (_states t))%nat →
  calls (replicate (length states) PopState) (calls (PushState <$> states) t) = t.
Proof.
  intros Hlen. induction states as [|x states IH] using rev_ind.
  - reflexivity.
  - rewrite fmap_app, calls_app, length_app. simpl.
    rewrite Nat.add_1_r. simpl.
    change (calls (PopState :: replicate (length states) PopState) ?u)
      with (calls (replicate (length states) PopState) (call u PopState)).
    change (calls [PushState x] ?u) with (pushState x u).
    simpl call. rewrite popState_pushState; [exact IH|].
    rewrite pushes_length. lia.
Qed.

End MoreTokenizing.

(** *** Runs on the concrete lexical grammars *)
Import LexScenario.

Lemma leadingSpaces_prefix s : String.prefix (leadingSpaces s) s = true.
Proof.
  induction s as [|c s IH]; simpl; [reflexivity|].
  destruct (Ascii.eqb c " "%char || Ascii.eqb c "010"%char); [|reflexivity].
  simpl. destruct (Ascii.ascii_dec c c); [exact IH|congruence].
Qed.

Lemma literal_matched lit s matched :
  literal lit s = Some matched → matched = lit ∧ String.prefix lit s = true.
Proof.
  unfold literal. destruct (String.prefix lit s); [|discriminate].
  intros H. inversion H. auto.
Qed.

Lemma whitespace_matched s matched :
  whitespace s = Some matched → matched = leadingSpaces s ∧ matched ≠ "".
Proof.
  unfold whitespace. destruct (leadingSpaces s); [discriminate|].
  intros H. inversion H. split; [reflexivity|discriminate].
Qed.

Lemma lexRules_anchored : anchored lexRules.
Proof.
  intros index regexp handlerName str matched Hi Hre.
  destruct index as [|[|[|[|index]]]]; simpl in Hi; inversion Hi; subst;
    try (apply literal_matched in Hre as [-> H]; exact H).
  apply whitespace_matched in Hre as [-> _]. apply leadingSpaces_prefix.
Qed.

Lemma lexRules_nonEmpty : matchesAreNonEmpty lexRules.
Proof.
  intros index regexp handlerName str matched Hi Hre.
  destruct index as [|[|[|[|index]]]]; simpl in Hi; inversion Hi; subst;
    try (apply literal_matched in Hre as [-> _]; discriminate).
  apply whitespace_matched in Hre as [_ H]. exact H.
Qed.

Lemma lexRules_fail_on_empty :
  Forall (fails lexRules "") [0; 1; 2; 3]%nat.
Proof.
  repeat constructor; eexists _, _; split; reflexivity.
Qed.

Lemma end_of_text_gives_EOF_forever_witness :
  nextN 3 0 (initString "" blank) =
    Done (replicate 3 (EOF_TOKEN tokensMap),
          setCursor 1 (initString "" blank)).
Proof.
  exact (proj2 (end_of_text_gives_EOF_forever tokensMap lexRules
                  lexRulesByConditions handlers 0 2 (initString "" blank)
                  [0; 1; 2; 3]%nat eq_refl eq_refl eq_refl
                  lexRules_fail_on_empty)).
Defined.

Lemma tokens_do_not_overlap_witness :
  ∃ token t',
    next 1 (initString " a" blank) = Done (token, t') ∧
    startOffset token = 1 ∧ endOffset token = 2 ∧ _cursor t' = 2 ∧
    offsetsOk t'.
Proof.
  eexists _, _. split; [vm_compute; reflexivity|].
  split; [reflexivity|]. split; [reflexivity|]. split; [reflexivity|].
  refine (proj1 (tokens_do_not_overlap tokensMap lexRules lexRulesByConditions
                   handlers 1 (initString " a" blank) _ _ _ _)).
  - apply initString_offsetsOk.
  - vm_compute. reflexivity.
Defined.

Lemma getNextToken_throws_type_or_syntax_error_witness :
  ∃ e, next 0 (initString "b" blank) = Throw e ∧
       (e = TypeError ∨ ∃ message, e = SyntaxError message).
Proof.
  eexists. split; [vm_compute; reflexivity|].
  refine (getNextToken_throws_type_or_syntax_error tokensMap lexRules
            lexRulesByConditions handlers 0 (initString "b" blank) _ _ _).
  - apply initString_offsetsOk.
  - vm_compute. reflexivity.
Defined.

Lemma getNextToken_terminates_witness :
  next 3 (initString " a" blank) ≠ OutOfFuel.
Proof.
  refine (getNextToken_terminates tokensMap lexRules lexRulesByConditions
            handlers 3 (initString " a" blank) lexRules_nonEmpty _).
  vm_compute. lia.
Defined.

Lemma empty_match_skip_never_returns_witness :
  getNextToken tokensMap emptyRules emptyConditions skipHandlers 7
               (initString "x" blank) = OutOfFuel.
Proof.
  refine (empty_match_skip_never_returns tokensMap emptyRules emptyConditions
            skipHandlers 7 (initString "x" blank) [0%nat] "_lexRule1"
            (matchedState "x" "" (initString "x" blank))
            (λ _, ([], ReturnsNothing))
            eq_refl eq_refl _ eq_refl eq_refl eq_refl _).
  - discriminate.
  - intros u. exists ReturnsNothing. split; reflexivity.
Defined.

Lemma token_lines_match_the_input_witness :
  ∃ token t',
    next 1 (initString (" " +:+ String "010"%char " {sab") blank) =
      Done (token, t') ∧
    locationOf token = (3, 5, 2, 2, 1, 3) ∧
    (token = EOF_TOKEN tokensMap ∨
     tokenLinesOk (" " +:+ String "010"%char " {sab") token).
Proof.
  eexists _, _. split; [vm_compute; reflexivity|]. split; [reflexivity|].
  refine (proj2 (proj2
    (token_lines_match_the_input tokensMap lexRules lexRulesByConditions
       handlers 1 (initString (" " +:+ String "010"%char " {sab") blank)
       _ _ lexRules_anchored _ _))).
  - apply initString_linesOk.
  - vm_compute. reflexivity.
Defined.

Lemma pops_undo_pushes_witness :
  calls [PushState "comment"; PushState "string"; PopState; PopState]
        (initString "x" blank) = initString "x" blank.
Proof.
  exact (pops_undo_pushes ["comment"; "string"] (initString "x" blank)
           ltac:(simpl; lia)).
Defined.

End RuntimeExtra.

(** ** Further properties of the generator trait *)
Module EmitExtra.
Import Emit EmitFacts.

Lemma dictKey_string key :
  _dictKey key "string" =
    Done (Text (String "034"%char (toString key) +:+ String "034"%char "")).
Proof. reflexivity. Qed.

Lemma dictKey_unsupported key keyType :
  keyType ≠ "string" → keyType ≠ "number" →
  _dictKey key keyType = Throw (Error ("_dictKey: Incorrect type " +:+ keyType)).
Proof.
  intros Hs Hn. unfold _dictKey.
  rewrite !bool_decide_eq_false_2 by assumption. reflexivity.
Qed.

Lemma dictValue_unsupported value valueType :
  isArray value = false →
  valueType ≠ "string" → valueType ≠ "number" →
  _dictValue value valueType =
    Throw (Error ("_dictValue: Incorrect value " +:+ valueType)).
Proof.
  intros Ha Hs Hn. unfold _dictValue.
  destruct value; try discriminate;
    rewrite !bool_decide_eq_false_2 by assumption; reflexivity.
Qed.

Section DictionaryFacts.
Variable numberText : JsValue → string.

Abbreviation dictionaryEntries := (dictionaryEntries numberText).
Abbreviation _toTypeScriptDictionary := (_toTypeScriptDictionary numberText).
Abbreviation generateTokensTable := (generateTokensTable numberText).

Lemma dictionaryEntries_supported object keyType valueType :
  keyType = "string" ∨ keyType = "number" →
  valueType = "string" ∨ valueType = "number" ∨
    Forall (λ entry, isArray entry.2 = true) object →
  ∃ entries,
    dictionaryEntries object keyType valueType = Done entries ∧
    length entries = length object.
Proof.
  intros Hk Hv. induction object as [|[k value] object IH]; simpl.
  - eauto.
  - destruct (dictKey_supported (JsString (escapeQuotes k)) keyType Hk)
      as [renderedKey ->].
    assert (isArray value = true ∨ valueType = "string" ∨ valueType = "number")
      as Hvalue.
    { destruct Hv as [H|[H|H]]; auto. inversion H; subst. auto. }
    destruct (dictValue_supported value valueType Hvalue) as [renderedValue ->].
    destruct IH as (entries & -> & Hlen).
    { destruct Hv as [H|[H|H]]; auto. inversion H; subst. auto. }
    eexists. split; [reflexivity|]. simpl. rewrite Hlen. reflexivity.
Qed.

Lemma dictionaryEntries_bad_value object keyType valueType :
  keyType = "string" ∨ keyType = "number" →
  valueType ≠ "string" → valueType ≠ "number" →
  Exists (λ entry, isArray entry.2 = false) object →
  dictionaryEntries object keyType valueType =
    Throw (Error ("_dictValue: Incorrect value " +:+ valueType)).
Proof.
  intros Hk Hs Hn. induction object as [|[k value] object IH]; intros Hex.
  - inversion Hex.
  - simpl.
    destruct (dictKey_supported (JsString (escapeQuotes k)) keyType Hk)
      as [renderedKey ->].
    destruct (isArray value) eqn:Ha.
    + destruct (dictValue_supported value valueType (or_introl Ha))
        as [renderedValue ->].
      rewrite IH; [reflexivity|].
      inversion Hex as [? ? H|]; subst; [simpl in H; congruence|assumption].
    + rewrite (dictValue_unsupported _ _ Ha Hs Hn). reflexivity.
Qed.

(** X15. [_toTypeScriptDictionary] on an object without properties returns
    ["{  }"] whatever the declared types, unsupported ones included.  On an
    object with properties it throws the [_dictKey] error for an unsupported
    key type, before looking at any value; with a supported key type it
    throws the [_dictValue] error exactly when the value type is unsupported
    and some value is not an array, and returns otherwise.
    [generateTokensTable], which asks for ['string'] keys and ['number']
    values, always returns. *)
Theorem toTypeScriptDictionary_failures :
  (∀ keyType valueType,
      _toTypeScriptDictionary [] keyType valueType = Done "{  }") ∧
  (∀ entry object keyType valueType,
      keyType ≠ "string" → keyType ≠ "number" →
      _toTypeScriptDictionary (entry :: object) keyType valueType =
        Throw (Error ("_dictKey: Incorrect type " +:+ keyType))) ∧
  (∀ object keyType valueType,
      keyType = "string" ∨ keyType = "number" →
      valueType ≠ "string" → valueType ≠ "number" →
      Exists (λ entry, isArray entry.2 = false) object →
      _toTypeScriptDictionary object keyType valueType =
        Throw (Error ("_dictValue: Incorrect value " +:+ valueType))) ∧
  (∀ object keyType valueType,
      keyType = "string" ∨ keyType = "number" →
      valueType = "string" ∨ valueType = "number" ∨
        Forall (λ entry, isArray entry.2 = true) object →
      ∃ text, _toTypeScriptDictionary object keyType valueType = Done text) ∧
  (∀ _tokens, ∃ data, generateTokensTable _tokens = Done ("TOKENS", data)).
Proof.
  split; [|split; [|split; [|split]]].
  - reflexivity.
  - intros [k value] object keyType valueType Hs Hn.
    unfold _toTypeScriptDictionary. simpl.
    rewrite (dictKey_unsupported _ _ Hs Hn). reflexivity.
  - intros object keyType valueType Hk Hs Hn Hex.
    unfold _toTypeScriptDictionary.
    rewrite (dictionaryEntries_bad_value _ _ _ Hk Hs Hn Hex). reflexivity.
  - intros object keyType valueType Hk Hv. unfold _toTypeScriptDictionary.
    destruct (dictionaryEntries_supported object _ _ Hk Hv) as (entries & -> & _).
    eauto.
  - intros _tokens. unfold generateTokensTable, _toTypeScriptDictionary.
    destruct (dictionaryEntries_supported _tokens "string" "number")
      as (entries & -> & _); eauto.
Qed.

End DictionaryFacts.


(** Backslashes are not escaped.  The key [a], backslash, double quote,
    [b] becomes [a], two backslashes, double quote, [b]: the second
    backslash is taken by the first, and the double quote ends the
    literal.  A key that ends in a backslash takes the closing quote. *)
Example escaped_backslash_leaves_a_bare_quote :
  escapeQuotes (String "a" (String "092" (String "034" "b"))) =
    String "a" (String "092" (String "092" (String "034" "b"))) ∧
  breaksLiteral (escapeQuotes (String "a" (String "092" (String "034" "b")))) =
    true ∧
  breaksLiteral (escapeQuotes (String "a" (String "092" ""))) = true.
Proof. split; [reflexivity|]. split; reflexivity. Qed.


Lemma generateHandlers_lookup handlers name returnType index :
  _generateHandlers handlers name returnType !! index =
    (λ handler,
       returnType +:+ " " +:+ name +:+ pretty (S index) +:+
       "(" +:+ args handler +:+ ") {" +:+ String "010"%char "" +:+
       action handler +:+ String "010"%char "}") <$> handlers !! index.
Proof. unfold _generateHandlers. apply list_lookup_imap. Qed.

Lemma lexRuleTexts_handlers rules handlers :
  (lexRuleTexts rules handlers).2 =
    handlers ++
    ((λ lexRule, {| args := ""; action := getRawHandler lexRule +:+ ";" |})
       <$> rules).
Proof.
  revert handlers. induction rules as [|lexRule rules IH]; intros handlers;
    simpl.
  - rewrite app_nil_r. reflexivity.
  - specialize (IH (handlers ++
                      [ {| args := "";
                           action := getRawHandler lexRule +:+ ";" |} ])).
    destruct (lexRuleTexts rules _) as [texts final]. simpl in *.
    rewrite IH, <- app_assoc. reflexivity.
Qed.

Lemma lexRuleTexts_lookup rules handlers index lexRule :
  rules !! index = Some lexRule →
  (lexRuleTexts rules handlers).1 !! index =
    Some (lexRuleText lexRule (length handlers + index + 1)).
Proof.
  revert handlers index.
  induction rules as [|first rules IH]; intros handlers index H;
    [discriminate|].
  simpl.
  specialize (IH (handlers ++
                    [ {| args := "";
                         action := getRawHandler first +:+ ";" |} ])).
  destruct (lexRuleTexts rules _) as [texts final]. simpl in *.
  destruct index as [|index]; simpl in *.
  - inversion H; subst. rewrite length_app. simpl. do 2 f_equal. lia.
  - rewrite (IH index H), length_app. simpl. do 2 f_equal. lia.
Qed.

(** X17. [generateLexRules] and the handler declarations agree on names.
    If [this._lexHandlers] holds [k] entries when [generateLexRules] runs,
    the text of the rule at index [i] names the handler
    [_lexRule{k + i + 1}], and the declaration [_generateHandlers] gives
    under that same name, at index [k + i] of the handlers left, has that
    rule's raw handler followed by [;] as its body and no parameters. *)
Theorem lex_rule_names_its_own_handler rules handlers index lexRule :
  rules !! index = Some lexRule →
  (lexRuleTexts rules handlers).1 !! index =
    Some ("[/" +:+ getRawMatcher lexRule +:+ "/" +:+
          (if isCaseInsensitive lexRule then "i" else "") +:+ ", " +:+
          String "034"%char "_lexRule" +:+
          pretty (length handlers + index + 1)%nat +:+
          String "034"%char "]") ∧
  _generateHandlers (lexRuleTexts rules handlers).2 "_lexRule" "" !!
    (length handlers + index)%nat =
    Some (" _lexRule" +:+ pretty (length handlers + index + 1)%nat +:+
          "() {" +:+ String "010"%char "" +:+
          (getRawHandler lexRule +:+ ";") +:+ String "010"%char "}").
Proof.
  intros H. split.
  - rewrite (lexRuleTexts_lookup _ _ _ _ H). unfold lexRuleText.
    destruct (isCaseInsensitive lexRule); reflexivity.
  - rewrite generateHandlers_lookup, lexRuleTexts_handlers.
    rewrite lookup_app_r by lia.
    replace (length handlers + index - length handlers)%nat with index by lia.
    rewrite list_lookup_fmap, H. simpl.
    replace (S (length handlers + index)) with (length handlers + index + 1)%nat
      by lia.
    reflexivity.
Qed.

(** X18. [buildSemanticAction] returns [null] and leaves
    [this._productionHandlers] alone for a production without action code.
    Otherwise it appends one handler and returns [_handler{n}], [n] being
    the new length of the list: the declaration [_generateHandlers] gives at
    that position carries this name, the parameters joined by commas and
    the code followed by [;], and the declarations of the handlers built
    before are unchanged. *)
Theorem buildSemanticAction_names_its_handler code params handlers :
  (code = None ∨ code = Some "" →
     buildSemanticAction code params handlers = (None, handlers)) ∧
  (∀ text, code = Some text → text ≠ "" →
     ∃ handlers',
       buildSemanticAction code params handlers =
         (Some ("_handler" +:+ pretty (S (length handlers))), handlers') ∧
       length handlers' = S (length handlers) ∧
       _generateHandlers handlers' "_handler" "" !! length handlers =
         Some (" _handler" +:+ pretty (S (length handlers)) +:+
               "(" +:+ join "," params +:+ ") {" +:+ String "010"%char "" +:+
               (text +:+ ";") +:+ String "010"%char "}") ∧
       ∀ index, (index < length handlers)%nat →
                _generateHandlers handlers' "_handler" "" !! index =
                  _generateHandlers handlers "_handler" "" !! index).
Proof.
  split.
  - intros [-> | ->]; reflexivity.
  - intros text -> Htext. unfold buildSemanticAction.
    rewrite bool_decide_eq_false_2 by exact Htext.
    eexists. split; [|split; [|split]].
    + rewrite length_app. simpl. rewrite Nat.add_1_r. reflexivity.
    + rewrite length_app. simpl. lia.
    + rewrite generateHandlers_lookup, lookup_app_r by lia.
      rewrite Nat.sub_diag. reflexivity.
    + intros index Hlt. rewrite !generateHandlers_lookup.
      rewrite lookup_app_l by lia. reflexivity.
Qed.

Lemma lex_rule_names_its_own_handler_witness :
  (lexRuleTexts [ {| getRawMatcher := "^\s+"; getRawHandler := "return null";
                     isCaseInsensitive := false |};
                  {| getRawMatcher := "^select"; getRawHandler := "return 'SELECT'";
                     isCaseInsensitive := true |} ] []).1 !! 1%nat =
    Some ("[/^select/i, " +:+ String "034"%char "_lexRule2" +:+
          String "034"%char "]").
Proof.
  exact (proj1 (lex_rule_names_its_own_handler
                  [ {| getRawMatcher := "^\s+"; getRawHandler := "return null";
                       isCaseInsensitive := false |};
                    {| getRawMatcher := "^select";
                       getRawHandler := "return 'SELECT'";
                       isCaseInsensitive := true |} ] [] 1
                  {| getRawMatcher := "^select";
                     getRawHandler := "return 'SELECT'";
                     isCaseInsensitive := true |} eq_refl)).
Defined.

Lemma buildSemanticAction_names_its_handler_witness :
  ∃ handlers',
    buildSemanticAction (Some "$$ = $1 + $3") ["$1"; "$2"; "$3"]
                        [ {| args := ""; action := "$$ = 0;" |} ] =
      (Some "_handler2", handlers') ∧
    _generateHandlers handlers' "_handler" "" !! 1%nat =
      Some (" _handler2($1,$2,$3) {" +:+ String "010"%char "" +:+
            "$$ = $1 + $3;" +:+ String "010"%char "}").
Proof.
  destruct (proj2 (buildSemanticAction_names_its_handler
                     (Some "$$ = $1 + $3") ["$1"; "$2"; "$3"]
                     [ {| args := ""; action := "$$ = 0;" |} ])
              "$$ = $1 + $3" eq_refl ltac:(discriminate))
    as (handlers' & Hbuild & _ & Hdecl & _).
  exists handlers'. split; [exact Hbuild|exact Hdecl].
Defined.

(** A token map with a key that holds a double quote, and a key type the
    primitives do not know. *)
Example dictionary_rendering :
  _toTypeScriptDictionary integerText
    [("NUMBER", JsNumber 7); ("a" +:+ String "034"%char "b", JsNumber 8)]
    "string" "number" =
    Done ("{ " +:+ String "034"%char "NUMBER" +:+ String "034"%char ": 7, " +:+
          String "034"%char "a" +:+ String "092"%char "" +:+
          String "034"%char "b" +:+ String "034"%char ": 8 }") ∧
  _toTypeScriptDictionary integerText [] "boolean" "object" = Done "{  }" ∧
  _toTypeScriptDictionary integerText [("NUMBER", JsNumber 7)] "boolean" "object" =
    Throw (Error "_dictKey: Incorrect type boolean").
Proof. repeat split. Qed.

End EmitExtra.
